(** * LinkHints element manager: a shallow embedding of
      [src/worker/ElementManager.js] and the properties of its classifier,
      deduper, hint geometry and time-sliced mutation queue. *)

From Stdlib Require Import ZArith QArith Qround Qminmax Reals Lra Lia.
From Stdlib Require Lqa.
From stdpp Require Import gmap strings list pretty.

Local Open Scope string_scope.
Local Open Scope nat_scope.

(** ** Build constants, element categories and the tweakable table [t] *)

Inductive Browser := chrome | firefox.

#[global] Instance Browser_eq_dec : EqDecision Browser.
Proof. solve_decision. Defined.

(** [ElementType] of [shared/hints]: the string literals the worker uses. *)
Inductive ElementType :=
| clickable | clickable_event | label | link | scrollable | selectable | textarea.

#[global] Instance ElementType_eq_dec : EqDecision ElementType.
Proof. solve_decision. Defined.

Definition ElementType_name (ty : ElementType) : string :=
  match ty with
  | clickable => "clickable"
  | clickable_event => "clickable-event"
  | label => "label"
  | link => "link"
  | scrollable => "scrollable"
  | selectable => "selectable"
  | textarea => "textarea"
  end.

(** [new Set(...)] over strings, and [set.has(x)]. *)
Definition has (set : gset string) (x : string) : bool := bool_decide (x ∈ set).

Module t.
Definition MAX_INTERSECTION_OBSERVED_ELEMENTS : Z := 10000%Z.

Definition ELEMENT_TYPES_LOW_QUALITY : gset string :=
  list_to_set ["clickable-event"].

Definition ELEMENT_TYPES_WORSE : gset string :=
  list_to_set ["scrollable"; "selectable"].

Definition MIN_HEIGHT_BOX : Q := 110%Q.

Definition MAX_HINT_X_PERCENTAGE_OF_WIDTH : Q := (3 # 4)%Q.

Definition MAX_CLICKABLE_EVENT_AREA : Q := 1000000%Q.

(** [[...].filter(Boolean)]: the [undefined] entry of a non-Chrome build
    is dropped. *)
Definition PROTOCOLS_LINK (BROWSER : option Browser) : gset string :=
  list_to_set
    (omap (λ protocol : option string, protocol)
       [ Some "http:"; Some "https:"; Some "ftp:";
         Some "chrome-extension:"; Some "moz-extension:";
         if decide (BROWSER = Some chrome) then Some "file:" else None ]).

Definition ROLES_CLICKABLE : gset string :=
  list_to_set
    [ "button"; "checkbox"; "gridcell"; "link"; "menuitem";
      "menuitemcheckbox"; "menuitemradio"; "option"; "radio"; "searchbox";
      "spinbutton"; "switch"; "tab"; "textbox"; "treeitem" ].

Definition VALUES_NON_CONTENTEDITABLE : gset string :=
  list_to_set ["inherit"; "false"].

Definition MIN_SIZE_FRAME : Q := 6%Q.
Definition MIN_SIZE_TEXT_RECT : Q := 2%Q.
Definition MIN_SIZE_ICON : Q := 10%Q.

Definition ATTRIBUTES_CLICKABLE : list string :=
  [ "aria-checked"; "aria-selected"; "data-ember-action"; "data-dismiss";
    "data-permalink-path"; "data-image-url"; "jsaction" ].
End t.

(** ** The page: DOM nodes as seen by the worker *)

(** A node is known by its identity. *)
Abbreviation Node := nat.

(** The DOM interface a node implements, as far as the worker tests it with
    [instanceof]. [HTMLElement] stands for every other HTML element,
    [Element] for non-HTML elements (SVG, MathML) and [CharacterData] for
    text and comment nodes. *)
Inductive Interface :=
| HTMLAnchorElement | HTMLInputElement | HTMLSelectElement
| HTMLTextAreaElement | HTMLLabelElement | HTMLCanvasElement
| HTMLIFrameElement | HTMLFrameElement | HTMLElement
| Element | CharacterData.

#[global] Instance Interface_eq_dec : EqDecision Interface.
Proof. solve_decision. Defined.

(** [x instanceof C] for a node of interface [x]. *)
Definition instanceof (x C : Interface) : bool :=
  match C with
  | HTMLElement =>
      match x with Element | CharacterData => false | _ => true end
  | Element => match x with CharacterData => false | _ => true end
  | _ => bool_decide (x = C)
  end.

Inductive MutationType := added | removed | changed.

#[global] Instance MutationType_eq_dec : EqDecision MutationType.
Proof. solve_decision. Defined.

(** ** Queue items *)

Record Record_ := {
  addedNodes : list Node;
  removedNodes : list Node;
  attributeName : option string;
  target : Node;
}.

(** The ["Records"] variant with its resumption cursors. *)
Record RecordsItem := {
  records : list Record_;
  recordIndex : nat;
  addedNodeIndex : nat;
  removedNodeIndex : nat;
  childIndex : nat;
  children : option (list Node);
  removalsOnly : bool;
}.

Inductive QueueItem :=
| Records (item : RecordsItem)
| ClickableChanged (target : Node) (clickable : bool)
| OverflowChanged (target : Node).

Record Queue := {
  items : list QueueItem;
  index : nat;
  addedElements : gset Node;
}.

Definition makeEmptyQueue : Queue :=
  {| items := []; index := 0; addedElements := ∅ |}.

(** ** The manager's state *)

(** The fields of [ElementManager] that the queue processor reads and
    writes, the attribute store of the document ([attributes !! (e, a)] is
    [e.getAttribute(a)]), the target sets of the three observers, and a
    ghost [trace] of every [addOrRemoveElement] call, the latest first. *)
Record Manager := {
  queue : Queue;
  elements : gmap Node ElementType;
  visibleElements : gset Node;
  visibleFrames : gset Node;
  elementsWithClickListeners : gset Node;
  elementsWithScrollbars : gset Node;
  bailed : bool;
  intersectionObserver : gset Node;
  frameIntersectionObserver : gset Node;
  removalObserver : gset Node;
  attributes : gmap (Node * string) string;
  trace : list (MutationType * Node);
}.

(** ** Deadlines *)

(** What [deadline.timeRemaining()] returns: milliseconds, or [Infinity]. *)
Inductive Time := Finite (ms : Q) | Infinity.

(** A deadline is known by the successive answers of [timeRemaining()]:
    [d 0] is the next answer and [later d] the deadline after that call. *)
Definition Deadline := nat → Time.

Definition later (d : Deadline) : Deadline := λ n, d (S n).

Definition infiniteDeadline : Deadline := λ _, Infinity.

(** [deadline.timeRemaining() <= 0] *)
Definition exhausted (d : Deadline) : bool :=
  match d 0%nat with
  | Finite ms => Qle_bool ms 0
  | Infinity => false
  end.

(** [advanced && deadline.timeRemaining() <= 0]: the deadline is only asked
    when the loop index is past its value at entry. *)
Definition overBudget (advanced : bool) (d : Deadline) : bool * Deadline :=
  if advanced then (exhausted d, later d) else (false, d).

(** How a loop of [flushQueue] ends: [Yield] is
    [this.requestIdleCallback(); return;] and [Next] is falling out of the
    loop, with the deadline as it then stands. *)
Inductive Outcome (A : Type) :=
| Yield (a : A)
| Next (a : A) (d : Deadline).
Arguments Yield {A} a.
Arguments Next {A} a d.

Inductive IdleCallbackID := idleCallback.

(** The manager with the handle of its pending idle callback. *)
Record ElementManager := {
  manager : Manager;
  idleCallbackId : option IdleCallbackID;
}.

(** ** Geometry and measurements *)

Inductive Align := left | right.

#[global] Instance Align_eq_dec : EqDecision Align.
Proof. solve_decision. Defined.

Definition Align_name (a : Align) : string :=
  match a with left => "left" | right => "right" end.

(** A [Box], and a [ClientRect] read through its [x], [y], [width] and
    [height]. *)
Module Box.
Record t := { x : Q; y : Q; width : Q; height : Q }.
Definition left (b : t) : Q := x b.
Definition top (b : t) : Q := y b.
Definition right (b : t) : Q := (x b + width b)%Q.
Definition bottom (b : t) : Q := (y b + height b)%Q.
End Box.

Module Point.
Record t := { x : Q; y : Q; align : Align }.
End Point.

(** A JavaScript number as far as [hintWeight] needs it: a real, or one of
    the three special values. Rounding error is not modelled. *)
Inductive Number := NaN | NegativeInfinity | Real (r : R) | PositiveInfinity.

Module HintMeasurements.
Record t := { x : Q; y : Q; align : Align; maxX : Q; weight : Number }.
End HintMeasurements.

Record VisibleElement := {
  element : Node;
  type : ElementType;
  measurements : HintMeasurements.t;
  hasClickListener : bool;
}.

Record Deduper := {
  positionMap : gmap string (list VisibleElement);
  rejected : gset Node;
}.

(** [ElementTypes]: a list of categories, or the string ["selectable"]. *)
Inductive ElementTypes := Types (types : list ElementType) | Selectable.

(** What the browser answers about the (otherwise unchanging) document, and
    the constants of the build and of [injected.js]. Attribute values are
    not here: the worker removes an attribute, so they are part of the
    manager's world state below. A page is the document at one time: of
    its answers only [interface] and [nodeName] are fixed for the life of
    a node; a script can change the others ([inputType], [contentEditable],
    [isScrollable], the layout) without a mutation record reaching the
    worker, so that nothing about them is kept from one event to a later
    one. *)
Record Page := {
  BROWSER : option Browser;
  EVENT_ATTRIBUTE : string;
  CLICKABLE_EVENT : string;
  UNCLICKABLE_EVENT : string;
  CLICKABLE_EVENT_PROPS : list string;
  interface : Node → Interface;
  nodeName : Node → string;
  (** [element.contentEditable]; [undefined] for SVG elements. *)
  contentEditable : Node → option string;
  (** [element.protocol] of an anchor. *)
  protocol : Node → string;
  (** [element.type] of an input. *)
  inputType : Node → string;
  (** The properties [p] with [typeof element[p] === "function"]. *)
  functionProps : Node → list string;
  (** [element.querySelectorAll("*")], in document order. *)
  querySelectorAll : Node → list Node;
  (** The outcome of [isScrollable(element)] (computed style and scroll
      extents). *)
  isScrollable : Node → bool;
  documentElement : option Node;
  body : option Node;
  scrollingElement : option Node;
  (** [window.top === window]. *)
  isTopWindow : bool;
  (** [document.getElementsByTagName("*")]. *)
  getElementsByTagName : list Node;
  (** [element.labels] where it is a [NodeList], and [element.control]. *)
  labels : Node → option (list Node);
  control : Node → option Node;
  (** [getMeasurements(element, type, viewports, range)] as a whole: it
      rests on layout and hit testing. *)
  getMeasurements : Node → ElementType → list Box.t → option HintMeasurements.t;
  (** [getVisibleBox(rect, viewports)] of [shared/main]. *)
  getVisibleBox : Box.t → list Box.t → option Box.t;
  (** The client rects of the trimmed text of the text nodes under an
      element, in the order [walkTextNodes] and [range.getClientRects()]
      give them. *)
  textRects : Node → list Box.t;
  (** [element.querySelectorAll(t.SELECTOR_IMAGE)] and
      [element.matches(t.SELECTOR_IMAGE)]. *)
  images : Node → list Node;
  matchesImage : Node → bool;
  getBoundingClientRect : Node → Box.t;
  (** [border-left-width] plus [padding-left] of the computed style. *)
  borderAndPaddingLeft : Node → Q;
  (** [element.src] of an input. *)
  inputSrc : Node → string;
  childElementCount : Node → nat;
  (** Whether some child node is a [Text] whose data matches [/\S/]. *)
  hasNonBlankTextChild : Node → bool;
}.

(** ** Field updates *)

Definition set_queue (q : Queue) (m : Manager) : Manager :=
  {| queue := q; elements := elements m;
     visibleElements := visibleElements m; visibleFrames := visibleFrames m;
     elementsWithClickListeners := elementsWithClickListeners m;
     elementsWithScrollbars := elementsWithScrollbars m; bailed := bailed m;
     intersectionObserver := intersectionObserver m;
     frameIntersectionObserver := frameIntersectionObserver m;
     removalObserver := removalObserver m; attributes := attributes m;
     trace := trace m |}.

Definition set_elements (e : gmap Node ElementType) (m : Manager) : Manager :=
  {| queue := queue m; elements := e;
     visibleElements := visibleElements m; visibleFrames := visibleFrames m;
     elementsWithClickListeners := elementsWithClickListeners m;
     elementsWithScrollbars := elementsWithScrollbars m; bailed := bailed m;
     intersectionObserver := intersectionObserver m;
     frameIntersectionObserver := frameIntersectionObserver m;
     removalObserver := removalObserver m; attributes := attributes m;
     trace := trace m |}.

Definition set_visibleElements (v : gset Node) (m : Manager) : Manager :=
  {| queue := queue m; elements := elements m;
     visibleElements := v; visibleFrames := visibleFrames m;
     elementsWithClickListeners := elementsWithClickListeners m;
     elementsWithScrollbars := elementsWithScrollbars m; bailed := bailed m;
     intersectionObserver := intersectionObserver m;
     frameIntersectionObserver := frameIntersectionObserver m;
     removalObserver := removalObserver m; attributes := attributes m;
     trace := trace m |}.

Definition set_visibleFrames (v : gset Node) (m : Manager) : Manager :=
  {| queue := queue m; elements := elements m;
     visibleElements := visibleElements m; visibleFrames := v;
     elementsWithClickListeners := elementsWithClickListeners m;
     elementsWithScrollbars := elementsWithScrollbars m; bailed := bailed m;
     intersectionObserver := intersectionObserver m;
     frameIntersectionObserver := frameIntersectionObserver m;
     removalObserver := removalObserver m; attributes := attributes m;
     trace := trace m |}.

Definition set_elementsWithClickListeners (v : gset Node) (m : Manager)
  : Manager :=
  {| queue := queue m; elements := elements m;
     visibleElements := visibleElements m; visibleFrames := visibleFrames m;
     elementsWithClickListeners := v;
     elementsWithScrollbars := elementsWithScrollbars m; bailed := bailed m;
     intersectionObserver := intersectionObserver m;
     frameIntersectionObserver := frameIntersectionObserver m;
     removalObserver := removalObserver m; attributes := attributes m;
     trace := trace m |}.

Definition set_elementsWithScrollbars (v : gset Node) (m : Manager) : Manager :=
  {| queue := queue m; elements := elements m;
     visibleElements := visibleElements m; visibleFrames := visibleFrames m;
     elementsWithClickListeners := elementsWithClickListeners m;
     elementsWithScrollbars := v; bailed := bailed m;
     intersectionObserver := intersectionObserver m;
     frameIntersectionObserver := frameIntersectionObserver m;
     removalObserver := removalObserver m; attributes := attributes m;
     trace := trace m |}.

Definition set_bailed (b : bool) (m : Manager) : Manager :=
  {| queue := queue m; elements := elements m;
     visibleElements := visibleElements m; visibleFrames := visibleFrames m;
     elementsWithClickListeners := elementsWithClickListeners m;
     elementsWithScrollbars := elementsWithScrollbars m; bailed := b;
     intersectionObserver := intersectionObserver m;
     frameIntersectionObserver := frameIntersectionObserver m;
     removalObserver := removalObserver m; attributes := attributes m;
     trace := trace m |}.

Definition set_intersectionObserver (v : gset Node) (m : Manager) : Manager :=
  {| queue := queue m; elements := elements m;
     visibleElements := visibleElements m; visibleFrames := visibleFrames m;
     elementsWithClickListeners := elementsWithClickListeners m;
     elementsWithScrollbars := elementsWithScrollbars m; bailed := bailed m;
     intersectionObserver := v;
     frameIntersectionObserver := frameIntersectionObserver m;
     removalObserver := removalObserver m; attributes := attributes m;
     trace := trace m |}.

Definition set_frameIntersectionObserver (v : gset Node) (m : Manager)
  : Manager :=
  {| queue := queue m; elements := elements m;
     visibleElements := visibleElements m; visibleFrames := visibleFrames m;
     elementsWithClickListeners := elementsWithClickListeners m;
     elementsWithScrollbars := elementsWithScrollbars m; bailed := bailed m;
     intersectionObserver := intersectionObserver m;
     frameIntersectionObserver := v;
     removalObserver := removalObserver m; attributes := attributes m;
     trace := trace m |}.

Definition set_removalObserver (v : gset Node) (m : Manager) : Manager :=
  {| queue := queue m; elements := elements m;
     visibleElements := visibleElements m; visibleFrames := visibleFrames m;
     elementsWithClickListeners := elementsWithClickListeners m;
     elementsWithScrollbars := elementsWithScrollbars m; bailed := bailed m;
     intersectionObserver := intersectionObserver m;
     frameIntersectionObserver := frameIntersectionObserver m;
     removalObserver := v; attributes := attributes m;
     trace := trace m |}.

Definition set_attributes (a : gmap (Node * string) string) (m : Manager)
  : Manager :=
  {| queue := queue m; elements := elements m;
     visibleElements := visibleElements m; visibleFrames := visibleFrames m;
     elementsWithClickListeners := elementsWithClickListeners m;
     elementsWithScrollbars := elementsWithScrollbars m; bailed := bailed m;
     intersectionObserver := intersectionObserver m;
     frameIntersectionObserver := frameIntersectionObserver m;
     removalObserver := removalObserver m; attributes := a;
     trace := trace m |}.

Definition set_trace (l : list (MutationType * Node)) (m : Manager) : Manager :=
  {| queue := queue m; elements := elements m;
     visibleElements := visibleElements m; visibleFrames := visibleFrames m;
     elementsWithClickListeners := elementsWithClickListeners m;
     elementsWithScrollbars := elementsWithScrollbars m; bailed := bailed m;
     intersectionObserver := intersectionObserver m;
     frameIntersectionObserver := frameIntersectionObserver m;
     removalObserver := removalObserver m; attributes := attributes m;
     trace := l |}.

Definition set_items (l : list QueueItem) (q : Queue) : Queue :=
  {| items := l; index := index q; addedElements := addedElements q |}.

Definition set_index (i : nat) (q : Queue) : Queue :=
  {| items := items q; index := i; addedElements := addedElements q |}.

Definition set_addedElements (s : gset Node) (q : Queue) : Queue :=
  {| items := items q; index := index q; addedElements := s |}.

Definition set_recordIndex (i : nat) (item : RecordsItem) : RecordsItem :=
  {| records := records item; recordIndex := i;
     addedNodeIndex := addedNodeIndex item;
     removedNodeIndex := removedNodeIndex item;
     childIndex := childIndex item; children := children item;
     removalsOnly := removalsOnly item |}.

Definition set_addedNodeIndex (i : nat) (item : RecordsItem) : RecordsItem :=
  {| records := records item; recordIndex := recordIndex item;
     addedNodeIndex := i;
     removedNodeIndex := removedNodeIndex item;
     childIndex := childIndex item; children := children item;
     removalsOnly := removalsOnly item |}.

Definition set_removedNodeIndex (i : nat) (item : RecordsItem) : RecordsItem :=
  {| records := records item; recordIndex := recordIndex item;
     addedNodeIndex := addedNodeIndex item;
     removedNodeIndex := i;
     childIndex := childIndex item; children := children item;
     removalsOnly := removalsOnly item |}.

Definition set_childIndex (i : nat) (item : RecordsItem) : RecordsItem :=
  {| records := records item; recordIndex := recordIndex item;
     addedNodeIndex := addedNodeIndex item;
     removedNodeIndex := removedNodeIndex item;
     childIndex := i; children := children item;
     removalsOnly := removalsOnly item |}.

Definition set_children (c : option (list Node)) (item : RecordsItem)
  : RecordsItem :=
  {| records := records item; recordIndex := recordIndex item;
     addedNodeIndex := addedNodeIndex item;
     removedNodeIndex := removedNodeIndex item;
     childIndex := childIndex item; children := c;
     removalsOnly := removalsOnly item |}.

Section Worker.

Variable pg : Page.

Definition getAttribute (m : Manager) (element : Node) (name : string)
  : option string :=
  attributes m !! (element, name).

Definition hasAttribute (m : Manager) (element : Node) (name : string) : bool :=
  bool_decide (is_Some (getAttribute m element name)).

(** ** Classifier *)

Definition getLinkElementType (m : Manager) (element : Node) : ElementType :=
  match getAttribute m element "href" with
  | Some hrefAttr =>
      if bool_decide (hrefAttr ≠ "") && bool_decide (hrefAttr ≠ "#")
         && has (t.PROTOCOLS_LINK (BROWSER pg)) (protocol pg element)
      then link else clickable
  | None => clickable
  end.

Definition hasClickListenerProp (m : Manager) (element : Node) : bool :=
  existsb
    (λ prop,
       if decide (BROWSER pg = Some chrome)
       then hasAttribute m element prop
       else bool_decide (prop ∈ functionProps pg element))
    (CLICKABLE_EVENT_PROPS pg).

Definition is_node (o : option Node) (element : Node) : bool :=
  bool_decide (o = Some element).

Definition getElementType (m : Manager) (element : Node) : option ElementType :=
  let name := nodeName pg element in
  if bool_decide (name = "A") then
    if instanceof (interface pg element) HTMLAnchorElement
    then Some (getLinkElementType m element) else None
  else if bool_decide (name ∈ ["BUTTON"; "SELECT"; "SUMMARY"; "AUDIO"; "VIDEO"])
  then Some clickable
  else if bool_decide (name = "INPUT") then
    if instanceof (interface pg element) HTMLInputElement
       && bool_decide (inputType pg element ≠ "hidden")
    then Some clickable else None
  else if bool_decide (name = "FORM") then None
  else if bool_decide (name = "TEXTAREA") then Some textarea
  else
    if match contentEditable pg element with
       | Some v => negb (has t.VALUES_NON_CONTENTEDITABLE v)
       | None => false
       end
    then Some textarea
    else if bool_decide (element ∈ elementsWithScrollbars m)
            && negb (is_node (scrollingElement pg) element && isTopWindow pg)
    then Some scrollable
    else if is_node (documentElement pg) element || is_node (body pg) element
    then None
    else if match getAttribute m element "role" with
            | Some role => has t.ROLES_CLICKABLE role
            | None => false
            end
    then Some clickable
    else if hasClickListenerProp m element
            || bool_decide (element ∈ elementsWithClickListeners m)
            || existsb (hasAttribute m element) t.ATTRIBUTES_CLICKABLE
    then Some clickable_event
    else if bool_decide (name = "LABEL") then Some label
    else None.

(** ** Registry maintenance *)

Definition consumeEventAttribute (element : Node) (m : Manager) : Manager :=
  match getAttribute m element (EVENT_ATTRIBUTE pg) with
  | Some value =>
      if bool_decide (value = CLICKABLE_EVENT pg) then
        set_attributes (delete (element, EVENT_ATTRIBUTE pg) (attributes m))
          (set_elementsWithClickListeners
             ({[element]} ∪ elementsWithClickListeners m) m)
      else if bool_decide (value = UNCLICKABLE_EVENT pg) then
        set_attributes (delete (element, EVENT_ATTRIBUTE pg) (attributes m))
          (set_elementsWithClickListeners
             (elementsWithClickListeners m ∖ {[element]}) m)
      else m
  | None => m
  end.

Definition bail (m : Manager) : Manager :=
  if bailed m then m
  else set_bailed true (set_visibleElements ∅ (set_intersectionObserver ∅ m)).

Definition isFrame (element : Node) : bool :=
  instanceof (interface pg element) HTMLIFrameElement
  || instanceof (interface pg element) HTMLFrameElement.

Definition addOrRemoveElement (mutationType : MutationType) (element : Node)
    (m : Manager) : Manager :=
  let m := set_trace ((mutationType, element) :: trace m) m in
  let m := consumeEventAttribute element m in
  if isFrame element then
    match mutationType with
    | added =>
        set_frameIntersectionObserver
          ({[element]} ∪ frameIntersectionObserver m) m
    | removed =>
        set_visibleFrames (visibleFrames m ∖ {[element]})
          (set_frameIntersectionObserver
             (frameIntersectionObserver m ∖ {[element]}) m)
    | changed => m
    end
  else
    let type :=
      if decide (mutationType = removed) then None
      else getElementType m element in
    match type with
    | None =>
        if decide (mutationType ≠ added) then
          set_intersectionObserver (intersectionObserver m ∖ {[element]})
            (set_visibleElements (visibleElements m ∖ {[element]})
               (set_elements (delete element (elements m)) m))
        else m
    | Some type =>
        let m := set_elements (<[element := type]> (elements m)) m in
        if bailed m then m
        else
          let m :=
            set_intersectionObserver ({[element]} ∪ intersectionObserver m) m in
          if (t.MAX_INTERSECTION_OBSERVED_ELEMENTS
              <? Z.of_nat (size (elements m)))%Z
          then bail m else m
    end.

Definition stop (em : ElementManager) : ElementManager :=
  let m := manager em in
  {| manager :=
       {| queue := makeEmptyQueue; elements := ∅; visibleElements := ∅;
          visibleFrames := ∅;
          elementsWithClickListeners := elementsWithClickListeners m;
          elementsWithScrollbars := elementsWithScrollbars m;
          bailed := bailed m;
          intersectionObserver := ∅; frameIntersectionObserver := ∅;
          removalObserver := ∅; attributes := attributes m;
          trace := trace m |};
     idleCallbackId := None |}.

Definition requestIdleCallback (em : ElementManager) : ElementManager :=
  match idleCallbackId em with
  | None => {| manager := manager em; idleCallbackId := Some idleCallback |}
  | Some _ => em
  end.

Definition queueItem (item : QueueItem) (em : ElementManager) : ElementManager :=
  let m := manager em in
  requestIdleCallback
    {| manager := set_queue (set_items (items (queue m) ++ [item]) (queue m)) m;
       idleCallbackId := idleCallbackId em |}.

Definition queueRecords (records : list Record_) (removalsOnly : bool)
    (em : ElementManager) : ElementManager :=
  queueItem
    (Records
       {| records := records; recordIndex := 0; addedNodeIndex := 0;
          removedNodeIndex := 0; childIndex := 0; children := None;
          removalsOnly := removalsOnly |})
    em.

(** ** The queue processor *)

Definition addedElements_add (element : Node) (m : Manager) : Manager :=
  set_queue
    (set_addedElements ({[element]} ∪ addedElements (queue m)) (queue m)) m.

Definition addedElements_delete (element : Node) (m : Manager) : Manager :=
  set_queue
    (set_addedElements (addedElements (queue m) ∖ {[element]}) (queue m)) m.

(** The walk over [children] from [item.childIndex] on, for an added node.
    [rest] is what is left of the list at [item.childIndex]. *)
Fixpoint addedChildren (d : Deadline) (startChildIndex : nat)
    (rest : list Node) (item : RecordsItem) (m : Manager)
  : Outcome (RecordsItem * Manager) :=
  match rest with
  | [] => Next (item, m) d
  | child :: rest =>
      let '(over, d) := overBudget (startChildIndex <? childIndex item) d in
      if over then Yield (item, m)
      else
        let m :=
          if bool_decide (child ∈ addedElements (queue m)) then m
          else addedElements_add child (addOrRemoveElement added child m) in
        addedChildren d startChildIndex rest
          (set_childIndex (S (childIndex item)) item) m
  end.

(** The same walk for a removed node. *)
Fixpoint removedChildren (d : Deadline) (startChildIndex : nat)
    (rest : list Node) (item : RecordsItem) (m : Manager)
  : Outcome (RecordsItem * Manager) :=
  match rest with
  | [] => Next (item, m) d
  | child :: rest =>
      let '(over, d) := overBudget (startChildIndex <? childIndex item) d in
      if over then Yield (item, m)
      else
        let m := addedElements_delete child (addOrRemoveElement removed child m) in
        removedChildren d startChildIndex rest
          (set_childIndex (S (childIndex item)) item) m
  end.

(** [item.childIndex = 0; item.children = undefined;] *)
Definition resetChildren (item : RecordsItem) : RecordsItem :=
  set_children None (set_childIndex 0 item).

(** The part of an iteration after the [if (children == null && ...)]
    block: the walk over a non-empty [children], then the reset. *)
Definition walkChildren
    (walk : Deadline → nat → list Node → RecordsItem → Manager
            → Outcome (RecordsItem * Manager))
    (d : Deadline) (item : RecordsItem) (m : Manager)
  : Outcome (RecordsItem * Manager) :=
  match children item with
  | Some c =>
      if (0 <? length c)%nat then
        match walk d (childIndex item) (drop (childIndex item) c) item m with
        | Yield s => Yield s
        | Next (item, m) d => Next (resetChildren item, m) d
        end
      else Next (resetChildren item, m) d
  | None => Next (resetChildren item, m) d
  end.

(** One iteration of the loop over [record.addedNodes], after its budget
    check. [continue] leaves through [Next] without the reset. *)
Definition addedNode (d : Deadline) (element : Node) (item : RecordsItem)
    (m : Manager) : Outcome (RecordsItem * Manager) :=
  if bool_decide (children item = None)
     && instanceof (interface pg element) HTMLElement
  then
    if bool_decide (element ∈ addedElements (queue m)) then Next (item, m) d
    else
      let item := set_children (Some (querySelectorAll pg element)) item in
      let m := addedElements_add element (addOrRemoveElement added element m) in
      if exhausted d then Yield (item, m)
      else walkChildren addedChildren (later d) item m
  else walkChildren addedChildren d item m.

(** One iteration of the loop over [record.removedNodes]. *)
Definition removedNode (d : Deadline) (element : Node) (item : RecordsItem)
    (m : Manager) : Outcome (RecordsItem * Manager) :=
  if bool_decide (children item = None)
     && instanceof (interface pg element) HTMLElement
  then
    let item := set_children (Some (querySelectorAll pg element)) item in
    let m := addedElements_delete element (addOrRemoveElement removed element m) in
    if exhausted d then Yield (item, m)
    else walkChildren removedChildren (later d) item m
  else walkChildren removedChildren d item m.

Fixpoint addedLoop (d : Deadline) (startAddedNodeIndex : nat)
    (rest : list Node) (item : RecordsItem) (m : Manager)
  : Outcome (RecordsItem * Manager) :=
  match rest with
  | [] => Next (item, m) d
  | element :: rest =>
      let '(over, d) :=
        overBudget (startAddedNodeIndex <? addedNodeIndex item) d in
      if over then Yield (item, m)
      else
        match addedNode d element item m with
        | Yield s => Yield s
        | Next (item, m) d =>
            addedLoop d startAddedNodeIndex rest
              (set_addedNodeIndex (S (addedNodeIndex item)) item) m
        end
  end.

Fixpoint removedLoop (d : Deadline) (startRemovedNodeIndex : nat)
    (rest : list Node) (item : RecordsItem) (m : Manager)
  : Outcome (RecordsItem * Manager) :=
  match rest with
  | [] => Next (item, m) d
  | element :: rest =>
      let '(over, d) :=
        overBudget (startRemovedNodeIndex <? removedNodeIndex item) d in
      if over then Yield (item, m)
      else
        match removedNode d element item m with
        | Yield s => Yield s
        | Next (item, m) d =>
            removedLoop d startRemovedNodeIndex rest
              (set_removedNodeIndex (S (removedNodeIndex item)) item) m
        end
  end.

(** The body of the loop over [item.records], after its budget check. *)
Definition processRecord (d : Deadline) (record : Record_)
    (item : RecordsItem) (m : Manager) : Outcome (RecordsItem * Manager) :=
  let startAddedNodeIndex := addedNodeIndex item in
  let startRemovedNodeIndex := removedNodeIndex item in
  match
    if removalsOnly item then Next (item, m) d
    else addedLoop d startAddedNodeIndex
           (drop (addedNodeIndex item) (addedNodes record)) item m
  with
  | Yield s => Yield s
  | Next (item, m) d =>
      match
        removedLoop d startRemovedNodeIndex
          (drop (removedNodeIndex item) (removedNodes record)) item m
      with
      | Yield s => Yield s
      | Next (item, m) d =>
          let item := set_removedNodeIndex 0 (set_addedNodeIndex 0 item) in
          let m :=
            if negb (removalsOnly item)
               && bool_decide (is_Some (attributeName record))
               && instanceof (interface pg (target record)) HTMLElement
            then addOrRemoveElement changed (target record) m
            else m in
          Next (item, m) d
      end
  end.

Fixpoint recordLoop (d : Deadline) (startRecordIndex : nat)
    (rest : list Record_) (item : RecordsItem) (m : Manager)
  : Outcome (RecordsItem * Manager) :=
  match rest with
  | [] => Next (item, m) d
  | record :: rest =>
      let '(over, d) := overBudget (startRecordIndex <? recordIndex item) d in
      if over then Yield (item, m)
      else
        match processRecord d record item m with
        | Yield s => Yield s
        | Next (item, m) d =>
            recordLoop d startRecordIndex rest
              (set_recordIndex (S (recordIndex item)) item) m
        end
  end.

(** The cursors live on the queue item itself: [storeItem] puts the item
    as the loops left it back at [queue.index]. *)
Definition storeItem (item : RecordsItem) (m : Manager) : Manager :=
  set_queue
    (set_items (<[index (queue m) := Records item]> (items (queue m))) (queue m))
    m.

Definition clickableChanged (target : Node) (clickable : bool) (m : Manager)
  : Manager :=
  if instanceof (interface pg target) HTMLElement then
    addOrRemoveElement changed target
      (set_elementsWithClickListeners
         (if clickable then {[target]} ∪ elementsWithClickListeners m
          else elementsWithClickListeners m ∖ {[target]}) m)
  else m.

Definition overflowChanged (target : Node) (m : Manager) : Manager :=
  if instanceof (interface pg target) HTMLElement then
    if isScrollable pg target then
      if bool_decide (target ∈ elementsWithScrollbars m) then m
      else
        addOrRemoveElement changed target
          (set_elementsWithScrollbars ({[target]} ∪ elementsWithScrollbars m) m)
    else if bool_decide (target ∈ elementsWithScrollbars m) then
      addOrRemoveElement changed target
        (set_elementsWithScrollbars (elementsWithScrollbars m ∖ {[target]}) m)
    else m
  else m.

Definition nextItem (m : Manager) : Manager :=
  set_queue (set_index (S (index (queue m))) (queue m)) m.

(** The loop over [this.queue.items] from [this.queue.index] on. *)
Fixpoint queueLoop (d : Deadline) (startQueueIndex : nat)
    (rest : list QueueItem) (m : Manager) : Outcome Manager :=
  match rest with
  | [] => Next m d
  | item :: rest =>
      let '(over, d) := overBudget (startQueueIndex <? index (queue m)) d in
      if over then Yield m
      else
        match item with
        | Records item =>
            match
              recordLoop d (recordIndex item)
                (drop (recordIndex item) (records item)) item m
            with
            | Yield (item, m) => Yield (storeItem item m)
            | Next (item, m) d =>
                queueLoop d startQueueIndex rest (nextItem (storeItem item m))
            end
        | ClickableChanged target isClickable =>
            queueLoop d startQueueIndex rest
              (nextItem (clickableChanged target isClickable m))
        | OverflowChanged target =>
            queueLoop d startQueueIndex rest
              (nextItem (overflowChanged target m))
        end
  end.

Definition flushQueue (deadline : Deadline) (em : ElementManager)
  : ElementManager :=
  let m := manager em in
  let startQueueIndex := index (queue m) in
  match
    queueLoop deadline startQueueIndex
      (drop (index (queue m)) (items (queue m))) m
  with
  | Yield m =>
      requestIdleCallback {| manager := m; idleCallbackId := idleCallbackId em |}
  | Next m _ =>
      {| manager := set_removalObserver ∅ (set_queue makeEmptyQueue m);
         idleCallbackId := idleCallbackId em |}
  end.

(** The callback given to [requestIdleCallback]. *)
Definition onIdle (deadline : Deadline) (em : ElementManager) : ElementManager :=
  flushQueue deadline {| manager := manager em; idleCallbackId := None |}.

(** The scheduler: it runs the pending idle callback, one deadline after
    the other, for as long as one is pending and at most [n] times. *)
Fixpoint idleSlices (n : nat) (deadlines : nat → Deadline)
    (em : ElementManager) : ElementManager :=
  match n with
  | O => em
  | S n =>
      match idleCallbackId em with
      | None => em
      | Some _ =>
          idleSlices n (λ i, deadlines (S i)) (onIdle (deadlines 0%nat) em)
      end
  end.

(** ** Deduper *)

(** [Math.round]: to the nearest integer, halves upwards. *)
Definition Math_round (q : Q) : Z := Qfloor (q + (1 # 2)).

(** [String(n)] of an integer is its decimal numeral, written in full here;
    JavaScript writes an exponent from 1e21 on. *)
Definition hintPositionKey (measurements : HintMeasurements.t) : string :=
  String.concat ","
    [ pretty (Math_round (HintMeasurements.x measurements));
      pretty (Math_round (HintMeasurements.y measurements));
      Align_name (HintMeasurements.align measurements) ].

Definition Deduper_new : Deduper := {| positionMap := ∅; rejected := ∅ |}.

Definition isLowQuality (visibleElement : VisibleElement) : bool :=
  has t.ELEMENT_TYPES_LOW_QUALITY (ElementType_name (type visibleElement)).

Definition Deduper_add (visibleElement : VisibleElement) (deduper : Deduper)
  : Deduper :=
  let rejected :=
    match labels pg (element visibleElement) with
    | Some labels => list_to_set labels ∪ rejected deduper
    | None => rejected deduper
    end in
  let key := hintPositionKey (measurements visibleElement) in
  match positionMap deduper !! key with
  | None =>
      {| positionMap := <[key := [visibleElement]]> (positionMap deduper);
         rejected := rejected |}
  | Some elements =>
      let elements := (elements ++ [visibleElement])%list in
      let bad := List.filter isLowQuality elements in
      let good := List.filter (λ e, negb (isLowQuality e)) elements in
      {| positionMap := <[key := elements]> (positionMap deduper);
         rejected :=
           if (0 <? length bad) && (0 <? length good)
           then list_to_set (element <$> bad) ∪ rejected
           else rejected |}
  end.

Definition Deduper_rejects (deduper : Deduper) (visibleElement : VisibleElement)
  : bool :=
  bool_decide (element visibleElement ∈ rejected deduper).

(** ** Visible elements *)

Definition getElementTypeSelectable (m : Manager) (element : Node)
  : option ElementType :=
  let name := nodeName pg element in
  if bool_decide (name = "A") then
    if instanceof (interface pg element) HTMLAnchorElement
    then Some (getLinkElementType m element) else None
  else if bool_decide
            (name ∈ ["AUDIO"; "BUTTON"; "SELECT"; "TEXTAREA"; "VIDEO"])
  then Some clickable
  else if bool_decide (name = "INPUT") then
    if instanceof (interface pg element) HTMLInputElement
       && bool_decide (inputType pg element ≠ "hidden")
    then Some clickable else None
  else if bool_decide
            (name ∈ ["CANVAS"; "EMBED"; "FRAME"; "IFRAME"; "IMG"; "OBJECT"])
  then Some selectable
  else if (childElementCount pg element =? 0) then Some selectable
  else if hasNonBlankTextChild pg element then Some selectable
  else None.

(** The candidates of a query. Passed candidates and the elements of the
    document come in the program's order. A [Set] or [Map] is walked in
    insertion order, which the manager's finite set and map do not keep:
    of the candidates taken from the manager only which elements they are
    is the program's, their order here is the one of the finite set or
    map. *)
Definition candidates (types : ElementTypes)
    (passedCandidates : option (list Node)) (m : Manager) : list Node :=
  match passedCandidates with
  | Some passedCandidates => passedCandidates
  | None =>
      match types with
      | Selectable => getElementsByTagName pg
      | Types _ =>
          if bailed m then (map_to_list (elements m)).*1
          else stdpp.base.elements (visibleElements m)
      end
  end.

(** The callback of [Array.from(candidates, ...)]. *)
Definition visibleElementOf (types : ElementTypes) (viewports : list Box.t)
    (m : Manager) (element : Node) : option VisibleElement :=
  match
    match types with
    | Selectable => getElementTypeSelectable m element
    | Types _ => elements m !! element
    end
  with
  | None => None
  | Some type =>
      if match types with
         | Selectable => false
         | Types types => negb (bool_decide (type ∈ types))
         end
      then None
      else if bool_decide (type = label)
              && instanceof (interface pg element) HTMLLabelElement
              && bool_decide (control pg element = None)
      then None
      else
        match getMeasurements pg element type viewports with
        | None => None
        | Some measurements =>
            Some {| element := element; type := type;
                    measurements := measurements;
                    hasClickListener :=
                      bool_decide (element ∈ elementsWithClickListeners m) |}
        end
  end.

Definition isSelectable (types : ElementTypes) : bool :=
  match types with Selectable => true | Types _ => false end.

(** What [getVisibleElements] does after its last [await], from
    [const candidates] on, with the manager as it then is: every candidate
    is classified, measured and given to a fresh deduper, and the rejected
    ones are dropped at the end. *)
Definition measureVisibleElements (types : ElementTypes)
    (viewports : list Box.t) (passedCandidates : option (list Node))
    (m : Manager) : list (option VisibleElement) :=
  let maybeResults :=
    visibleElementOf types viewports m <$> candidates types passedCandidates m in
  let deduper :=
    foldl
      (λ deduper result,
         match result with
         | Some visibleElement =>
             if isSelectable types then deduper
             else Deduper_add visibleElement deduper
         | None => deduper
         end)
      Deduper_new maybeResults in
  (λ result,
     match result with
     | Some visibleElement =>
         if Deduper_rejects deduper visibleElement then None
         else Some visibleElement
     | None => None
     end) <$> maybeResults.

(** The two synchronous steps of [getVisibleElements] put together: the
    queue step ([needsFlush] and [flushQueue(infiniteDeadline)]) and the
    measuring step. The waits for the observers ([flushObservers], before
    the queue step in the top window and between the two steps after a
    flush) and the message to [injected.js] are not here: whether a query
    gets to a step, as it does not on a stopped manager in the top window,
    and what is delivered while it waits, is not said by this definition.
    The properties are about one step each: the manager after the queue
    step, and [measureVisibleElements] on the manager as it is when the
    measuring begins. *)
Definition getVisibleElements (types : ElementTypes) (viewports : list Box.t)
    (passedCandidates : option (list Node)) (em : ElementManager)
  : ElementManager * list (option VisibleElement) :=
  let em :=
    if 0 <? length (items (queue (manager em)))
    then flushQueue infiniteDeadline em else em in
  (em, measureVisibleElements types viewports passedCandidates (manager em)).

(** ** Hint geometry

    Coordinates are rationals: the rounding of the program's doubles is
    not modelled. *)

Definition Qlt_bool (a b : Q) : bool := negb (Qle_bool b a).

Definition getXY (box : Box.t) : Q * Q :=
  (Box.x box, (Box.y box + Box.height box / 2)%Q).

Definition pointAt (xy : Q * Q) (align : Align) : Point.t :=
  {| Point.x := xy.1; Point.y := xy.2; Point.align := align |}.

Definition isWithin (point : Point.t) (box : Box.t) : bool :=
  Qle_bool (Box.x box) (Point.x point)
  && Qle_bool (Point.x point)
       (Box.x box + Box.width box * t.MAX_HINT_X_PERCENTAGE_OF_WIDTH)%Q
  && Qle_bool (Box.y box) (Point.y point)
  && Qlt_bool (Point.y point) (Box.y box + Box.height box)%Q.

Definition getBorderAndPaddingPoint (element : Node) (rect visibleBox : Box.t)
  : Point.t :=
  {| Point.x := (Box.left rect + borderAndPaddingLeft pg element)%Q;
     Point.y := (getXY visibleBox).2;
     Point.align :=
       if instanceof (interface pg element) HTMLInputElement
          && (bool_decide (inputType pg element = "file")
              || (bool_decide (inputType pg element = "image")
                  && bool_decide (inputSrc pg element ≠ "")))
       then left else right |}.

Fixpoint firstVisibleImage (viewports : list Box.t) (images : list Node)
  : option (Point.t * Box.t) :=
  match images with
  | [] => None
  | image :: images =>
      let rect := getBoundingClientRect pg image in
      match getVisibleBox pg rect viewports with
      | Some visibleBox =>
          let point := getBorderAndPaddingPoint image rect visibleBox in
          Some
            ({| Point.x := Point.x point; Point.y := Point.y point;
                Point.align :=
                  if Qle_bool t.MIN_HEIGHT_BOX (Box.height rect)
                  then left else right |},
             rect)
      | None => firstVisibleImage viewports images
      end
  end.

Definition getFirstImagePoint (element : Node) (viewports : list Box.t)
  : option (Point.t * Box.t) :=
  firstVisibleImage viewports
    (images pg element ++ (if matchesImage pg element then [element] else []))%list.

(** [array.reduce(f)] without an initial value, on a non-empty array. *)
Definition reduce {A} (f : A → A → A) (first : A) (others : list A) : A :=
  foldl f first others.

Definition getBestNonEmptyTextPoint (element : Node) (elementRect : Box.t)
    (viewports : list Box.t) (isAcceptable : Point.t → bool)
    (preferTextStart : bool) : option Point.t :=
  let align := right in
  let rects :=
    List.filter
      (λ rect,
         Qle_bool t.MIN_SIZE_TEXT_RECT (Box.width rect)
         && Qle_bool t.MIN_SIZE_TEXT_RECT (Box.height rect)
         && isAcceptable (pointAt (getXY rect) align))
      (textRects pg element) in
  match rects with
  | [] => None
  | first :: others =>
      if preferTextStart then
        let leftMostRect :=
          reduce
            (λ a b,
               if Qlt_bool (Box.top b) (Box.top a) then b
               else if Qeq_bool (Box.top b) (Box.top a)
                       && Qlt_bool (Box.left b) (Box.left a)
               then b else a)
            first others in
        Some (pointAt (getXY leftMostRect) align)
      else
        let largestRect :=
          reduce
            (λ a b,
               if Qlt_bool (Box.height a) (Box.height b) then b
               else if Qeq_bool (Box.height b) (Box.height a)
                       && Qlt_bool (Box.width a) (Box.width b)
               then b else a)
            first others in
        let sameLineRects :=
          List.filter
            (λ rect,
               Qlt_bool (Box.top rect) (Box.bottom largestRect)
               && Qlt_bool (Box.top largestRect) (Box.bottom rect))
            rects in
        let leftMostRect :=
          match sameLineRects with
          | [] => largestRect
          | first :: others =>
              reduce
                (λ a b,
                   if Qlt_bool (Box.left b) (Box.left a) then b
                   else if Qeq_bool (Box.left b) (Box.left a)
                           && Qlt_bool (Box.top b) (Box.top a)
                   then b else a)
                first others
          end in
        let isSingleLine := length sameLineRects =? length rects in
        let imagePoint :=
          if isSingleLine
             && Qle_bool (Box.left elementRect + t.MIN_SIZE_ICON)%Q
                  (Box.left leftMostRect)
          then
            match getFirstImagePoint element viewports with
            | Some (point, _) =>
                if Qlt_bool (Point.x point) (Box.left leftMostRect)
                   && isAcceptable point
                then Some point else None
            | None => None
            end
          else None in
        match imagePoint with
        | Some point => Some point
        | None => Some (pointAt (getXY leftMostRect) align)
        end
  end.

Definition getSingleRectPoint (element : Node) (elementType : ElementType)
    (rect visibleBox : Box.t) (viewports : list Box.t) : Point.t :=
  if bool_decide (elementType = scrollable) then
    {| Point.x := (Box.x visibleBox + Box.width visibleBox - 1)%Q;
       Point.y := (getXY visibleBox).2; Point.align := right |}
  else if bool_decide (elementType = textarea)
          || (bool_decide (elementType ≠ selectable)
              && Qle_bool t.MIN_HEIGHT_BOX (Box.height rect))
  then pointAt (getXY visibleBox) left
  else
    let isAcceptable := λ point, isWithin point visibleBox in
    let textPoint :=
      if instanceof (interface pg element) HTMLSelectElement
         || instanceof (interface pg element) HTMLCanvasElement
      then None
      else getBestNonEmptyTextPoint element rect viewports isAcceptable
             (bool_decide (elementType = selectable)) in
    match textPoint with
    | Some textPoint => textPoint
    | None =>
        let imagePoint := getFirstImagePoint element viewports in
        match
          match imagePoint with
          | Some (point, imageRect) =>
              if isAcceptable point
                 || Qlt_bool (Box.height rect) (Box.height imageRect)
              then Some point else None
          | None => None
          end
        with
        | Some point => point
        | None =>
            if instanceof (interface pg element) HTMLInputElement
               && (bool_decide (inputType pg element = "checkbox")
                   || bool_decide (inputType pg element = "radio"))
            then pointAt (getXY visibleBox) right
            else
              match
                if instanceof (interface pg element) HTMLInputElement
                   || instanceof (interface pg element) HTMLSelectElement
                then
                  let borderAndPaddingPoint :=
                    getBorderAndPaddingPoint element rect visibleBox in
                  if isAcceptable borderAndPaddingPoint
                  then Some borderAndPaddingPoint else None
                else None
              with
              | Some point => point
              | None => pointAt (getXY visibleBox) left
              end
        end
    end.

(** ** Hint weight *)

(** [Math.max(...xs)]: [None] is [-Infinity], the maximum of no number. *)
Definition Math_max (xs : list Q) : option Q :=
  foldr (λ x acc, Some (match acc with Some y => Qmax x y | None => x end))
    None xs.

(** [Math.log2] and [Math.log10] at an integer, by their base. *)
Definition Math_log (base : R) (z : Z) : Number :=
  if (z <? 0)%Z then NaN
  else if (z =? 0)%Z then NegativeInfinity
  else Real (ln (IZR z) / ln base).

Definition Math_log2 : Z → Number := Math_log 2.
Definition Math_log10 : Z → Number := Math_log 10.

(** [Math.max(1, n)] *)
Definition Math_max_1 (n : Number) : Number :=
  match n with
  | NaN => NaN
  | NegativeInfinity => Real 1
  | Real r => Real (Rmax 1 r)
  | PositiveInfinity => PositiveInfinity
  end.

Definition hintWeight (elementType : ElementType) (visibleBoxes : list Box.t)
  : Number :=
  match Math_max (Box.width <$> visibleBoxes),
        Math_max (Box.height <$> visibleBoxes) with
  | Some maxWidth, Some maxHeight =>
      let weight := Math_round (Qmin maxWidth maxHeight) in
      let lg :=
        if has t.ELEMENT_TYPES_WORSE (ElementType_name elementType)
        then Math_log10 else Math_log2 in
      Math_max_1 (lg weight)
  | _, _ => NaN
  end.

End Worker.

(** ** The manager's lifetime as a run of events *)

(** [new ElementManager()] on a document whose attributes are [attrs]. *)
Definition newElementManager (attrs : gmap (Node * string) string)
  : ElementManager :=
  {| manager :=
       {| queue := makeEmptyQueue; elements := ∅; visibleElements := ∅;
          visibleFrames := ∅; elementsWithClickListeners := ∅;
          elementsWithScrollbars := ∅; bailed := false;
          intersectionObserver := ∅; frameIntersectionObserver := ∅;
          removalObserver := ∅; attributes := attrs; trace := [] |};
     idleCallbackId := None |}.

(** What can happen to a started manager: the callbacks of its observers
    and listeners, the idle callback, a query and [stop]. A mutation comes
    with whether [this.observerProbeCallback] is set when it is delivered,
    that is whether [flushObservers] is waiting for the probe; an
    intersection entry is its target with [isIntersecting]. A query is
    the queue step of [getVisibleElements], the only one that changes the
    manager: what is delivered while the query waits for the observers is
    an event of its own. *)
Inductive Event :=
| Mutation (probing : bool) (records : list Record_)
| Removal (records : list Record_)
| ClickableElement (target : Node)
| UnclickableElement (target : Node)
| OverflowChange (target : Node)
| Intersection (entries : list (Node * bool))
| FrameIntersection (entries : list (Node * bool))
| Idle (deadline : Deadline)
| Query (types : ElementTypes) (viewports : list Box.t)
    (passedCandidates : option (list Node))
| Stop.

Definition observeRemovals (records : list Record_) (em : ElementManager)
  : ElementManager :=
  {| manager :=
       set_removalObserver
         (list_to_set (concat (removedNodes <$> records))
          ∪ removalObserver (manager em)) (manager em);
     idleCallbackId := idleCallbackId em |}.

Section Lifetime.

Variable pg : Page.

(** [this.probe], the element that [flushObservers] inserts to learn that
    the observers have run. *)
Variable probe : Node.

(** The loops of [onMutation] over the added nodes of a record and over
    the records, on [(probed, shouldQueue)]; each stops once both are
    set. *)
Fixpoint probeAddedNodes (nodes : list Node) (flags : bool * bool)
  : bool * bool :=
  match nodes with
  | [] => flags
  | node :: nodes =>
      let '(probed, shouldQueue) := flags in
      let '(probed, shouldQueue) :=
        if bool_decide (node = probe) then (true, shouldQueue)
        else (probed, true) in
      if probed && shouldQueue then (probed, shouldQueue)
      else probeAddedNodes nodes (probed, shouldQueue)
  end.

Fixpoint probeRecords (records : list Record_) (flags : bool * bool)
  : bool * bool :=
  match records with
  | [] => flags
  | record :: records =>
      let '(probed, shouldQueue) := probeAddedNodes (addedNodes record) flags in
      let shouldQueue :=
        if (0 <? length (removedNodes record))
           || bool_decide (attributeName record ≠ None)
        then true else shouldQueue in
      if probed && shouldQueue then (probed, shouldQueue)
      else probeRecords records (probed, shouldQueue)
  end.

(** [onMutation]; what [this.observerProbeCallback()] does is left to
    [flushObservers]. *)
Definition onMutation (probing : bool) (records : list Record_)
    (em : ElementManager) : ElementManager :=
  let '(probed, shouldQueue) :=
    if probing then probeRecords records (false, false) else (false, true) in
  if shouldQueue then observeRemovals records (queueRecords records false em)
  else em.

Definition onRemoval (records : list Record_) (em : ElementManager)
  : ElementManager :=
  observeRemovals records (queueRecords records true em).

Definition onIntersection (entries : list (Node * bool)) (em : ElementManager)
  : ElementManager :=
  {| manager :=
       set_visibleElements
         (foldl
            (λ (visible : gset Node) (entry : Node * bool),
               if bool_decide (entry.1 = probe) then visible
               else if entry.2 then {[entry.1]} ∪ visible
               else visible ∖ {[entry.1]})
            (visibleElements (manager em)) entries)
         (manager em);
     idleCallbackId := idleCallbackId em |}.

Definition onFrameIntersection (entries : list (Node * bool))
    (em : ElementManager) : ElementManager :=
  {| manager :=
       set_visibleFrames
         (foldl
            (λ (visible : gset Node) (entry : Node * bool),
               if isFrame pg entry.1 then
                 if entry.2 then {[entry.1]} ∪ visible
                 else visible ∖ {[entry.1]}
               else visible)
            (visibleFrames (manager em)) entries)
         (manager em);
     idleCallbackId := idleCallbackId em |}.

Definition handle (event : Event) (em : ElementManager) : ElementManager :=
  match event with
  | Mutation probing records => onMutation probing records em
  | Removal records => onRemoval records em
  | ClickableElement target => queueItem (ClickableChanged target true) em
  | UnclickableElement target => queueItem (ClickableChanged target false) em
  | OverflowChange target => queueItem (OverflowChanged target) em
  | Intersection entries => onIntersection entries em
  | FrameIntersection entries => onFrameIntersection entries em
  | Idle deadline =>
      match idleCallbackId em with
      | Some _ => onIdle pg deadline em
      | None => em
      end
  | Query types viewports passedCandidates =>
      (getVisibleElements pg types viewports passedCandidates em).1
  | Stop => stop em
  end.

Definition run (events : list Event) (em : ElementManager) : ElementManager :=
  foldl (λ em event, handle event em) em events.

End Lifetime.

(** ** An example document

    [<html>] 0, [<body>] 1, [<a href="https://example.org/">] 2,
    [<input type="radio">] 3 with its [<label>] 4, [<div onclick>] 5,
    [<button>] 6, [<progress onclick>] 7 with its [<label>] 8; every
    other node is text. The radio button is 20 by 20 at (100, 100); the
    progress bar and its label are measured at the same point. *)

Definition exampleAttributes : gmap (Node * string) string :=
  list_to_map
    [ ((2, "href"), "https://example.org/");
      ((3, "type"), "radio");
      ((5, "onclick"), "go()");
      ((7, "onclick"), "go()") ].

Definition exampleBox (x y width height : Q) : Box.t :=
  {| Box.x := x; Box.y := y; Box.width := width; Box.height := height |}.

Definition exampleMeasurements (x y : Q) (align : Align) : HintMeasurements.t :=
  {| HintMeasurements.x := x; HintMeasurements.y := y;
     HintMeasurements.align := align; HintMeasurements.maxX := (x + 20)%Q;
     HintMeasurements.weight := Real 1 |}.

Definition examplePage : Page :=
  {| BROWSER := Some chrome;
     EVENT_ATTRIBUTE := "data-event";
     CLICKABLE_EVENT := "clickable";
     UNCLICKABLE_EVENT := "unclickable";
     CLICKABLE_EVENT_PROPS := ["onclick"; "onmousedown"];
     interface := λ n,
       match n with
       | 2 => HTMLAnchorElement
       | 3 => HTMLInputElement
       | 4 | 8 => HTMLLabelElement
       | 0 | 1 | 5 | 6 | 7 => HTMLElement
       | _ => CharacterData
       end;
     nodeName := λ n,
       match n with
       | 0 => "HTML" | 1 => "BODY" | 2 => "A" | 3 => "INPUT"
       | 4 | 8 => "LABEL" | 5 => "DIV" | 6 => "BUTTON" | 7 => "PROGRESS"
       | _ => "#text"
       end;
     contentEditable := λ n, if n <? 9 then Some "inherit" else None;
     protocol := λ n, match n with 2 => "https:" | _ => "" end;
     inputType := λ n, match n with 3 => "radio" | _ => "" end;
     functionProps := λ _, [];
     querySelectorAll := λ n,
       match n with
       | 0 => [1; 2; 3; 4; 5; 6; 7; 8]
       | 1 => [2; 3; 4; 5; 6; 7; 8]
       | _ => []
       end;
     isScrollable := λ n, match n with 0 => true | _ => false end;
     documentElement := Some 0;
     body := Some 1;
     scrollingElement := Some 0;
     isTopWindow := true;
     getElementsByTagName := [0; 1; 2; 3; 4; 5; 6; 7; 8];
     labels := λ n,
       match n with
       | 3 => Some [4] | 7 => Some [8] | 6 => Some [] | _ => None
       end;
     control := λ n, match n with 4 => Some 3 | 8 => Some 7 | _ => None end;
     getMeasurements := λ n _ _,
       match n with
       | 2 => Some (exampleMeasurements 10 10 right)
       | 3 => Some (exampleMeasurements 100 110 right)
       | 4 => Some (exampleMeasurements 125 110 right)
       | 5 | 6 => Some (exampleMeasurements 10 50 left)
       | 7 | 8 => Some (exampleMeasurements 10 80 left)
       | _ => None
       end;
     getVisibleBox := λ rect _, Some rect;
     textRects := λ n,
       match n with 2 => [exampleBox 10 5 60 10] | _ => [] end;
     images := λ _, [];
     matchesImage := λ _, false;
     getBoundingClientRect := λ n,
       match n with
       | 3 => exampleBox 100 100 20 20
       | _ => exampleBox 0 0 0 0
       end;
     borderAndPaddingLeft := λ _, 2%Q;
     inputSrc := λ _, "";
     childElementCount := λ n, match n with 0 => 1 | 1 => 7 | _ => 0 end;
     hasNonBlankTextChild := λ n, match n with 2 | 4 | 8 => true | _ => false end
  |}.

Definition exampleManager : Manager :=
  manager (newElementManager exampleAttributes).

(** The visible elements of the example document used below: the
    [<div onclick>] and the [<button>] at one point, the [<progress
    onclick>] and its [<label>] at another. *)
Definition exampleVisible (e : Node) (ty : ElementType) (x y : Q)
  : VisibleElement :=
  {| element := e; type := ty; measurements := exampleMeasurements x y left;
     hasClickListener := false |}.

Definition exampleDiv : VisibleElement := exampleVisible 5 clickable_event 10 50.
Definition exampleButton : VisibleElement := exampleVisible 6 clickable 10 50.

(** The example document served as XML: there [nodeName] keeps the case of
    the source, so that the link is an [HTMLAnchorElement] named ["a"]. *)
Definition exampleXmlPage : Page :=
  {| BROWSER := BROWSER examplePage;
     EVENT_ATTRIBUTE := EVENT_ATTRIBUTE examplePage;
     CLICKABLE_EVENT := CLICKABLE_EVENT examplePage;
     UNCLICKABLE_EVENT := UNCLICKABLE_EVENT examplePage;
     CLICKABLE_EVENT_PROPS := CLICKABLE_EVENT_PROPS examplePage;
     interface := interface examplePage;
     nodeName := λ n,
       match n with
       | 0 => "html" | 1 => "body" | 2 => "a" | 3 => "input"
       | 4 | 8 => "label" | 5 => "div" | 6 => "button" | 7 => "progress"
       | _ => "#text"
       end;
     contentEditable := contentEditable examplePage;
     protocol := protocol examplePage;
     inputType := inputType examplePage;
     functionProps := functionProps examplePage;
     querySelectorAll := querySelectorAll examplePage;
     isScrollable := isScrollable examplePage;
     documentElement := documentElement examplePage;
     body := body examplePage;
     scrollingElement := scrollingElement examplePage;
     isTopWindow := isTopWindow examplePage;
     getElementsByTagName := getElementsByTagName examplePage;
     labels := labels examplePage;
     control := control examplePage;
     getMeasurements := getMeasurements examplePage;
     getVisibleBox := getVisibleBox examplePage;
     textRects := textRects examplePage;
     images := images examplePage;
     matchesImage := matchesImage examplePage;
     getBoundingClientRect := getBoundingClientRect examplePage;
     borderAndPaddingLeft := borderAndPaddingLeft examplePage;
     inputSrc := inputSrc examplePage;
     childElementCount := childElementCount examplePage;
     hasNonBlankTextChild := hasNonBlankTextChild examplePage
  |}.

(** The example document with [class="icon"] on its radio button, which
    the image selector then matches. *)
Definition exampleIconPage : Page :=
  {| BROWSER := BROWSER examplePage;
     EVENT_ATTRIBUTE := EVENT_ATTRIBUTE examplePage;
     CLICKABLE_EVENT := CLICKABLE_EVENT examplePage;
     UNCLICKABLE_EVENT := UNCLICKABLE_EVENT examplePage;
     CLICKABLE_EVENT_PROPS := CLICKABLE_EVENT_PROPS examplePage;
     interface := interface examplePage;
     nodeName := nodeName examplePage;
     contentEditable := contentEditable examplePage;
     protocol := protocol examplePage;
     inputType := inputType examplePage;
     functionProps := functionProps examplePage;
     querySelectorAll := querySelectorAll examplePage;
     isScrollable := isScrollable examplePage;
     documentElement := documentElement examplePage;
     body := body examplePage;
     scrollingElement := scrollingElement examplePage;
     isTopWindow := isTopWindow examplePage;
     getElementsByTagName := getElementsByTagName examplePage;
     labels := labels examplePage;
     control := control examplePage;
     getMeasurements := getMeasurements examplePage;
     getVisibleBox := getVisibleBox examplePage;
     textRects := textRects examplePage;
     images := images examplePage;
     matchesImage := λ n, match n with 3 => true | _ => false end;
     getBoundingClientRect := getBoundingClientRect examplePage;
     borderAndPaddingLeft := borderAndPaddingLeft examplePage;
     inputSrc := inputSrc examplePage;
     childElementCount := childElementCount examplePage;
     hasNonBlankTextChild := hasNonBlankTextChild examplePage
  |}.

(** ** Words of the specification *)

(** The allowed link protocols, as the specification lists them. *)
Definition allowedProtocols (browser : option Browser) : list string :=
  ["http:"; "https:"; "ftp:"; "chrome-extension:"; "moz-extension:"]
  ++ (if decide (browser = Some chrome) then ["file:"] else []).

(** An anchor that may be opened as a link. *)
Definition linkable (pg : Page) (m : Manager) (e : Node) : Prop :=
  ∃ href, getAttribute m e "href" = Some href ∧ href ≠ "" ∧ href ≠ "#"
          ∧ protocol pg e ∈ allowedProtocols (BROWSER pg).

(** A [contentEditable] state that is neither ["inherit"] nor ["false"]. *)
Definition editable (pg : Page) (e : Node) : Prop :=
  ∃ v, contentEditable pg e = Some v ∧ v ≠ "inherit" ∧ v ≠ "false".

(** The document's root scrolling element in the top-level window. *)
Definition rootScroller (pg : Page) (e : Node) : Prop :=
  scrollingElement pg = Some e ∧ isTopWindow pg = true.

(** The labels associated with an element, none where [element.labels]
    is not a [NodeList]. *)
Definition labelsOf (pg : Page) (e : Node) : list Node :=
  match labels pg e with Some ls => ls | None => [] end.

(** [M] is the maximum of [f] over the boxes. *)
Definition isMaximum (f : Box.t → Q) (boxes : list Box.t) (M : Q) : Prop :=
  (∃ b, b ∈ boxes ∧ f b = M) ∧ ∀ b, b ∈ boxes → (f b <= M)%Q.

(** The categories that should rank lower, and the base of their
    logarithm. *)
Definition worse (ty : ElementType) : bool :=
  bool_decide (ty = scrollable ∨ ty = selectable).

Definition logarithmBase (ty : ElementType) : R :=
  if worse ty then 10%R else 2%R.

(** [max(1, lg(size))] for a size that is a natural number; the logarithm
    of 0 is minus infinity, below 1. *)
Definition weightOf (ty : ElementType) (size : Z) : R :=
  if (size =? 0)%Z then 1%R
  else Rmax 1 (ln (IZR size) / ln (logarithmBase ty)).

(** ** Hit testing, line-wrapped elements and frames *)

(** What the browser answers about what is painted where:
    [document.elementFromPoint(x, y)], [a.contains(b)] and whether a frame
    has a [contentWindow]. *)
Record Rendering := {
  elementFromPoint : Q → Q → option Node;
  contains : Node → Node → bool;
  hasContentWindow : Node → bool;
}.

(** [Math.min(...xs)]: [None] is [Infinity], the minimum of no number. *)
Definition Math_min (xs : list Q) : option Q :=
  foldr (λ x acc, Some (match acc with Some y => Qmin x y | None => x end))
    None xs.

Section Rendered.

Variable pg : Page.
Variable rendering : Rendering.

Definition getNonCoveredPoint (element : Node) (x y maxX : Q)
  : option (Q * Q) :=
  match elementFromPoint rendering x y with
  | None => None
  | Some elementAtPoint =>
      if contains rendering element elementAtPoint then Some (x, y)
      else
        let rect := getBoundingClientRect pg elementAtPoint in
        if Qlt_bool x (Box.left rect) || Qle_bool (Box.right rect) x
           || Qlt_bool y (Box.top rect) || Qle_bool (Box.bottom rect) y
        then Some (x, y)
        else
          let newX := inject_Z (Math_round (Box.right rect + 1)) in
          if Qlt_bool x newX && Qle_bool newX maxX then
            match elementFromPoint rendering newX y with
            | Some elementAtPoint2 =>
                if contains rendering element elementAtPoint2
                then Some (newX, y) else None
            | None => None
            end
          else None
  end.

(** The point of an element with several rects. Without a visible box the
    coordinates are not finite: that is [None]. *)
Definition getMultiRectPoint (element : Node) (visibleBoxes : list Box.t)
    (viewports : list Box.t) : option Point.t :=
  let isAcceptable := λ point, existsb (isWithin point) visibleBoxes in
  match
    getBestNonEmptyTextPoint pg element (getBoundingClientRect pg element)
      viewports isAcceptable true
  with
  | Some textPoint => Some textPoint
  | None =>
      match Math_min (Box.y <$> visibleBoxes),
            Math_max (Box.bottom <$> visibleBoxes),
            Math_min (Box.x <$> visibleBoxes) with
      | Some minY, Some maxY, Some x =>
          Some {| Point.x := x; Point.y := ((minY + maxY) / 2)%Q;
                  Point.align := right |}
      | _, _, _ => None
      end
  end.

(** [getVisibleFrames]. The program walks the [Set] in insertion order;
    here the order is the one of the finite set, so that only which frames
    are returned is the program's. *)
Definition getVisibleFrames (viewports : list Box.t) (m : Manager)
  : list Node :=
  omap
    (λ element,
       if negb (hasContentWindow rendering element) then None
       else
         match
           getVisibleBox pg (getBoundingClientRect pg element) viewports
         with
         | Some box =>
             if Qlt_bool t.MIN_SIZE_FRAME (Box.width box)
                && Qlt_bool t.MIN_SIZE_FRAME (Box.height box)
             then Some element else None
         | None => None
         end)
    (stdpp.base.elements (visibleFrames m)).

End Rendered.

(** The rendering of the example document: the radio button is painted
    where its box is, anything else shows the [<body>]; the link contains
    only itself. *)
Definition exampleRendering : Rendering :=
  {| elementFromPoint := λ x y,
       if Qle_bool 100 x && Qlt_bool x 120 && Qle_bool 100 y && Qlt_bool y 120
       then Some 3 else Some 1;
     contains := λ a b, bool_decide (a = b);
     hasContentWindow := λ _, true |}.

(** The example document with an [<iframe>] 9 after the [<label>] 8,
    300 by 150 at (0, 200). *)
Definition exampleFramePage : Page :=
  {| BROWSER := BROWSER examplePage;
     EVENT_ATTRIBUTE := EVENT_ATTRIBUTE examplePage;
     CLICKABLE_EVENT := CLICKABLE_EVENT examplePage;
     UNCLICKABLE_EVENT := UNCLICKABLE_EVENT examplePage;
     CLICKABLE_EVENT_PROPS := CLICKABLE_EVENT_PROPS examplePage;
     interface := λ n,
       if n =? 9 then HTMLIFrameElement else interface examplePage n;
     nodeName := λ n, if n =? 9 then "IFRAME" else nodeName examplePage n;
     contentEditable := λ n,
       if n =? 9 then Some "inherit" else contentEditable examplePage n;
     protocol := protocol examplePage;
     inputType := inputType examplePage;
     functionProps := functionProps examplePage;
     querySelectorAll := λ n,
       match n with
       | 0 | 1 => (querySelectorAll examplePage n ++ [9])%list
       | _ => []
       end;
     isScrollable := isScrollable examplePage;
     documentElement := documentElement examplePage;
     body := body examplePage;
     scrollingElement := scrollingElement examplePage;
     isTopWindow := isTopWindow examplePage;
     getElementsByTagName := (getElementsByTagName examplePage ++ [9])%list;
     labels := labels examplePage;
     control := control examplePage;
     getMeasurements := getMeasurements examplePage;
     getVisibleBox := getVisibleBox examplePage;
     textRects := textRects examplePage;
     images := images examplePage;
     matchesImage := matchesImage examplePage;
     getBoundingClientRect := λ n,
       if n =? 9 then exampleBox 0 200 300 150
       else getBoundingClientRect examplePage n;
     borderAndPaddingLeft := borderAndPaddingLeft examplePage;
     inputSrc := inputSrc examplePage;
     childElementCount := childElementCount examplePage;
     hasNonBlankTextChild := hasNonBlankTextChild examplePage
  |}.

(** The mutation record of the example document's [<body>] being inserted
    with all that is in it, and the manager that has processed it. *)
Definition exampleRecord : Record_ :=
  {| addedNodes := [1]; removedNodes := []; attributeName := None;
     target := 0 |}.

Definition exampleProbe : Node := 99.

Definition exampleStarted : ElementManager :=
  run examplePage exampleProbe
    [Mutation false [exampleRecord]; Idle infiniteDeadline]
    (newElementManager exampleAttributes).

(** The link of the example document as a query returns it. *)
Definition exampleLink : VisibleElement :=
  {| element := 2; type := link;
     measurements := exampleMeasurements 10 10 right;
     hasClickListener := false |}.

(** ** Further words for the properties below *)

(** [isIntersecting] of the last entry about [e], if there is one. *)
Definition lastEntry (e : Node) (entries : list (Node * bool)) : option bool :=
  snd <$> last (List.filter (λ entry, bool_decide (entry.1 = e)) entries).

(** Adding the measured elements of a query to a deduper, in order. *)
Definition Deduper_addAll (pg : Page) (visibleElements : list VisibleElement)
    (deduper : Deduper) : Deduper :=
  foldl (λ deduper visibleElement, Deduper_add pg visibleElement deduper)
    deduper visibleElements.

(** A text rect that [getBestNonEmptyTextPoint] keeps. *)
Definition acceptableRect (isAcceptable : Point.t → bool) (rect : Box.t) : bool :=
  Qle_bool t.MIN_SIZE_TEXT_RECT (Box.width rect)
  && Qle_bool t.MIN_SIZE_TEXT_RECT (Box.height rect)
  && isAcceptable (pointAt (getXY rect) right).

(** The rect a point covers: [left <= x < right] and [top <= y < bottom]. *)
Definition covers (rect : Box.t) (x y : Q) : Prop :=
  (Box.left rect <= x)%Q ∧ (x < Box.right rect)%Q
  ∧ (Box.top rect <= y)%Q ∧ (y < Box.bottom rect)%Q.

(** What holds of the state a loop of [flushQueue] ends in, however it
    ends. *)
Definition ends {A} (P : A → Prop) (o : Outcome A) : Prop :=
  match o with Yield a => P a | Next a _ => P a end.

(** A property of the manager, of a loop state that carries the item. *)
Definition ofManager (P : Manager → Prop) : RecordsItem * Manager → Prop :=
  λ s, P s.2.

(** A loop that falls through with the infinite deadline still in hand. *)
Definition completes {A} (o : Outcome A) : Prop :=
  ∃ a, o = Next a infiniteDeadline.

(** Work left in the queue has an idle callback pending. *)
Definition scheduled (em : ElementManager) : Prop :=
  items (queue (manager em)) ≠ [] → idleCallbackId em ≠ None.

(** The intersection observer watches the registry, of at most
    [MAX_INTERSECTION_OBSERVED_ELEMENTS] elements, until the manager has
    bailed, and nothing after. *)
Definition tracked (m : Manager) : Prop :=
  if bailed m then intersectionObserver m = ∅
  else intersectionObserver m = dom (elements m)
       ∧ (Z.of_nat (size (elements m))
          <= t.MAX_INTERSECTION_OBSERVED_ELEMENTS)%Z.

(** Only frames are visible frames or watched by the frame observer. *)
Definition framesOnly (pg : Page) (m : Manager) : Prop :=
  ∀ e, e ∈ visibleFrames m ∨ e ∈ frameIntersectionObserver m →
       isFrame pg e = true.



(** A string without a comma. *)
Fixpoint commaFree (s : string) : Prop :=
  match s with
  | EmptyString => True
  | String c s => String c "" ≠ "," ∧ commaFree s
  end.

(** The elements of a list at a given position key. *)
Definition atKey (k : string) (l : list VisibleElement) : list VisibleElement :=
  List.filter (λ x, bool_decide (hintPositionKey (measurements x) = k)) l.

(** What a deduper holds after the elements of [l] were added to a fresh
    one: the elements by position key, and as rejected the labels of an
    element of [l] and the low-quality elements of [l] that share their
    position key with one that is not. *)
Definition dedupes (pg : Page) (l : list VisibleElement) (d : Deduper) : Prop :=
  (∀ k, positionMap d !! k
        = match atKey k l with [] => None | group => Some group end)
  ∧ ∀ e, e ∈ rejected d ↔
      (∃ x, x ∈ l ∧ e ∈ labelsOf pg (element x))
      ∨ (∃ x y, x ∈ l ∧ y ∈ l ∧ e = element x
                ∧ isLowQuality x = true ∧ isLowQuality y = false
                ∧ hintPositionKey (measurements x)
                  = hintPositionKey (measurements y)).

(** The candidates of a query that were measured. *)
Definition successes (results : list (option VisibleElement))
  : list VisibleElement :=
  omap (λ result : option VisibleElement, result) results.

(** What a query measures of each candidate, before deduplication. *)
Definition measured (pg : Page) (types : ElementTypes) (viewports : list Box.t)
    (passedCandidates : option (list Node)) (m : Manager)
  : list (option VisibleElement) :=
  visibleElementOf pg types viewports m
    <$> candidates pg types passedCandidates m.

(** [a] comes before [b] when read from the top, then from the left. *)
Definition readsBefore (a b : Box.t) : Prop :=
  (Box.top a < Box.top b)%Q
  ∨ ((Box.top a == Box.top b)%Q ∧ (Box.left a <= Box.left b)%Q).

(** [a] is at least as far left as [b], the upper one on a tie. *)
Definition leftOf (a b : Box.t) : Prop :=
  (Box.left a < Box.left b)%Q
  ∨ ((Box.left a == Box.left b)%Q ∧ (Box.top a <= Box.top b)%Q).

(** [a] is at least as tall as [b], the wider one on a tie. *)
Definition outranks (a b : Box.t) : Prop :=
  (Box.height b < Box.height a)%Q
  ∨ ((Box.height a == Box.height b)%Q ∧ (Box.width b <= Box.width a)%Q).

(** [rect] shares a line with [largest]: their vertical extents overlap. *)
Definition onLineOf (largest rect : Box.t) : Prop :=
  (Box.top rect < Box.bottom largest)%Q ∧ (Box.top largest < Box.bottom rect)%Q.

(** ** Words for the queue across idle callbacks *)

(** The manager with other items in its queue. *)
Definition withItems (l : list QueueItem) (m : Manager) : Manager :=
  set_queue (set_items l (queue m)) m.

(** The queue as the loops below the one over the items see it. *)
Definition sameQueue (m m' : Manager) : Prop :=
  items (queue m') = items (queue m) ∧ index (queue m') = index (queue m).

(** [f] applied to the manager a loop ends with. *)
Definition onOutcome (f : Manager → Manager)
    (o : Outcome (RecordsItem * Manager)) : Outcome (RecordsItem * Manager) :=
  match o with
  | Yield (item, m) => Yield (item, f m)
  | Next (item, m) d => Next (item, f m) d
  end.

(** The states of a loop that are alike but for the cursors [f] forgets. *)
Definition alike (f : RecordsItem → RecordsItem)
    (s s' : RecordsItem * Manager) : Prop :=
  f s'.1 = f s.1 ∧ sameQueue s.2 s'.2.

(** [o] is how a loop ended that was entered at [s], and [again] is that
    loop taken up with the infinite deadline at the cursors of a state:
    taken up again where it yielded, the loop ends as it would have from
    [s]; and where it fell through, so it does from [s]. *)
Definition resumes {A} (same : A → A → Prop) (paused done : A → Prop)
    (again : A → Outcome A) (s : A) (o : Outcome A) : Prop :=
  match o with
  | Yield s' => same s s' ∧ paused s' ∧ again s' = again s
  | Next s' _ => same s s' ∧ done s' ∧ again s = Next s' infiniteDeadline
  end.

(** An item without the cursors that the loop over the added nodes moves,
    and likewise for the loop over the removed nodes, for the work on one
    record and for the loop over the records. *)
Definition upToAdded (item : RecordsItem) : RecordsItem :=
  set_addedNodeIndex 0 (resetChildren item).

Definition upToRemoved (item : RecordsItem) : RecordsItem :=
  set_removedNodeIndex 0 (resetChildren item).

Definition upToRecord (item : RecordsItem) : RecordsItem :=
  set_removedNodeIndex 0 (set_addedNodeIndex 0 (resetChildren item)).

Definition upToRecords (item : RecordsItem) : RecordsItem :=
  set_recordIndex 0 (upToRecord item).

(** The example document's [<body>] inserted and not yet processed, and a
    deadline that has always run out. *)
Definition exampleQueued : ElementManager :=
  run examplePage exampleProbe [Mutation false [exampleRecord]]
    (newElementManager exampleAttributes).

Definition exampleExpired : Deadline := λ _, Finite 0.

(** What holds of the state a loop yields in, and of the one it falls
    through with. *)
Definition lands {A} (P Q : A → Prop) (o : Outcome A) : Prop :=
  match o with Yield a => P a | Next a _ => Q a end.

(** The work left in the queue, in steps of the loops of [flushQueue]: a
    node that is not begun counts for the update of the registry, for each
    of its descendants and for the step to the next node; a node whose
    descendants are listed for those still to walk and the step to the
    next node; and each record and each item for one step more. *)
Definition nodeWork (pg : Page) (element : Node) : nat :=
  2 + length (querySelectorAll pg element).

Definition headWork (pg : Page) (item : RecordsItem) (element : Node) : nat :=
  match children item with
  | Some c => 1 + (length c - childIndex item)
  | None => nodeWork pg element
  end.

Definition nodesWork (pg : Page) (item : RecordsItem) (nodes : list Node)
  : nat :=
  match nodes with
  | [] => 0
  | element :: nodes =>
      headWork pg item element + sum_list (nodeWork pg <$> nodes)
  end.

(** The nodes of a record that the loops go through. *)
Definition nodesOf (removalsOnly : bool) (record : Record_) : list Node :=
  (if removalsOnly then [] else addedNodes record) ++ removedNodes record.

(** The nodes of the record the item is at, from its cursors on. *)
Definition nodesNow (record : Record_) (item : RecordsItem) : list Node :=
  (if removalsOnly item then []
   else drop (addedNodeIndex item) (addedNodes record))
  ++ drop (removedNodeIndex item) (removedNodes record).

Definition nodesLeft (item : RecordsItem) : list Node :=
  match drop (recordIndex item) (records item) with
  | [] => []
  | record :: later =>
      nodesNow record item ++ concat (nodesOf (removalsOnly item) <$> later)
  end.

Definition recordsWork (pg : Page) (item : RecordsItem) : nat :=
  length (drop (recordIndex item) (records item))
  + nodesWork pg item (nodesLeft item).

Definition itemWork (pg : Page) (item : QueueItem) : nat :=
  match item with
  | Records item => 1 + recordsWork pg item
  | ClickableChanged _ _ | OverflowChanged _ => 1
  end.

Definition remainingWork (pg : Page) (m : Manager) : nat :=
  sum_list (itemWork pg <$> drop (index (queue m)) (items (queue m))).

(** The latest [addOrRemoveElement] call for [e] in a trace, which has
    the latest call first. *)
Definition latestCall (e : Node) (tr : list (MutationType * Node))
  : option MutationType :=
  fst <$> List.find (λ call, bool_decide (call.2 = e)) tr.

(** An element whose latest call was a removal has no entry in the
    registry and no mark in the queue, and a frame has no entry. *)
Definition unregistered (pg : Page) (m : Manager) : Prop :=
  (∀ e, latestCall e (trace m) = Some removed →
        elements m !! e = None ∧ e ∉ addedElements (queue m))
  ∧ (∀ e, isFrame pg e = true → elements m !! e = None).

(** The [<button>] of the example document inserted and removed in one
    batch; inserted again after that; and changed after that. *)
Definition exampleInserted : Record_ :=
  {| addedNodes := [6]; removedNodes := []; attributeName := None;
     target := 1 |}.

Definition exampleTakenOut : Record_ :=
  {| addedNodes := []; removedNodes := [6]; attributeName := None;
     target := 1 |}.

Definition exampleRestyled : Record_ :=
  {| addedNodes := []; removedNodes := []; attributeName := Some "class";
     target := 6 |}.

Definition exampleDrained (records : list Record_) : Manager :=
  manager
    (run examplePage exampleProbe
       [Mutation false records; Idle infiniteDeadline]
       (newElementManager exampleAttributes)).



(** * Properties *)

Section Classifier.

Variable pg : Page.

Lemma PROTOCOLS_LINK_allowed (p : string) :
  p ∈ t.PROTOCOLS_LINK (BROWSER pg) ↔ p ∈ allowedProtocols (BROWSER pg).
Proof.
  unfold t.PROTOCOLS_LINK, allowedProtocols.
  rewrite elem_of_list_to_set.
  destruct (decide (BROWSER pg = Some chrome)); reflexivity.
Qed.

Lemma getLinkElementType_link (m : Manager) (e : Node) :
  getLinkElementType pg m e = link ↔ linkable pg m e.
Proof.
  unfold getLinkElementType, linkable, has.
  destruct (getAttribute m e "href") as [href|] eqn:Hhref.
  - repeat case_bool_decide; simpl; split.
    + intros _. exists href. rewrite <- PROTOCOLS_LINK_allowed. auto.
    + auto.
    + discriminate.
    + intros (h & [= <-] & _ & _ & Hp).
      apply PROTOCOLS_LINK_allowed in Hp. contradiction.
    + discriminate.
    + intros (h & [= <-] & _ & Hne & _). contradiction.
    + discriminate.
    + intros (h & [= <-] & _ & Hne & _). contradiction.
    + discriminate.
    + intros (h & [= <-] & Hne & _). contradiction.
    + discriminate.
    + intros (h & [= <-] & Hne & _). contradiction.
    + discriminate.
    + intros (h & [= <-] & Hne & _). contradiction.
    + discriminate.
    + intros (h & [= <-] & Hne & _). contradiction.
  - split; [discriminate | intros (h & [=] & _)].
Qed.

Lemma getLinkElementType_cases (m : Manager) (e : Node) :
  getLinkElementType pg m e = link ∨ getLinkElementType pg m e = clickable.
Proof.
  unfold getLinkElementType.
  destruct (getAttribute m e "href"); [|auto].
  destruct (_ && _); auto.
Qed.

(** C6, as the code has it. An anchor element whose [nodeName] is ["A"],
    the name the classifier dispatches on, is classified [link] exactly
    when its [href] attribute is a non-empty string other than ["#"] and
    its protocol is one of the allowed ones ([file:] only on the Chrome
    build); every other such anchor element is classified [clickable]. *)
Theorem anchor_is_link_iff_linkable (m : Manager) (e : Node) :
  nodeName pg e = "A" →
  interface pg e = HTMLAnchorElement →
  (getElementType pg m e = Some link ↔ linkable pg m e)
  ∧ (¬ linkable pg m e → getElementType pg m e = Some clickable).
Proof.
  intros Hname Hiface.
  assert (Hty : getElementType pg m e = Some (getLinkElementType pg m e)).
  { unfold getElementType. rewrite Hname, Hiface. reflexivity. }
  rewrite Hty. split.
  - rewrite <- getLinkElementType_link. split; congruence.
  - intros Hno. rewrite <- getLinkElementType_link in Hno.
    destruct (getLinkElementType_cases m e); congruence.
Qed.

Lemma editable_decide (e : Node) :
  match contentEditable pg e with
  | Some v => negb (has t.VALUES_NON_CONTENTEDITABLE v)
  | None => false
  end = true ↔ editable pg e.
Proof.
  unfold editable, has, t.VALUES_NON_CONTENTEDITABLE.
  destruct (contentEditable pg e) as [v|].
  - rewrite negb_true_iff, bool_decide_eq_false. split.
    + intros Hv. exists v. split; [reflexivity|].
      split; intros ->; apply Hv; set_solver.
    + intros (v' & [= <-] & H1 & H2).
      rewrite elem_of_list_to_set, !elem_of_cons, elem_of_nil. tauto.
  - split; [discriminate | intros (v & [=] & _)].
Qed.

Lemma root_element_type (m : Manager) (e : Node) :
  (documentElement pg = Some e ∨ body pg = Some e) →
  (nodeName pg e = "HTML" ∨ nodeName pg e = "BODY") →
  getElementType pg m e =
    if match contentEditable pg e with
       | Some v => negb (has t.VALUES_NON_CONTENTEDITABLE v)
       | None => false
       end
    then Some textarea
    else if bool_decide (e ∈ elementsWithScrollbars m)
            && negb (is_node (scrollingElement pg) e && isTopWindow pg)
    then Some scrollable else None.
Proof.
  intros Hroot Hname. unfold getElementType.
  assert (Hr : is_node (documentElement pg) e || is_node (body pg) e = true).
  { unfold is_node. rewrite orb_true_iff, !bool_decide_eq_true. exact Hroot. }
  rewrite Hr.
  destruct Hname as [-> | ->]; reflexivity.
Qed.

(** C7. For the document's [<html>] or [<body>] element the classifier
    never answers [clickable], [clickable-event] or [label]; an editable
    state still gives [textarea], otherwise a scrollbar mark gives
    [scrollable] unless the element is the root scroller of the top-level
    window, and in every other case the answer is none. *)
Theorem root_element_classification (m : Manager) (e : Node) :
  (documentElement pg = Some e ∨ body pg = Some e) →
  (nodeName pg e = "HTML" ∨ nodeName pg e = "BODY") →
  (getElementType pg m e ≠ Some clickable
   ∧ getElementType pg m e ≠ Some clickable_event
   ∧ getElementType pg m e ≠ Some label)
  ∧ (editable pg e → getElementType pg m e = Some textarea)
  ∧ (¬ editable pg e → e ∈ elementsWithScrollbars m → ¬ rootScroller pg e →
     getElementType pg m e = Some scrollable)
  ∧ (¬ editable pg e → e ∉ elementsWithScrollbars m ∨ rootScroller pg e →
     getElementType pg m e = None).
Proof.
  intros Hroot Hname. rewrite (root_element_type m e Hroot Hname).
  pose proof (editable_decide e) as Hed.
  destruct (match contentEditable pg e with Some _ => _ | None => _ end).
  - assert (He : editable pg e) by (apply Hed; reflexivity).
    split; [split_and!; discriminate|].
    split; [reflexivity|]. split; intros Hne; contradiction.
  - assert (Hrs : is_node (scrollingElement pg) e && isTopWindow pg = true
                  ↔ rootScroller pg e).
    { unfold rootScroller, is_node.
      rewrite andb_true_iff, bool_decide_eq_true. reflexivity. }
    split; [|split; [|split]].
    + destruct (bool_decide _ && negb _); split_and!; discriminate.
    + intros He. apply Hed in He. discriminate.
    + intros _ Hin Hnr. rewrite bool_decide_eq_true_2 by assumption.
      destruct (is_node (scrollingElement pg) e && isTopWindow pg).
      * destruct Hnr. apply Hrs. reflexivity.
      * reflexivity.
    + intros _ [Hnin | Hr].
      * rewrite bool_decide_eq_false_2 by assumption. reflexivity.
      * apply Hrs in Hr. rewrite Hr, andb_false_r. reflexivity.
Qed.
End Classifier.

(** C6 as stated fails: the link of the example document served as XML is
    an [HTMLAnchorElement] with an allowed [href], named ["a"], and the
    classifier, which looks at [nodeName] first, gives it no type at all. *)
Lemma anchor_of_xml_document_is_not_classified :
  interface exampleXmlPage 2 = HTMLAnchorElement
  ∧ linkable exampleXmlPage exampleManager 2
  ∧ getElementType exampleXmlPage exampleManager 2 = None.
Proof.
  split; [reflexivity|]. split; [|vm_compute; reflexivity].
  exists "https://example.org/". split; [vm_compute; reflexivity|].
  split; [discriminate|]. split; [discriminate|].
  change ("https:" ∈ allowedProtocols (Some chrome)).
  apply list_elem_of_In. vm_compute. tauto.
Qed.

(** C6 as amended, at the link of the example document. *)
Lemma anchor_is_link_iff_linkable_witness :
  nodeName examplePage 2 = "A"
  ∧ interface examplePage 2 = HTMLAnchorElement
  ∧ (getElementType examplePage exampleManager 2 = Some link
     ↔ linkable examplePage exampleManager 2).
Proof.
  split; [reflexivity|]. split; [reflexivity|].
  apply (anchor_is_link_iff_linkable examplePage exampleManager 2);
    reflexivity.
Defined.

(** C7, at the [<html>] element of the example document. *)
Lemma root_element_classification_witness :
  documentElement examplePage = Some 0
  ∧ nodeName examplePage 0 = "HTML"
  ∧ getElementType examplePage exampleManager 0 ≠ Some clickable.
Proof.
  split; [reflexivity|]. split; [reflexivity|].
  apply (root_element_classification examplePage exampleManager 0).
  - left. reflexivity.
  - left. reflexivity.
Defined.

Section DeduperFacts.
Variable pg : Page.

Lemma isLowQuality_clickable_event (ve : VisibleElement) :
  isLowQuality ve = true ↔ type ve = clickable_event.
Proof.
  unfold isLowQuality. destruct (type ve); vm_compute; split; congruence.
Qed.

Lemma rejected_after_labels (ve : VisibleElement) (r : gset Node) (e : Node) :
  e ∈ match labels pg (element ve) with
      | Some labels => list_to_set labels ∪ r
      | None => r
      end ↔ e ∈ labelsOf pg (element ve) ∨ e ∈ r.
Proof.
  unfold labelsOf. destruct (labels pg (element ve)).
  - rewrite elem_of_union, elem_of_list_to_set. reflexivity.
  - rewrite elem_of_nil. tauto.
Qed.

(** The rejection set after two additions to a fresh deduper. *)
Lemma rejected_two (a b : VisibleElement) (e : Node) :
  e ∈ rejected (Deduper_add pg b (Deduper_add pg a Deduper_new)) ↔
    e ∈ labelsOf pg (element a) ∨ e ∈ labelsOf pg (element b)
    ∨ (hintPositionKey (measurements a) = hintPositionKey (measurements b)
       ∧ ((isLowQuality a = true ∧ isLowQuality b = false ∧ e = element a)
          ∨ (isLowQuality a = false ∧ isLowQuality b = true
             ∧ e = element b))).
Proof.
  unfold Deduper_new.
  unfold Deduper_add at 2. simpl positionMap. rewrite lookup_empty.
  unfold Deduper_add. cbn [positionMap rejected].
  destruct (decide (hintPositionKey (measurements a)
                    = hintPositionKey (measurements b))) as [Hk | Hk].
  - rewrite <- Hk, lookup_insert_eq. cbn [rejected app List.filter].
    destruct (isLowQuality a) eqn:Ha, (isLowQuality b) eqn:Hb;
      cbn [negb length Nat.ltb Nat.leb andb fmap list_fmap];
      rewrite ?elem_of_union, ?elem_of_list_to_set, !rejected_after_labels;
      cbn [rejected]; rewrite ?elem_of_cons, ?elem_of_nil, elem_of_empty.
    all: intuition congruence.
  - rewrite lookup_insert_ne by assumption. rewrite lookup_empty.
    cbn [rejected]. rewrite !rejected_after_labels. cbn [rejected].
    rewrite elem_of_empty. tauto.
Qed.


(** C4. Two measured elements without labels at the same quantized
    position, added to a fresh deduper: if exactly one of them is of the
    low-quality category [clickable-event], that one and only that one is
    rejected; if both or neither are, neither is rejected. *)
Theorem deduper_same_position (a b : VisibleElement) :
  element a ≠ element b →
  hintPositionKey (measurements a) = hintPositionKey (measurements b) →
  labelsOf pg (element a) = [] →
  labelsOf pg (element b) = [] →
  let d := Deduper_add pg b (Deduper_add pg a Deduper_new) in
  (type a = clickable_event → type b ≠ clickable_event →
   Deduper_rejects d a = true ∧ Deduper_rejects d b = false)
  ∧ (type a ≠ clickable_event → type b = clickable_event →
     Deduper_rejects d a = false ∧ Deduper_rejects d b = true)
  ∧ ((type a = clickable_event ↔ type b = clickable_event) →
     Deduper_rejects d a = false ∧ Deduper_rejects d b = false).
Proof.
  intros Hne Hk La Lb d. unfold Deduper_rejects.
  rewrite !bool_decide_eq_true, !bool_decide_eq_false. subst d.
  rewrite !rejected_two, La, Lb, !elem_of_nil.
  rewrite <- !isLowQuality_clickable_event.
  destruct (isLowQuality a), (isLowQuality b); intuition congruence.
Qed.


End DeduperFacts.

(** C4, at the [<div onclick>] and the [<button>] of the example document. *)
Lemma deduper_same_position_witness :
  element exampleDiv ≠ element exampleButton
  ∧ hintPositionKey (measurements exampleDiv)
    = hintPositionKey (measurements exampleButton)
  ∧ Deduper_rejects
      (Deduper_add examplePage exampleButton
         (Deduper_add examplePage exampleDiv Deduper_new)) exampleDiv = true
  ∧ Deduper_rejects
      (Deduper_add examplePage exampleButton
         (Deduper_add examplePage exampleDiv Deduper_new)) exampleButton
    = false.
Proof.
  split; [discriminate|]. split; [reflexivity|].
  apply (deduper_same_position examplePage exampleDiv exampleButton);
    try reflexivity; discriminate.
Defined.



Section Weight.

Lemma Math_max_maximum (xs : list Q) :
  xs ≠ [] →
  ∃ M, Math_max xs = Some M ∧ M ∈ xs ∧ ∀ x, x ∈ xs → (x <= M)%Q.
Proof.
  induction xs as [|x xs IH]; [congruence|]. intros _.
  destruct xs as [|y ys].
  - exists x. split; [reflexivity|]. split; [apply list_elem_of_here|].
    intros z Hz. apply list_elem_of_singleton in Hz. subst z. apply Qle_refl.
  - destruct IH as (M & HM & Hin & Hle); [congruence|].
    change (Math_max (x :: y :: ys))
      with (Some (match Math_max (y :: ys) with
                  | Some m => Qmax x m
                  | None => x
                  end)).
    rewrite HM. exists (Qmax x M). split; [reflexivity|]. split.
    + unfold Qmax, GenericMinMax.gmax.
      destruct (x ?= M)%Q; [apply list_elem_of_here| |apply list_elem_of_here].
      apply list_elem_of_further, Hin.
    + intros z Hz. apply elem_of_cons in Hz. destruct Hz as [-> | Hz].
      * apply Q.le_max_l.
      * eapply Qle_trans; [apply Hle, Hz | apply Q.le_max_r].
Qed.

Lemma isMaximum_Math_max (f : Box.t → Q) (boxes : list Box.t) :
  boxes ≠ [] → ∃ M, Math_max (f <$> boxes) = Some M ∧ isMaximum f boxes M.
Proof.
  intros Hne.
  destruct (Math_max_maximum (f <$> boxes)) as (M & HM & Hin & Hle).
  { destruct boxes; [congruence | discriminate]. }
  exists M. split; [exact HM|]. split.
  - apply list_elem_of_fmap in Hin. destruct Hin as (b & -> & Hb). eauto.
  - intros b Hb. apply Hle, list_elem_of_fmap. eauto.
Qed.

Lemma Math_round_nonneg (q : Q) : (0 <= q)%Q → (0 <= Math_round q)%Z.
Proof.
  intros Hq. unfold Math_round.
  change 0%Z with (Qfloor 0). apply Qfloor_resp_le.
  apply Qle_trans with q; [exact Hq|].
  rewrite <- (Qplus_0_r q) at 1. apply Qplus_le_r. discriminate.
Qed.

Lemma has_worse (ty : ElementType) :
  has t.ELEMENT_TYPES_WORSE (ElementType_name ty) = worse ty.
Proof. destruct ty; vm_compute; reflexivity. Qed.

Lemma weightOf_ge_1 (ty : ElementType) (size : Z) : (1 <= weightOf ty size)%R.
Proof.
  unfold weightOf. destruct (size =? 0)%Z; [lra | apply Rmax_l].
Qed.

Lemma Math_max_1_log (ty : ElementType) (size : Z) :
  (0 <= size)%Z →
  Math_max_1
    ((if has t.ELEMENT_TYPES_WORSE (ElementType_name ty)
      then Math_log10 else Math_log2) size)
  = Real (weightOf ty size).
Proof.
  intros Hsize. rewrite has_worse. unfold weightOf, logarithmBase.
  assert (Hneg : (size <? 0)%Z = false) by lia.
  destruct (worse ty); unfold Math_log10, Math_log2, Math_log; rewrite Hneg;
    destruct (size =? 0)%Z; reflexivity.
Qed.

(** C9, as the code has it. For a non-empty list of boxes of non-negative
    width and height, the weight is [max(1, lg(round(min(W, H))))] with
    [W] the largest width and [H] the largest height, the logarithm in
    base 10 for the categories that rank lower and in base 2 otherwise; it
    is a real number at least 1. *)
Theorem hintWeight_formula (ty : ElementType) (boxes : list Box.t) :
  boxes ≠ [] →
  (∀ b, b ∈ boxes → (0 <= Box.width b)%Q ∧ (0 <= Box.height b)%Q) →
  ∃ W H,
    isMaximum Box.width boxes W ∧ isMaximum Box.height boxes H
    ∧ hintWeight ty boxes = Real (weightOf ty (Math_round (Qmin W H)))
    ∧ (1 <= weightOf ty (Math_round (Qmin W H)))%R.
Proof.
  intros Hne Hpos.
  destruct (isMaximum_Math_max Box.width boxes Hne) as (W & HW & HmW).
  destruct (isMaximum_Math_max Box.height boxes Hne) as (H & HH & HmH).
  exists W, H. split; [exact HmW|]. split; [exact HmH|].
  split; [|apply weightOf_ge_1].
  unfold hintWeight. rewrite HW, HH. apply Math_max_1_log.
  apply Math_round_nonneg.
  destruct HmW as [(b & Hb & <-) _], HmH as [(b' & Hb' & <-) _].
  apply Q.min_glb; [apply (Hpos b Hb) | apply (Hpos b' Hb')].
Qed.

End Weight.

Lemma ln_8 : ln 8 = (3 * ln 2)%R.
Proof.
  replace 8%R with (2 ^ 3)%R by (simpl; lra).
  rewrite ln_pow by lra. simpl. lra.
Qed.

Lemma ln_16 : ln 16 = (4 * ln 2)%R.
Proof.
  replace 16%R with (2 ^ 4)%R by (simpl; lra).
  rewrite ln_pow by lra. simpl. lra.
Qed.

Lemma log2_12_between : (3 < ln 12 / ln 2 < 4)%R.
Proof.
  assert (H2 : (0 < ln 2)%R).
  { rewrite <- ln_1. apply ln_increasing; lra. }
  assert (H8 : (ln 8 < ln 12)%R) by (apply ln_increasing; lra).
  assert (H16 : (ln 12 < ln 16)%R) by (apply ln_increasing; lra).
  rewrite ln_8 in H8. rewrite ln_16 in H16.
  split.
  - apply Rmult_lt_reg_r with (ln 2); [exact H2|].
    unfold Rdiv. rewrite Rmult_assoc, Rinv_l by lra. lra.
  - apply Rmult_lt_reg_r with (ln 2); [exact H2|].
    unfold Rdiv. rewrite Rmult_assoc, Rinv_l by lra. lra.
Qed.

(** C9 as stated fails in its last part: the weight of a clickable element
    with one box of 12 by 12 is [log2 12], strictly between 3 and 4. *)
Lemma hintWeight_not_an_integer :
  ∃ r, hintWeight clickable [exampleBox 0 0 12 12] = Real r
       ∧ ∀ z : Z, r ≠ IZR z.
Proof.
  exists (Rmax 1 (ln 12 / ln 2)). split.
  - unfold hintWeight.
    set (w := Math_max (Box.width <$> _)). vm_compute in w. subst w.
    set (h := Math_max (Box.height <$> _)). vm_compute in h. subst h.
    cbv beta iota zeta.
    set (b := has _ _). vm_compute in b. subst b.
    set (size := Math_round _). vm_compute in size. subst size.
    reflexivity.
  - intros z Hz. pose proof log2_12_between as [Hlo Hhi].
    rewrite Rmax_right in Hz by lra.
    rewrite Hz in Hlo, Hhi.
    apply lt_IZR in Hlo, Hhi. lia.
Qed.

(** C9 as amended, at one box of 12 by 12. *)
Lemma hintWeight_formula_witness :
  ∃ W H,
    isMaximum Box.width [exampleBox 0 0 12 12] W
    ∧ isMaximum Box.height [exampleBox 0 0 12 12] H
    ∧ hintWeight clickable [exampleBox 0 0 12 12]
      = Real (weightOf clickable (Math_round (Qmin W H)))
    ∧ (1 <= weightOf clickable (Math_round (Qmin W H)))%R.
Proof.
  apply (hintWeight_formula clickable [exampleBox 0 0 12 12]).
  - discriminate.
  - intros b Hb. apply list_elem_of_singleton in Hb. subst b.
    split; discriminate.
Defined.

Section Geometry.
Variable pg : Page.

Lemma input_is_clickable (m : Manager) (e : Node) (ty : ElementType) :
  nodeName pg e = "INPUT" →
  interface pg e = HTMLInputElement →
  inputType pg e = "radio" ∨ inputType pg e = "checkbox" →
  getElementType pg m e = Some ty →
  ty = clickable.
Proof.
  intros Hname Hiface Hty. unfold getElementType.
  rewrite Hname, Hiface. destruct Hty as [-> | ->]; simpl; congruence.
Qed.

(** C8, as the code has it. A radio button or checkbox measured with its
    own category, with one client rectangle lower than the minimum
    height, no text anchor and no image: the hint is anchored at the left
    edge of its visible box, at mid-height, aligned [right] (so that the
    hint ends where the box begins). *)
Theorem radio_hint_point (m : Manager) (e : Node) (ty : ElementType)
    (rect visibleBox : Box.t) (viewports : list Box.t) :
  nodeName pg e = "INPUT" →
  interface pg e = HTMLInputElement →
  inputType pg e = "radio" ∨ inputType pg e = "checkbox" →
  getElementType pg m e = Some ty →
  (Box.height rect < t.MIN_HEIGHT_BOX)%Q →
  getBestNonEmptyTextPoint pg e rect viewports
    (λ point, isWithin point visibleBox) false = None →
  images pg e = [] →
  matchesImage pg e = false →
  getSingleRectPoint pg e ty rect visibleBox viewports
  = {| Point.x := Box.x visibleBox;
       Point.y := (Box.y visibleBox + Box.height visibleBox / 2)%Q;
       Point.align := right |}.
Proof.
  intros Hname Hiface Htype Hty Hlow Htext Himages Hmatch.
  rewrite (input_is_clickable m e ty Hname Hiface Htype Hty).
  unfold getSingleRectPoint.
  assert (Hh : Qle_bool t.MIN_HEIGHT_BOX (Box.height rect) = false).
  { apply not_true_is_false. intros H. apply Qle_bool_iff in H.
    apply Qlt_not_le in Hlow. contradiction. }
  rewrite Hh, Hiface.
  change (bool_decide (clickable = scrollable)) with false.
  change (bool_decide (clickable = textarea)) with false.
  change (bool_decide (clickable = selectable)) with false.
  cbv beta iota.
  change (instanceof HTMLInputElement HTMLSelectElement) with false.
  change (instanceof HTMLInputElement HTMLCanvasElement) with false.
  change (instanceof HTMLInputElement HTMLInputElement) with true.
  cbn [orb andb]. rewrite Htext.
  unfold getFirstImagePoint. rewrite Himages, Hmatch. cbn [app firstVisibleImage].
  destruct Htype as [-> | ->]; reflexivity.
Qed.

End Geometry.

(** C8 as stated fails: the radio button of the example document, 20 by 20
    at (100, 100), gets its hint at x = 100, the left edge of its box, and
    not at the right edge (x = 120, or 119 as for scrollable elements).
    And a radio button without descendant image that the image selector
    matches itself is anchored as an image, past its border and padding,
    at x = 102. *)
Lemma radio_hint_not_at_right_edge :
  let box := exampleBox 100 100 20 20 in
  let point := getSingleRectPoint examplePage 3 clickable box box [] in
  let iconPoint := getSingleRectPoint exampleIconPage 3 clickable box box [] in
  getElementType examplePage exampleManager 3 = Some clickable
  ∧ getBestNonEmptyTextPoint examplePage 3 box []
      (λ point, isWithin point box) false = None
  ∧ getFirstImagePoint examplePage 3 [] = None
  ∧ Point.x point = 100%Q
  ∧ Point.align point = right
  ∧ ¬ (Point.x point == Box.right box)%Q
  ∧ ¬ (Point.x point == Box.right box - 1)%Q
  ∧ images exampleIconPage 3 = []
  ∧ getBestNonEmptyTextPoint exampleIconPage 3 box []
      (λ point, isWithin point box) false = None
  ∧ (Point.x iconPoint == 102)%Q
  ∧ ¬ (Point.x iconPoint == Box.right box)%Q.
Proof.
  vm_compute. repeat split; discriminate.
Qed.

(** C8 as amended, at the radio button of the example document. *)
Lemma radio_hint_point_witness :
  nodeName examplePage 3 = "INPUT"
  ∧ getSingleRectPoint examplePage 3 clickable (exampleBox 100 100 20 20)
      (exampleBox 100 100 20 20) []
    = {| Point.x := 100; Point.y := (100 + 20 / 2)%Q; Point.align := right |}.
Proof.
  split; [reflexivity|].
  apply (radio_hint_point examplePage exampleManager 3 clickable
           (exampleBox 100 100 20 20) (exampleBox 100 100 20 20) []);
    try reflexivity.
  left. reflexivity.
Defined.

(** * Further properties

    The registry and the signals that change it, the manager's lifetime
    and its queue processor, a query and its deduper, and the geometry of
    the hints, beyond the sentences of the specification treated above. *)

Local Open Scope list_scope.

Ltac pick := repeat case_match; auto.

Ltac sets := set_unfold; intuition (subst; auto; congruence).

(** ** The registry *)

Section Registry.
Variable pg : Page.

Lemma consumeEventAttribute_fields (e : Node) (m : Manager) :
  let m' := consumeEventAttribute pg e m in
  queue m' = queue m ∧ elements m' = elements m
  ∧ visibleElements m' = visibleElements m
  ∧ visibleFrames m' = visibleFrames m
  ∧ elementsWithScrollbars m' = elementsWithScrollbars m
  ∧ bailed m' = bailed m
  ∧ intersectionObserver m' = intersectionObserver m
  ∧ frameIntersectionObserver m' = frameIntersectionObserver m
  ∧ removalObserver m' = removalObserver m
  ∧ trace m' = trace m.
Proof.
  unfold consumeEventAttribute. repeat case_match; cbn; split_and!; reflexivity.
Qed.

Lemma consumeEventAttribute_absent (e : Node) (m : Manager) :
  getAttribute m e (EVENT_ATTRIBUTE pg) = None →
  consumeEventAttribute pg e m = m.
Proof. intros H. unfold consumeEventAttribute. rewrite H. reflexivity. Qed.

Lemma consumeEventAttribute_others (e e' : Node) (m : Manager) :
  e' ≠ e →
  (e' ∈ elementsWithClickListeners (consumeEventAttribute pg e m)
   ↔ e' ∈ elementsWithClickListeners m).
Proof.
  intros Hne. unfold consumeEventAttribute.
  repeat case_match; cbn; [sets | sets | done | done].
Qed.

Lemma bail_fields (m : Manager) :
  queue (bail m) = queue m ∧ elements (bail m) = elements m
  ∧ visibleFrames (bail m) = visibleFrames m
  ∧ elementsWithClickListeners (bail m) = elementsWithClickListeners m
  ∧ elementsWithScrollbars (bail m) = elementsWithScrollbars m
  ∧ frameIntersectionObserver (bail m) = frameIntersectionObserver m
  ∧ removalObserver (bail m) = removalObserver m
  ∧ attributes (bail m) = attributes m
  ∧ trace (bail m) = trace m.
Proof. unfold bail. case_match; cbn; split_and!; reflexivity. Qed.

Lemma addOrRemoveElement_marks (mt : MutationType) (e : Node) (m : Manager) :
  elementsWithScrollbars (addOrRemoveElement pg mt e m)
  = elementsWithScrollbars m
  ∧ elementsWithClickListeners (addOrRemoveElement pg mt e m)
    = elementsWithClickListeners (consumeEventAttribute pg e m)
  ∧ attributes (addOrRemoveElement pg mt e m)
    = attributes (consumeEventAttribute pg e m)
  ∧ queue (addOrRemoveElement pg mt e m) = queue m
  ∧ removalObserver (addOrRemoveElement pg mt e m) = removalObserver m
  ∧ trace (addOrRemoveElement pg mt e m) = (mt, e) :: trace m.
Proof.
  unfold addOrRemoveElement.
  set (m1 := consumeEventAttribute pg e (set_trace _ m)).
  assert (H1 : elementsWithScrollbars m1 = elementsWithScrollbars m
               ∧ elementsWithClickListeners m1
                 = elementsWithClickListeners (consumeEventAttribute pg e m)
               ∧ attributes m1 = attributes (consumeEventAttribute pg e m)
               ∧ queue m1 = queue m ∧ removalObserver m1 = removalObserver m
               ∧ trace m1 = (mt, e) :: trace m).
  { subst m1. unfold consumeEventAttribute, getAttribute. cbn.
    repeat case_match; cbn; split_and!; reflexivity. }
  clearbody m1. destruct H1 as (<- & <- & <- & <- & <- & <-).
  unfold bail. repeat case_match; cbn; split_and!; reflexivity.
Qed.

(** X1. [addOrRemoveElement] never touches the scrollbar marks, changes
    the click-listener mark of no element but its own, and changes none
    at all when its element carries no event attribute: a removal does
    not unmark. *)
Theorem marks_survive_addOrRemoveElement (mt : MutationType) (e : Node)
    (m : Manager) :
  elementsWithScrollbars (addOrRemoveElement pg mt e m)
  = elementsWithScrollbars m
  ∧ (∀ e', e' ≠ e →
       (e' ∈ elementsWithClickListeners (addOrRemoveElement pg mt e m)
        ↔ e' ∈ elementsWithClickListeners m))
  ∧ (getAttribute m e (EVENT_ATTRIBUTE pg) = None →
       elementsWithClickListeners (addOrRemoveElement pg mt e m)
       = elementsWithClickListeners m).
Proof.
  destruct (addOrRemoveElement_marks mt e m) as (Hs & Hc & _).
  split; [exact Hs|]. rewrite Hc. split.
  - intros e' Hne. apply consumeEventAttribute_others, Hne.
  - intros Hnone. rewrite consumeEventAttribute_absent by assumption.
    reflexivity.
Qed.

(** X2. For a frame, [addOrRemoveElement] leaves the registry, the
    visible elements, the intersection observer and the bailed flag as
    they are: an added frame is watched by the frame observer, a removed
    one is neither watched nor a visible frame afterwards, and a change
    does nothing to the frames. *)
Theorem frames_stay_out_of_the_registry (mt : MutationType) (e : Node)
    (m : Manager) :
  isFrame pg e = true →
  let m' := addOrRemoveElement pg mt e m in
  elements m' = elements m
  ∧ visibleElements m' = visibleElements m
  ∧ intersectionObserver m' = intersectionObserver m
  ∧ bailed m' = bailed m
  ∧ (mt = added → e ∈ frameIntersectionObserver m'
                  ∧ visibleFrames m' = visibleFrames m)
  ∧ (mt = removed → (e ∉ frameIntersectionObserver m') ∧ (e ∉ visibleFrames m'))
  ∧ (mt = changed → frameIntersectionObserver m' = frameIntersectionObserver m
                    ∧ visibleFrames m' = visibleFrames m).
Proof.
  intros Hframe m'. subst m'. unfold addOrRemoveElement. rewrite Hframe.
  set (m1 := consumeEventAttribute pg e (set_trace _ m)).
  destruct (consumeEventAttribute_fields e (set_trace ((mt, e) :: trace m) m))
    as (_ & He & Hv & Hvf & _ & Hb & Hi & Hf & _).
  fold m1 in He, Hv, Hvf, Hb, Hi, Hf. cbn in He, Hv, Hvf, Hb, Hi, Hf.
  clearbody m1.
  destruct mt; cbn; rewrite ?He, ?Hv, ?Hvf, ?Hb, ?Hi, ?Hf;
    split_and!; try done.
  - intros _. split; [sets | done].
  - intros _. split; sets.
Qed.


Lemma getElementType_ext (m1 m2 : Manager) (e : Node) :
  attributes m1 = attributes m2 →
  elementsWithScrollbars m1 = elementsWithScrollbars m2 →
  elementsWithClickListeners m1 = elementsWithClickListeners m2 →
  getElementType pg m1 e = getElementType pg m2 e.
Proof.
  intros Ha Hs Hc.
  unfold getElementType, getLinkElementType, hasClickListenerProp,
    hasAttribute, getAttribute.
  rewrite Ha, Hs, Hc. reflexivity.
Qed.

Lemma getElementType_after (mt : MutationType) (e e' : Node) (m : Manager) :
  getElementType pg (addOrRemoveElement pg mt e m) e'
  = getElementType pg (consumeEventAttribute pg e m) e'.
Proof.
  destruct (addOrRemoveElement_marks mt e m) as (Hs & Hc & Ha & _).
  apply getElementType_ext; [exact Ha | | exact Hc].
  rewrite Hs. symmetry. apply consumeEventAttribute_fields.
Qed.

(** X3. For an element that is no frame: after a removal it has no
    entry in the registry, is not visible and not watched; after a change
    its entry is what [getElementType] then says of it; after an addition
    its entry is its type if it has one and its former entry otherwise (an
    addition deletes nothing); the entries of all other elements are
    untouched. *)
Theorem registry_follows_classification (mt : MutationType) (e : Node)
    (m : Manager) :
  isFrame pg e = false →
  let m' := addOrRemoveElement pg mt e m in
  (mt = removed →
     elements m' !! e = None ∧ (e ∉ visibleElements m')
     ∧ (e ∉ intersectionObserver m'))
  ∧ (mt = changed → elements m' !! e = getElementType pg m' e)
  ∧ (mt = added →
       elements m' !! e
       = match getElementType pg m' e with
         | Some ty => Some ty
         | None => elements m !! e
         end)
  ∧ (∀ e', e' ≠ e → elements m' !! e' = elements m !! e').
Proof.
  intros Hframe m'.
  assert (Hty : getElementType pg m' e
                = getElementType pg
                    (consumeEventAttribute pg e
                       (set_trace ((mt, e) :: trace m) m)) e).
  { subst m'. rewrite getElementType_after.
    apply getElementType_ext; unfold consumeEventAttribute, getAttribute; cbn;
      repeat case_match; reflexivity. }
  rewrite Hty. subst m'. unfold addOrRemoveElement. rewrite Hframe.
  set (m1 := consumeEventAttribute pg e (set_trace _ m)).
  destruct (consumeEventAttribute_fields e (set_trace ((mt, e) :: trace m) m))
    as (_ & He & Hv & _ & _ & _ & Hi & _).
  fold m1 in He, Hv, Hi. cbn in He, Hv, Hi. clearbody m1.
  destruct mt; cbn.
  - (* added *)
    rewrite decide_False by discriminate.
    destruct (getElementType pg m1 e) as [ty|]; cbn.
    + split_and!; try done.
      * intros _. unfold bail. repeat case_match; cbn;
          rewrite lookup_insert_eq; reflexivity.
      * intros e' Hne. unfold bail. repeat case_match; cbn;
          rewrite lookup_insert_ne by congruence; rewrite He; reflexivity.
    + rewrite decide_False by (intros H; apply H; reflexivity).
      split_and!; try done.
      * intros _. rewrite He. reflexivity.
      * intros e' _. rewrite He. reflexivity.
  - (* removed *)
    rewrite decide_True by reflexivity. rewrite decide_True by discriminate.
    cbn. split_and!; try done.
    + intros _. split_and!; [apply lookup_delete_eq | sets | sets].
    + intros e' Hne. rewrite lookup_delete_ne by congruence.
      rewrite He. reflexivity.
  - (* changed *)
    rewrite decide_False by discriminate.
    destruct (getElementType pg m1 e) as [ty|]; cbn.
    + split_and!; try done.
      * intros _. unfold bail. repeat case_match; cbn;
          rewrite lookup_insert_eq; reflexivity.
      * intros e' Hne. unfold bail. repeat case_match; cbn;
          rewrite lookup_insert_ne by congruence; rewrite He; reflexivity.
    + rewrite decide_True by discriminate. cbn.
      split_and!; try done.
      * intros _. apply lookup_delete_eq.
      * intros e' Hne. rewrite lookup_delete_ne by congruence.
        rewrite He. reflexivity.
Qed.

(** X4. [consumeEventAttribute] consumes the event attribute: a second
    call changes nothing; every other attribute, and the click-listener
    mark of every other element, is as before; a [CLICKABLE_EVENT] value
    marks the element and an [UNCLICKABLE_EVENT] value unmarks it, and in
    both cases the attribute is gone afterwards. *)
Theorem consumeEventAttribute_consumes (e : Node) (m : Manager) :
  let m' := consumeEventAttribute pg e m in
  consumeEventAttribute pg e m' = m'
  ∧ (∀ e' a, (e', a) ≠ (e, EVENT_ATTRIBUTE pg) →
       getAttribute m' e' a = getAttribute m e' a)
  ∧ (∀ e', e' ≠ e →
       (e' ∈ elementsWithClickListeners m' ↔ e' ∈ elementsWithClickListeners m))
  ∧ (getAttribute m e (EVENT_ATTRIBUTE pg) = Some (CLICKABLE_EVENT pg) →
       e ∈ elementsWithClickListeners m'
       ∧ getAttribute m' e (EVENT_ATTRIBUTE pg) = None)
  ∧ (getAttribute m e (EVENT_ATTRIBUTE pg) = Some (UNCLICKABLE_EVENT pg) →
       UNCLICKABLE_EVENT pg ≠ CLICKABLE_EVENT pg →
       (e ∉ elementsWithClickListeners m')
       ∧ getAttribute m' e (EVENT_ATTRIBUTE pg) = None).
Proof.
  intros m'. subst m'. unfold consumeEventAttribute.
  destruct (getAttribute m e (EVENT_ATTRIBUTE pg)) as [value|] eqn:Hattr.
  2:{ rewrite Hattr. split_and!; done. }
  unfold getAttribute in *.
  destruct (decide (value = CLICKABLE_EVENT pg)) as [-> | Hc].
  - rewrite bool_decide_eq_true_2 by reflexivity. cbn.
    rewrite lookup_delete_eq. split_and!.
    + reflexivity.
    + intros e' a Hne. apply lookup_delete_ne. congruence.
    + intros e' Hne. sets.
    + intros _. split; [sets | reflexivity].
    + intros [= Heq] Hne. congruence.
  - rewrite bool_decide_eq_false_2 by assumption.
    destruct (decide (value = UNCLICKABLE_EVENT pg)) as [-> | Hu].
    + rewrite bool_decide_eq_true_2 by reflexivity. cbn.
      rewrite lookup_delete_eq. split_and!.
      * reflexivity.
      * intros e' a Hne. apply lookup_delete_ne. congruence.
      * intros e' Hne. sets.
      * intros [= Heq]. congruence.
      * intros _ _. split; [sets | reflexivity].
    + rewrite bool_decide_eq_false_2 by assumption. rewrite Hattr.
      rewrite bool_decide_eq_false_2 by assumption.
      rewrite bool_decide_eq_false_2 by assumption.
      split_and!; try done.
      * intros [= Heq]. congruence.
      * intros [= Heq]. congruence.
Qed.

End Registry.

(** X2, at the [<iframe>] of the example document with a frame. *)
Lemma frames_stay_out_of_the_registry_witness :
  isFrame exampleFramePage 9 = true
  ∧ elements (addOrRemoveElement exampleFramePage added 9 exampleManager)
    = elements exampleManager
  ∧ 9 ∈ frameIntersectionObserver
          (addOrRemoveElement exampleFramePage added 9 exampleManager).
Proof.
  split; [reflexivity|].
  destruct (frames_stay_out_of_the_registry exampleFramePage added 9
              exampleManager eq_refl) as (He & _ & _ & _ & Ha & _).
  split; [exact He | apply Ha; reflexivity].
Defined.

(** X3, at the link of the example document. *)
Lemma registry_follows_classification_witness :
  isFrame examplePage 2 = false
  ∧ elements (addOrRemoveElement examplePage changed 2 exampleManager) !! 2
    = getElementType examplePage
        (addOrRemoveElement examplePage changed 2 exampleManager) 2.
Proof.
  split; [reflexivity|].
  destruct (registry_follows_classification examplePage changed 2
              exampleManager eq_refl) as (_ & Hc & _).
  apply Hc. reflexivity.
Defined.

(** ** Batches of the probe *)

Section Probe.
Variable probe : Node.

Lemma probeAddedNodes_shouldQueue (nodes : list Node)
    (probed shouldQueue : bool) :
  (probeAddedNodes probe nodes (probed, shouldQueue)).2
  = shouldQueue || existsb (λ node, negb (bool_decide (node = probe))) nodes.
Proof.
  revert probed shouldQueue.
  induction nodes as [|node nodes IH]; intros probed shouldQueue; cbn.
  - rewrite orb_false_r. reflexivity.
  - case_bool_decide; cbn.
    + destruct shouldQueue; [reflexivity | apply IH].
    + destruct probed; cbn; [|rewrite IH]; rewrite orb_true_r; reflexivity.
Qed.

(** [shouldQueue] after the loops: whether a record holds more than the
    probe. *)
Lemma probeRecords_shouldQueue (records : list Record_)
    (probed shouldQueue : bool) :
  (probeRecords probe records (probed, shouldQueue)).2
  = shouldQueue
    || existsb
         (λ record,
            existsb (λ node, negb (bool_decide (node = probe)))
              (addedNodes record)
            || ((0 <? length (removedNodes record))
                || bool_decide (attributeName record ≠ None)))
         records.
Proof.
  revert probed shouldQueue.
  induction records as [|record records IH]; intros probed shouldQueue.
  - cbn. rewrite orb_false_r. reflexivity.
  - cbn [probeRecords existsb].
    pose proof (probeAddedNodes_shouldQueue (addedNodes record) probed
                  shouldQueue) as Hadded.
    destruct (probeAddedNodes probe (addedNodes record) (probed, shouldQueue))
      as [probed' shouldQueue'].
    cbn [snd] in Hadded. subst shouldQueue'. cbv zeta.
    set (A := existsb _ (addedNodes record)).
    set (B := (0 <? length (removedNodes record)) || _).
    destruct shouldQueue, A, B, probed'; cbn [orb andb snd];
      rewrite ?IH; reflexivity.
Qed.

(** X5. [onMutation] drops a batch of records exactly when the observers
    are being flushed and the batch holds nothing but insertions of the
    probe: no other added node, no removed node, no changed attribute. Any
    other batch is queued and its removed nodes are observed. *)
Theorem onMutation_drops_only_probe_batches (probing : bool)
    (records : list Record_) (em : ElementManager) :
  let onlyProbe :=
    ∀ record, record ∈ records →
      (∀ node, node ∈ addedNodes record → node = probe)
      ∧ removedNodes record = [] ∧ attributeName record = None in
  (probing = true ∧ onlyProbe → onMutation probe probing records em = em)
  ∧ (¬ (probing = true ∧ onlyProbe) →
     onMutation probe probing records em
     = observeRemovals records (queueRecords records false em)).
Proof.
  cbv zeta. unfold onMutation.
  destruct probing; [|split; [intros [[=] _] | reflexivity]].
  pose proof (probeRecords_shouldQueue records false false) as Hflag.
  destruct (probeRecords probe records (false, false))
    as [probed shouldQueue].
  cbn [snd orb] in Hflag. subst shouldQueue.
  destruct (existsb _ records) eqn:Hsome.
  - split; [|reflexivity]. intros [_ Honly]. exfalso.
    apply existsb_exists in Hsome. destruct Hsome as (record & Hin & Hrec).
    apply list_elem_of_In in Hin.
    destruct (Honly record Hin) as (Hadded & Hremoved & Hattr).
    apply orb_true_iff in Hrec. destruct Hrec as [Hrec | Hrec].
    2:{ rewrite Hremoved, Hattr in Hrec.
        apply orb_true_iff in Hrec. destruct Hrec as [Hrec | Hrec];
          [discriminate|].
        apply bool_decide_eq_true in Hrec. apply Hrec. reflexivity. }
    apply existsb_exists in Hrec. destruct Hrec as (node & Hnode & Hne).
    apply list_elem_of_In in Hnode.
    rewrite (bool_decide_eq_true_2 _ (Hadded node Hnode)) in Hne.
    discriminate.
  - split; [reflexivity|]. intros Hnot. exfalso. apply Hnot.
    split; [reflexivity|]. intros record Hin.
    apply list_elem_of_In in Hin.
    assert (Hrec : existsb (λ node, negb (bool_decide (node = probe)))
                     (addedNodes record)
                   || ((0 <? length (removedNodes record))
                       || bool_decide (attributeName record ≠ None)) = false).
    { apply not_true_is_false. intros Htrue.
      assert (existsb
                (λ record,
                   existsb (λ node, negb (bool_decide (node = probe)))
                     (addedNodes record)
                   || ((0 <? length (removedNodes record))
                       || bool_decide (attributeName record ≠ None))) records
              = true) by (apply existsb_exists; eauto).
      congruence. }
    apply orb_false_iff in Hrec. destruct Hrec as [Hadded Hrec].
    apply orb_false_iff in Hrec. destruct Hrec as [Hremoved Hattr].
    split_and!.
    + intros node Hnode. apply list_elem_of_In in Hnode.
      destruct (decide (node = probe)) as [Heq | Hne]; [exact Heq|].
      exfalso.
      assert (existsb (λ node, negb (bool_decide (node = probe)))
                (addedNodes record) = true).
      { apply existsb_exists. exists node. split; [exact Hnode|].
        rewrite bool_decide_eq_false_2 by exact Hne. reflexivity. }
      congruence.
    + apply Nat.ltb_ge in Hremoved.
      destruct (removedNodes record); [reflexivity | cbn in Hremoved; lia].
    + apply bool_decide_eq_false in Hattr.
      destruct (attributeName record); [|reflexivity].
      exfalso. apply Hattr. discriminate.
Qed.

End Probe.

(** ** The manager's lifetime *)

Section Lifecycle.
Variable pg : Page.
Variable probe : Node.

(** X6. [stop] is idempotent and keeps the bailed flag and the marks of
    click listeners and scrollbars. It leaves no idle callback pending, an
    empty queue, an empty registry and no visible element or frame,
    whether the manager had bailed or not: on the manager it leaves, the
    measuring step of a query for given types without passed candidates
    has no candidate and measures nothing. *)
Theorem stop_is_final (em : ElementManager) :
  stop (stop em) = stop em
  ∧ bailed (manager (stop em)) = bailed (manager em)
  ∧ elementsWithClickListeners (manager (stop em))
    = elementsWithClickListeners (manager em)
  ∧ elementsWithScrollbars (manager (stop em))
    = elementsWithScrollbars (manager em)
  ∧ idleCallbackId (stop em) = None
  ∧ queue (manager (stop em)) = makeEmptyQueue
  ∧ elements (manager (stop em)) = ∅
  ∧ visibleElements (manager (stop em)) = ∅
  ∧ visibleFrames (manager (stop em)) = ∅
  ∧ ∀ types viewports,
      candidates pg (Types types) None (manager (stop em)) = []
      ∧ measureVisibleElements pg (Types types) viewports None
          (manager (stop em)) = [].
Proof.
  split_and!; try reflexivity.
  intros types viewports.
  assert (Hnone : candidates pg (Types types) None (manager (stop em)) = []).
  { unfold candidates. cbn. destruct (bailed (manager em)).
    - rewrite map_to_list_empty. reflexivity.
    - rewrite elements_empty. reflexivity. }
  split; [exact Hnone|].
  unfold measureVisibleElements. rewrite Hnone. reflexivity.
Qed.

Lemma foldl_entries_snoc (visible : gset Node) (entries : list (Node * bool))
    (entry : Node * bool) :
  foldl
    (λ (visible : gset Node) (entry : Node * bool),
       if bool_decide (entry.1 = probe) then visible
       else if entry.2 then {[entry.1]} ∪ visible else visible ∖ {[entry.1]})
    visible (entries ++ [entry])
  = let visible' :=
      foldl
        (λ (visible : gset Node) (entry : Node * bool),
           if bool_decide (entry.1 = probe) then visible
           else if entry.2 then {[entry.1]} ∪ visible
           else visible ∖ {[entry.1]})
        visible entries in
    if bool_decide (entry.1 = probe) then visible'
    else if entry.2 then {[entry.1]} ∪ visible' else visible' ∖ {[entry.1]}.
Proof. rewrite foldl_app. reflexivity. Qed.

(** X7. After [onIntersection], an element other than the probe is
    visible exactly when the last entry about it says it intersects, or,
    without an entry about it, when it was visible before; entries about
    the probe change nothing. *)
Theorem onIntersection_last_entry_wins (entries : list (Node * bool))
    (em : ElementManager) (e : Node) :
  e ∈ visibleElements (manager (onIntersection probe entries em)) ↔
    match (if bool_decide (e = probe) then None else lastEntry e entries) with
    | Some isIntersecting => isIntersecting = true
    | None => e ∈ visibleElements (manager em)
    end.
Proof.
  unfold onIntersection. cbn.
  induction entries as [|[target b] entries IH] using rev_ind.
  - case_bool_decide; reflexivity.
  - rewrite foldl_entries_snoc. cbn.
    set (visible' := foldl _ _ entries) in *.
    unfold lastEntry in *. rewrite List.filter_app. cbn.
    destruct (decide (e = probe)) as [He | He].
    + rewrite (bool_decide_eq_true_2 _ He) in IH.
      rewrite (bool_decide_eq_true_2 _ He).
      destruct (decide (target = probe)) as [Ht | Ht].
      * rewrite (bool_decide_eq_true_2 _ Ht). exact IH.
      * rewrite (bool_decide_eq_false_2 _ Ht). rewrite <- IH.
        destruct b; sets.
    + rewrite (bool_decide_eq_false_2 _ He) in IH.
      rewrite (bool_decide_eq_false_2 _ He).
      destruct (decide (target = e)) as [Ht | Ht].
      * subst target. rewrite (bool_decide_eq_false_2 _ He).
        rewrite bool_decide_eq_true_2 by reflexivity. cbn.
        rewrite last_snoc. cbn. destruct b; sets.
      * rewrite (bool_decide_eq_false_2 (target = e)) by exact Ht. cbn.
        rewrite app_nil_r, <- IH.
        case_bool_decide; [reflexivity|]. destruct b; sets.
Qed.

Lemma requestIdleCallback_pending (em : ElementManager) :
  idleCallbackId (requestIdleCallback em) ≠ None.
Proof.
  unfold requestIdleCallback.
  destruct (idleCallbackId em) eqn:H; cbn; congruence.
Qed.

Lemma flushQueue_scheduled (d : Deadline) (em : ElementManager) :
  scheduled (flushQueue pg d em).
Proof.
  unfold scheduled, flushQueue.
  destruct (queueLoop _ _ _ _ _) as [m' | m' d'].
  - intros _. apply requestIdleCallback_pending.
  - cbn. congruence.
Qed.

Lemma getVisibleElements_flushes (types : ElementTypes)
    (viewports : list Box.t) (passedCandidates : option (list Node))
    (em : ElementManager) :
  (getVisibleElements pg types viewports passedCandidates em).1
  = if 0 <? length (items (queue (manager em)))
    then flushQueue pg infiniteDeadline em else em.
Proof. reflexivity. Qed.

Lemma handle_scheduled (event : Event) (em : ElementManager) :
  scheduled em → scheduled (handle pg probe event em).
Proof.
  intros Hs. destruct event; cbn [handle].
  - unfold onMutation.
    destruct (if probing then _ else _) as [probed []]; [|exact Hs].
    intros _. apply requestIdleCallback_pending.
  - intros _. apply requestIdleCallback_pending.
  - intros _. apply requestIdleCallback_pending.
  - intros _. apply requestIdleCallback_pending.
  - intros _. apply requestIdleCallback_pending.
  - exact Hs.
  - exact Hs.
  - destruct (idleCallbackId em) eqn:Hid; [|exact Hs].
    apply flushQueue_scheduled.
  - rewrite getVisibleElements_flushes.
    destruct (0 <? length (items (queue (manager em))));
      [apply flushQueue_scheduled | exact Hs].
  - intros H. cbn in H. congruence.
Qed.

(** X8. Whatever happens to a manager from its creation on, while there
    is an item in its queue there is an idle callback pending. *)
Theorem queued_work_is_always_scheduled (events : list Event)
    (attrs : gmap (Node * string) string) :
  let em := run pg probe events (newElementManager attrs) in
  items (queue (manager em)) ≠ [] → idleCallbackId em ≠ None.
Proof.
  cbn zeta.
  change (scheduled (run pg probe events (newElementManager attrs))).
  unfold run.
  assert (H0 : scheduled (newElementManager attrs)) by (intros H; cbn in H; congruence).
  revert H0. generalize (newElementManager attrs).
  induction events as [|event events IH]; intros em Hs; cbn.
  - exact Hs.
  - apply IH, handle_scheduled, Hs.
Qed.

End Lifecycle.

(** X8, after a click listener was reported on the [<div onclick>] of the
    example document. *)
Lemma queued_work_is_always_scheduled_witness :
  items
    (queue
       (manager
          (run examplePage exampleProbe [ClickableElement 5]
             (newElementManager exampleAttributes)))) ≠ []
  ∧ idleCallbackId
      (run examplePage exampleProbe [ClickableElement 5]
         (newElementManager exampleAttributes)) ≠ None.
Proof.
  split; [discriminate|].
  apply (queued_work_is_always_scheduled examplePage exampleProbe
           [ClickableElement 5] exampleAttributes).
  discriminate.
Defined.

(** ** The queue processor under the infinite deadline *)

Section InfiniteDeadline.
Variable pg : Page.

Lemma overBudget_infiniteDeadline (advanced : bool) :
  overBudget advanced infiniteDeadline = (false, infiniteDeadline).
Proof. destruct advanced; reflexivity. Qed.

Lemma addedChildren_completes (start : nat) (rest : list Node)
    (item : RecordsItem) (m : Manager) :
  completes (addedChildren pg infiniteDeadline start rest item m).
Proof.
  revert item m. induction rest as [|child rest IH]; intros item m; cbn.
  - eexists. reflexivity.
  - rewrite overBudget_infiniteDeadline. apply IH.
Qed.

Lemma removedChildren_completes (start : nat) (rest : list Node)
    (item : RecordsItem) (m : Manager) :
  completes (removedChildren pg infiniteDeadline start rest item m).
Proof.
  revert item m. induction rest as [|child rest IH]; intros item m; cbn.
  - eexists. reflexivity.
  - rewrite overBudget_infiniteDeadline. apply IH.
Qed.

Lemma walkChildren_completes
    (walk : Deadline → nat → list Node → RecordsItem → Manager
            → Outcome (RecordsItem * Manager))
    (item : RecordsItem) (m : Manager) :
  (∀ start rest item m, completes (walk infiniteDeadline start rest item m)) →
  completes (walkChildren walk infiniteDeadline item m).
Proof.
  intros Hwalk. unfold walkChildren.
  destruct (children item) as [c|]; [|eexists; reflexivity].
  destruct (0 <? length c); [|eexists; reflexivity].
  destruct (Hwalk (childIndex item) (drop (childIndex item) c) item m)
    as [[item' m'] ->].
  eexists. reflexivity.
Qed.

Lemma addedNode_completes (element : Node) (item : RecordsItem) (m : Manager) :
  completes (addedNode pg infiniteDeadline element item m).
Proof.
  unfold addedNode.
  destruct (_ && _).
  - destruct (bool_decide _); [eexists; reflexivity|].
    change (exhausted infiniteDeadline) with false. cbv iota.
    change (later infiniteDeadline) with infiniteDeadline.
    apply walkChildren_completes, addedChildren_completes.
  - apply walkChildren_completes, addedChildren_completes.
Qed.

Lemma removedNode_completes (element : Node) (item : RecordsItem) (m : Manager) :
  completes (removedNode pg infiniteDeadline element item m).
Proof.
  unfold removedNode.
  destruct (_ && _).
  - change (exhausted infiniteDeadline) with false. cbv iota.
    change (later infiniteDeadline) with infiniteDeadline.
    apply walkChildren_completes, removedChildren_completes.
  - apply walkChildren_completes, removedChildren_completes.
Qed.

Lemma addedLoop_completes (start : nat) (rest : list Node)
    (item : RecordsItem) (m : Manager) :
  completes (addedLoop pg infiniteDeadline start rest item m).
Proof.
  revert item m. induction rest as [|element rest IH]; intros item m; cbn.
  - eexists. reflexivity.
  - rewrite overBudget_infiniteDeadline.
    destruct (addedNode_completes element item m) as [[item' m'] ->].
    apply IH.
Qed.

Lemma removedLoop_completes (start : nat) (rest : list Node)
    (item : RecordsItem) (m : Manager) :
  completes (removedLoop pg infiniteDeadline start rest item m).
Proof.
  revert item m. induction rest as [|element rest IH]; intros item m; cbn.
  - eexists. reflexivity.
  - rewrite overBudget_infiniteDeadline.
    destruct (removedNode_completes element item m) as [[item' m'] ->].
    apply IH.
Qed.

Lemma processRecord_completes (record : Record_) (item : RecordsItem)
    (m : Manager) :
  completes (processRecord pg infiniteDeadline record item m).
Proof.
  unfold processRecord.
  assert (H : completes
                (if removalsOnly item then Next (item, m) infiniteDeadline
                 else addedLoop pg infiniteDeadline (addedNodeIndex item)
                        (drop (addedNodeIndex item) (addedNodes record))
                        item m)).
  { destruct (removalsOnly item);
      [eexists; reflexivity | apply addedLoop_completes]. }
  destruct H as [[item1 m1] ->].
  destruct (removedLoop_completes (removedNodeIndex item)
              (drop (removedNodeIndex item1) (removedNodes record)) item1 m1)
    as [[item2 m2] ->].
  eexists. reflexivity.
Qed.

Lemma recordLoop_completes (start : nat) (rest : list Record_)
    (item : RecordsItem) (m : Manager) :
  completes (recordLoop pg infiniteDeadline start rest item m).
Proof.
  revert item m. induction rest as [|record rest IH]; intros item m; cbn.
  - eexists. reflexivity.
  - rewrite overBudget_infiniteDeadline.
    destruct (processRecord_completes record item m) as [[item' m'] ->].
    apply IH.
Qed.

Lemma queueLoop_completes (start : nat) (rest : list QueueItem) (m : Manager) :
  completes (queueLoop pg infiniteDeadline start rest m).
Proof.
  revert m. induction rest as [|item rest IH]; intros m; cbn.
  - eexists. reflexivity.
  - rewrite overBudget_infiniteDeadline. destruct item as [item | |].
    + destruct (recordLoop_completes (recordIndex item)
                  (drop (recordIndex item) (records item)) item m)
        as [[item' m'] ->].
      apply IH.
    + apply IH.
    + apply IH.
Qed.

(** X9. With the infinite deadline [flushQueue] never yields: it leaves
    the empty queue, disconnects the removal observer and requests no idle
    callback. So the queue is empty after the queue step of
    [getVisibleElements]. *)
Theorem infinite_deadline_drains (em : ElementManager) :
  (let em' := flushQueue pg infiniteDeadline em in
   queue (manager em') = makeEmptyQueue
   ∧ removalObserver (manager em') = ∅
   ∧ idleCallbackId em' = idleCallbackId em)
  ∧ ∀ types viewports passedCandidates,
      items
        (queue
           (manager
              (getVisibleElements pg types viewports passedCandidates em).1))
      = [].
Proof.
  assert (H : let em' := flushQueue pg infiniteDeadline em in
              queue (manager em') = makeEmptyQueue
              ∧ removalObserver (manager em') = ∅
              ∧ idleCallbackId em' = idleCallbackId em).
  { unfold flushQueue.
    destruct (queueLoop_completes (index (queue (manager em)))
                (drop (index (queue (manager em)))
                   (items (queue (manager em)))) (manager em)) as [m' ->].
    cbn. split_and!; reflexivity. }
  split; [exact H|].
  intros types viewports passedCandidates.
  change ((getVisibleElements pg types viewports passedCandidates em).1)
    with (if 0 <? length (items (queue (manager em)))
          then flushQueue pg infiniteDeadline em else em).
  destruct (0 <? length (items (queue (manager em)))) eqn:Hlen.
  - destruct H as (-> & _). reflexivity.
  - apply Nat.ltb_ge in Hlen. destruct (items (queue (manager em)));
      [reflexivity | cbn in Hlen; lia].
Qed.

End InfiniteDeadline.

(** ** Invariants of a run

    A property of the manager that the queue updates, the registry
    update, the two signals and the callbacks preserve holds at every
    yield and at the end of every loop of [flushQueue], and so after
    every run. *)

Section Invariant.
Variable pg : Page.
Variable probe : Node.
Variable P : Manager → Prop.
Hypothesis P_queue : ∀ q m, P m → P (set_queue q m).
Hypothesis P_addOrRemoveElement :
  ∀ mt e m, P m → P (addOrRemoveElement pg mt e m).
Hypothesis P_clickableChanged :
  ∀ target b m, P m → P (clickableChanged pg target b m).
Hypothesis P_overflowChanged :
  ∀ target m, P m → P (overflowChanged pg target m).
Hypothesis P_removalObserver : ∀ s m, P m → P (set_removalObserver s m).

Lemma addedChildren_invariant (d : Deadline) (start : nat) (rest : list Node)
    (item : RecordsItem) (m : Manager) :
  P m → ends (ofManager P) (addedChildren pg d start rest item m).
Proof.
  revert d item m. induction rest as [|child rest IH]; intros d item m Hm; cbn.
  - exact Hm.
  - destruct (overBudget _ d) as [[] d']; [exact Hm|].
    apply IH. destruct (bool_decide _); [exact Hm|].
    apply P_queue, P_addOrRemoveElement, Hm.
Qed.

Lemma removedChildren_invariant (d : Deadline) (start : nat) (rest : list Node)
    (item : RecordsItem) (m : Manager) :
  P m → ends (ofManager P) (removedChildren pg d start rest item m).
Proof.
  revert d item m. induction rest as [|child rest IH]; intros d item m Hm; cbn.
  - exact Hm.
  - destruct (overBudget _ d) as [[] d']; [exact Hm|].
    apply IH. apply P_queue, P_addOrRemoveElement, Hm.
Qed.

Lemma walkChildren_invariant
    (walk : Deadline → nat → list Node → RecordsItem → Manager
            → Outcome (RecordsItem * Manager))
    (d : Deadline) (item : RecordsItem) (m : Manager) :
  (∀ d start rest item m, P m → ends (ofManager P) (walk d start rest item m)) →
  P m → ends (ofManager P) (walkChildren walk d item m).
Proof.
  intros Hwalk Hm. unfold walkChildren.
  destruct (children item) as [c|]; [|exact Hm].
  destruct (0 <? length c); [|exact Hm].
  specialize (Hwalk d (childIndex item) (drop (childIndex item) c) item m Hm).
  destruct (walk _ _ _ _ _) as [[item' m'] | [item' m'] d']; exact Hwalk.
Qed.

Lemma addedNode_invariant (d : Deadline) (element : Node) (item : RecordsItem)
    (m : Manager) :
  P m → ends (ofManager P) (addedNode pg d element item m).
Proof.
  intros Hm. unfold addedNode.
  destruct (_ && _).
  - destruct (bool_decide _); [exact Hm|].
    assert (Hm' : P (addedElements_add element
                       (addOrRemoveElement pg added element m)))
      by apply P_queue, P_addOrRemoveElement, Hm.
    destruct (exhausted d); [exact Hm'|].
    apply walkChildren_invariant; [apply addedChildren_invariant | exact Hm'].
  - apply walkChildren_invariant; [apply addedChildren_invariant | exact Hm].
Qed.

Lemma removedNode_invariant (d : Deadline) (element : Node)
    (item : RecordsItem) (m : Manager) :
  P m → ends (ofManager P) (removedNode pg d element item m).
Proof.
  intros Hm. unfold removedNode.
  destruct (_ && _).
  - assert (Hm' : P (addedElements_delete element
                       (addOrRemoveElement pg removed element m)))
      by apply P_queue, P_addOrRemoveElement, Hm.
    destruct (exhausted d); [exact Hm'|].
    apply walkChildren_invariant; [apply removedChildren_invariant | exact Hm'].
  - apply walkChildren_invariant; [apply removedChildren_invariant | exact Hm].
Qed.

Lemma addedLoop_invariant (d : Deadline) (start : nat) (rest : list Node)
    (item : RecordsItem) (m : Manager) :
  P m → ends (ofManager P) (addedLoop pg d start rest item m).
Proof.
  revert d item m. induction rest as [|element rest IH]; intros d item m Hm; cbn.
  - exact Hm.
  - destruct (overBudget _ d) as [[] d']; [exact Hm|].
    pose proof (addedNode_invariant d' element item m Hm) as H.
    destruct (addedNode pg d' element item m) as [[item' m'] | [item' m'] d''];
      [exact H | apply IH, H].
Qed.

Lemma removedLoop_invariant (d : Deadline) (start : nat) (rest : list Node)
    (item : RecordsItem) (m : Manager) :
  P m → ends (ofManager P) (removedLoop pg d start rest item m).
Proof.
  revert d item m. induction rest as [|element rest IH]; intros d item m Hm; cbn.
  - exact Hm.
  - destruct (overBudget _ d) as [[] d']; [exact Hm|].
    pose proof (removedNode_invariant d' element item m Hm) as H.
    destruct (removedNode pg d' element item m) as [[item' m'] | [item' m'] d''];
      [exact H | apply IH, H].
Qed.

Lemma processRecord_invariant (d : Deadline) (record : Record_)
    (item : RecordsItem) (m : Manager) :
  P m → ends (ofManager P) (processRecord pg d record item m).
Proof.
  intros Hm. unfold processRecord.
  assert (H : ends (ofManager P)
                (if removalsOnly item then Next (item, m) d
                 else addedLoop pg d (addedNodeIndex item)
                        (drop (addedNodeIndex item) (addedNodes record))
                        item m)).
  { destruct (removalsOnly item); [exact Hm | apply addedLoop_invariant, Hm]. }
  destruct (if removalsOnly item then _ else _)
    as [[item1 m1] | [item1 m1] d1]; [exact H|].
  pose proof (removedLoop_invariant d1 (removedNodeIndex item)
                (drop (removedNodeIndex item1) (removedNodes record))
                item1 m1 H) as H'.
  destruct (removedLoop _ _ _ _ _ _) as [[item2 m2] | [item2 m2] d2];
    [exact H'|].
  cbn. destruct (_ && _); [apply P_addOrRemoveElement, H' | exact H'].
Qed.

Lemma recordLoop_invariant (d : Deadline) (start : nat) (rest : list Record_)
    (item : RecordsItem) (m : Manager) :
  P m → ends (ofManager P) (recordLoop pg d start rest item m).
Proof.
  revert d item m. induction rest as [|record rest IH]; intros d item m Hm; cbn.
  - exact Hm.
  - destruct (overBudget _ d) as [[] d']; [exact Hm|].
    pose proof (processRecord_invariant d' record item m Hm) as H.
    destruct (processRecord pg d' record item m)
      as [[item' m'] | [item' m'] d'']; [exact H | apply IH, H].
Qed.

Lemma queueLoop_invariant (d : Deadline) (start : nat) (rest : list QueueItem)
    (m : Manager) :
  P m → ends P (queueLoop pg d start rest m).
Proof.
  revert d m. induction rest as [|item rest IH]; intros d m Hm; cbn.
  - exact Hm.
  - destruct (overBudget _ d) as [[] d']; [exact Hm|].
    destruct item as [item | target b | target].
    + pose proof (recordLoop_invariant d' (recordIndex item)
                    (drop (recordIndex item) (records item)) item m Hm) as H.
      destruct (recordLoop _ _ _ _ _ _) as [[item' m'] | [item' m'] d''].
      * apply P_queue, H.
      * apply IH, P_queue, P_queue, H.
    + apply IH, P_queue, P_clickableChanged, Hm.
    + apply IH, P_queue, P_overflowChanged, Hm.
Qed.

Lemma flushQueue_invariant (d : Deadline) (em : ElementManager) :
  P (manager em) → P (manager (flushQueue pg d em)).
Proof.
  intros Hm. unfold flushQueue.
  pose proof (queueLoop_invariant d (index (queue (manager em)))
                (drop (index (queue (manager em)))
                   (items (queue (manager em)))) (manager em) Hm) as H.
  destruct (queueLoop _ _ _ _ _) as [m' | m' d'].
  - unfold requestIdleCallback. destruct (idleCallbackId em); exact H.
  - apply P_removalObserver, P_queue, H.
Qed.

Hypothesis P_onIntersection :
  ∀ entries em, P (manager em) → P (manager (onIntersection probe entries em)).
Hypothesis P_onFrameIntersection :
  ∀ entries em, P (manager em) → P (manager (onFrameIntersection pg entries em)).
Hypothesis P_stop : ∀ em, P (manager em) → P (manager (stop em)).

Lemma queueItem_invariant (item : QueueItem) (em : ElementManager) :
  P (manager em) → P (manager (queueItem item em)).
Proof.
  intros Hm. unfold queueItem, requestIdleCallback. cbn.
  destruct (idleCallbackId em); cbn; apply P_queue, Hm.
Qed.

Lemma handle_invariant (event : Event) (em : ElementManager) :
  P (manager em) → P (manager (handle pg probe event em)).
Proof.
  intros Hm. destruct event; cbn [handle].
  - unfold onMutation.
    destruct (if probing then _ else _) as [probed []]; [|exact Hm].
    apply P_removalObserver, queueItem_invariant, Hm.
  - apply P_removalObserver, queueItem_invariant, Hm.
  - apply queueItem_invariant, Hm.
  - apply queueItem_invariant, Hm.
  - apply queueItem_invariant, Hm.
  - apply P_onIntersection, Hm.
  - apply P_onFrameIntersection, Hm.
  - destruct (idleCallbackId em); [|exact Hm].
    apply flushQueue_invariant, Hm.
  - change ((getVisibleElements pg types viewports passedCandidates em).1)
      with (if 0 <? length (items (queue (manager em)))
            then flushQueue pg infiniteDeadline em else em).
    destruct (0 <? _); [apply flushQueue_invariant, Hm | exact Hm].
  - apply P_stop, Hm.
Qed.

Lemma run_invariant (events : list Event) (em : ElementManager) :
  P (manager em) → P (manager (run pg probe events em)).
Proof.
  unfold run. revert em.
  induction events as [|event events IH]; intros em Hm; cbn.
  - exact Hm.
  - apply IH, handle_invariant, Hm.
Qed.

End Invariant.

(** ** What the observers watch *)

Section Tracking.
Variable pg : Page.
Variable probe : Node.

Lemma tracked_queue (q : Queue) (m : Manager) :
  tracked m → tracked (set_queue q m).
Proof. intros H. exact H. Qed.

Lemma tracked_consumeEventAttribute (e : Node) (m : Manager) :
  tracked m → tracked (consumeEventAttribute pg e m).
Proof.
  unfold tracked, consumeEventAttribute. repeat case_match; cbn in *; try done;
    congruence.
Qed.

Lemma tracked_addOrRemoveElement (mt : MutationType) (e : Node) (m : Manager) :
  tracked m → tracked (addOrRemoveElement pg mt e m).
Proof.
  intros Hm. unfold addOrRemoveElement.
  assert (H1 : tracked (consumeEventAttribute pg e
                          (set_trace ((mt, e) :: trace m) m))).
  { apply tracked_consumeEventAttribute. exact Hm. }
  set (m1 := consumeEventAttribute pg e _) in *. clearbody m1.
  destruct (isFrame pg e).
  { destruct mt; exact H1. }
  destruct (if decide (mt = removed) then None else getElementType pg m1 e)
    as [ty|].
  - cbn. unfold tracked in H1. destruct (bailed m1) eqn:Hb.
    + unfold tracked. cbn. rewrite Hb. exact H1.
    + destruct H1 as [Hobs Hsize].
      destruct (_ <? _)%Z eqn:Hlt.
      * unfold bail, tracked. cbn. rewrite Hb. cbn. reflexivity.
      * unfold tracked. cbn. rewrite Hb. split.
        -- rewrite dom_insert_L, Hobs. reflexivity.
        -- apply Z.ltb_ge in Hlt. exact Hlt.
  - destruct (decide (mt ≠ added)); [|exact H1].
    unfold tracked in *. cbn. destruct (bailed m1).
    + rewrite H1. sets.
    + destruct H1 as [Hobs Hsize]. split.
      * rewrite dom_delete_L, Hobs. reflexivity.
      * pose proof (map_size_delete e (elements m1)) as Hdel.
        destruct (elements m1 !! e); cbn in Hdel; unfold id in Hdel; lia.
Qed.


Lemma tracked_clickableChanged (target : Node) (b : bool) (m : Manager) :
  tracked m → tracked (clickableChanged pg target b m).
Proof.
  intros Hm. unfold clickableChanged.
  destruct (instanceof _ _); [|exact Hm].
  apply tracked_addOrRemoveElement. exact Hm.
Qed.

Lemma tracked_overflowChanged (target : Node) (m : Manager) :
  tracked m → tracked (overflowChanged pg target m).
Proof.
  intros Hm. unfold overflowChanged.
  repeat case_match; try exact Hm; apply tracked_addOrRemoveElement; exact Hm.
Qed.

(** X10. Whatever happens to a manager from its creation on, the
    elements that it has the intersection observer watch are at most
    [MAX_INTERSECTION_OBSERVED_ELEMENTS]: exactly the elements of the
    registry while it has not bailed, and none once it has. *)
Theorem observer_follows_registry (events : list Event)
    (attrs : gmap (Node * string) string) :
  let m := manager (run pg probe events (newElementManager attrs)) in
  (Z.of_nat (size (intersectionObserver m))
   <= t.MAX_INTERSECTION_OBSERVED_ELEMENTS)%Z
  ∧ (bailed m = false → intersectionObserver m = dom (elements m))
  ∧ (bailed m = true → intersectionObserver m = ∅).
Proof.
  intros m.
  assert (Hm : tracked m).
  { subst m. apply (run_invariant pg probe tracked).
    - apply tracked_queue.
    - apply tracked_addOrRemoveElement.
    - apply tracked_clickableChanged.
    - apply tracked_overflowChanged.
    - intros s m Hm. exact Hm.
    - intros entries em Hm. exact Hm.
    - intros entries em Hm. exact Hm.
    - intros em _. unfold tracked. cbn.
      destruct (bailed (manager em)); [reflexivity|].
      rewrite dom_empty_L, map_size_empty. split; [reflexivity | done].
    - unfold tracked. cbn. rewrite dom_empty_L, map_size_empty.
      split; [reflexivity | done]. }
  unfold tracked in Hm. destruct (bailed m).
  - rewrite Hm, size_empty. split_and!; done.
  - destruct Hm as [Hobs Hsize]. rewrite Hobs, size_dom.
    split_and!; done.
Qed.

End Tracking.

Section Frames.
Variable pg : Page.
Variable probe : Node.
Variable rendering : Rendering.

Lemma framesOnly_addOrRemoveElement (mt : MutationType) (e : Node)
    (m : Manager) :
  framesOnly pg m → framesOnly pg (addOrRemoveElement pg mt e m).
Proof.
  intros Hm e'. unfold addOrRemoveElement.
  destruct (consumeEventAttribute_fields pg e
              (set_trace ((mt, e) :: trace m) m))
    as (_ & _ & _ & Hvf & _ & _ & _ & Hf & _).
  set (m1 := consumeEventAttribute pg e _) in *. cbn in Hvf, Hf.
  clearbody m1.
  destruct (isFrame pg e) eqn:Hframe.
  - destruct mt; cbn; rewrite ?Hvf, ?Hf; intros Hin.
    + destruct (decide (e' = e)) as [-> | Hne]; [exact Hframe|].
      apply Hm. sets.
    + apply Hm. sets.
    + apply Hm. exact Hin.
  - unfold bail. repeat case_match; cbn; rewrite ?Hvf, ?Hf; apply Hm.
Qed.

Lemma framesOnly_onFrameIntersection (entries : list (Node * bool))
    (em : ElementManager) :
  framesOnly pg (manager em) →
  framesOnly pg (manager (onFrameIntersection pg entries em)).
Proof.
  unfold onFrameIntersection, framesOnly. cbn.
  generalize (visibleFrames (manager em)) as visible.
  generalize (frameIntersectionObserver (manager em)) as observed.
  induction entries as [|[target b] entries IH]; intros observed visible Hm;
    cbn; [exact Hm|].
  apply IH. intros e Hin.
  destruct (isFrame pg target) eqn:Hframe; [|apply Hm, Hin].
  destruct b.
  - destruct (decide (e = target)) as [-> | Hne]; [exact Hframe|].
    apply Hm. sets.
  - apply Hm. sets.
Qed.

(** X11. Whatever happens to a manager from its creation on, a visible
    frame is an [<iframe>] or [<frame>]; and what [getVisibleFrames]
    returns is a visible frame with a [contentWindow] whose visible box is
    wider and higher than [MIN_SIZE_FRAME]. *)
Theorem visible_frames_are_frames (events : list Event)
    (attrs : gmap (Node * string) string) (viewports : list Box.t) (e : Node) :
  let m := manager (run pg probe events (newElementManager attrs)) in
  (e ∈ visibleFrames m → isFrame pg e = true)
  ∧ (e ∈ getVisibleFrames pg rendering viewports m →
     e ∈ visibleFrames m
     ∧ isFrame pg e = true
     ∧ hasContentWindow rendering e = true
     ∧ ∃ box,
         getVisibleBox pg (getBoundingClientRect pg e) viewports = Some box
         ∧ (t.MIN_SIZE_FRAME < Box.width box)%Q
         ∧ (t.MIN_SIZE_FRAME < Box.height box)%Q).
Proof.
  intros m.
  assert (Hm : framesOnly pg m).
  { subst m. apply (run_invariant pg probe (framesOnly pg)).
    - intros q m Hm. exact Hm.
    - apply framesOnly_addOrRemoveElement.
    - intros target b m Hm. unfold clickableChanged.
      destruct (instanceof _ _); [|exact Hm].
      apply framesOnly_addOrRemoveElement. exact Hm.
    - intros target m Hm. unfold overflowChanged.
      repeat case_match; try exact Hm;
        apply framesOnly_addOrRemoveElement; exact Hm.
    - intros s m Hm. exact Hm.
    - intros entries em Hm. exact Hm.
    - apply framesOnly_onFrameIntersection.
    - intros em _ e'. cbn. sets.
    - intros e'. cbn. sets. }
  split; [intros Hin; apply Hm; auto|].
  unfold getVisibleFrames. rewrite list_elem_of_omap.
  intros (e' & Hin & Hsome). apply elem_of_elements in Hin.
  destruct (hasContentWindow rendering e') eqn:Hwin; [|discriminate].
  cbn in Hsome.
  destruct (getVisibleBox pg (getBoundingClientRect pg e') viewports)
    as [box|] eqn:Hbox; [|discriminate].
  destruct (Qlt_bool _ _ && Qlt_bool _ _) eqn:Hsize; [|discriminate].
  injection Hsome as <-.
  apply andb_true_iff in Hsize. destruct Hsize as [Hw Hh].
  unfold Qlt_bool in Hw, Hh. apply negb_true_iff in Hw, Hh.
  split_and!; [exact Hin | apply Hm; auto | exact Hwin |].
  exists box. split_and!; [exact Hbox | |].
  - apply Qnot_le_lt. intros Hle. apply Qle_bool_iff in Hle. congruence.
  - apply Qnot_le_lt. intros Hle. apply Qle_bool_iff in Hle. congruence.
Qed.

End Frames.

(** ** What the registry holds, and the two signals *)

Section Registered.
Variable pg : Page.
Variable probe : Node.




Lemma addOrRemoveElement_changed (e : Node) (m : Manager) :
  isFrame pg e = false →
  elements (addOrRemoveElement pg changed e m) !! e
  = getElementType pg (addOrRemoveElement pg changed e m) e.
Proof.
  intros Hframe. rewrite getElementType_after.
  rewrite (getElementType_ext pg (consumeEventAttribute pg e m)
             (consumeEventAttribute pg e
                (set_trace ((changed, e) :: trace m) m)) e)
    by (unfold consumeEventAttribute, getAttribute; cbn;
        repeat case_match; reflexivity).
  unfold addOrRemoveElement. rewrite Hframe.
  set (m1 := consumeEventAttribute pg e (set_trace _ m)). clearbody m1.
  cbn. rewrite decide_False by discriminate.
  destruct (getElementType pg m1 e) as [ty|]; cbn.
  - unfold bail. repeat case_match; cbn; rewrite lookup_insert_eq; reflexivity.
  - rewrite decide_True by discriminate. cbn. apply lookup_delete_eq.
Qed.

Lemma overflowChanged_stable (target : Node) (m : Manager) :
  (instanceof (interface pg target) HTMLElement = true →
   (target ∈ elementsWithScrollbars m ↔ isScrollable pg target = true)) →
  overflowChanged pg target m = m.
Proof.
  intros H. unfold overflowChanged.
  destruct (instanceof (interface pg target) HTMLElement); [|reflexivity].
  specialize (H eq_refl).
  destruct (isScrollable pg target); case_bool_decide as Hin;
    try reflexivity; exfalso.
  - apply Hin, H. reflexivity.
  - apply H in Hin. discriminate.
Qed.

Lemma overflowChanged_scrollbars (target e : Node) (m : Manager) :
  e ∈ elementsWithScrollbars (overflowChanged pg target m)
  ↔ (if bool_decide (e = target)
        && instanceof (interface pg target) HTMLElement
     then isScrollable pg target = true
     else e ∈ elementsWithScrollbars m).
Proof.
  unfold overflowChanged.
  destruct (instanceof (interface pg target) HTMLElement).
  2:{ rewrite andb_false_r. reflexivity. }
  rewrite andb_true_r.
  destruct (isScrollable pg target); case_bool_decide as Hin;
    rewrite ?(proj1 (addOrRemoveElement_marks pg changed target _)); cbn;
    case_bool_decide as Heq; subst; sets.
Qed.

(** X13. The [OverflowChanged] case of [flushQueue] settles: done twice
    it does what it does once; afterwards an HTML element is marked as
    having scrollbars exactly when [isScrollable] holds of it; when the
    mark already agrees with [isScrollable] nothing at all happens; and no
    other element's mark changes. *)
Theorem overflowChanged_settles (target : Node) (m : Manager) :
  overflowChanged pg target (overflowChanged pg target m)
  = overflowChanged pg target m
  ∧ (instanceof (interface pg target) HTMLElement = true →
     (target ∈ elementsWithScrollbars (overflowChanged pg target m)
      ↔ isScrollable pg target = true))
  ∧ ((target ∈ elementsWithScrollbars m ↔ isScrollable pg target = true) →
     overflowChanged pg target m = m)
  ∧ (∀ e, e ≠ target →
       (e ∈ elementsWithScrollbars (overflowChanged pg target m)
        ↔ e ∈ elementsWithScrollbars m)).
Proof.
  assert (Hmark : instanceof (interface pg target) HTMLElement = true →
            (target ∈ elementsWithScrollbars (overflowChanged pg target m)
             ↔ isScrollable pg target = true)).
  { intros Hhtml. rewrite overflowChanged_scrollbars, Hhtml.
    rewrite bool_decide_eq_true_2 by reflexivity. reflexivity. }
  split_and!.
  - apply overflowChanged_stable, Hmark.
  - exact Hmark.
  - intros H. apply overflowChanged_stable. intros _. exact H.
  - intros e Hne. rewrite overflowChanged_scrollbars.
    rewrite bool_decide_eq_false_2 by exact Hne. reflexivity.
Qed.

(** X14. The [ClickableChanged] case of [flushQueue], for an HTML element
    without event attribute: afterwards the element is marked as having a
    click listener exactly when the item said clickable, no other mark
    changes, and unless it is a frame its entry in the registry is what
    [getElementType] then says of it. *)
Theorem clickableChanged_marks (target : Node) (isClickable : bool)
    (m : Manager) :
  instanceof (interface pg target) HTMLElement = true →
  getAttribute m target (EVENT_ATTRIBUTE pg) = None →
  (target ∈ elementsWithClickListeners
              (clickableChanged pg target isClickable m)
   ↔ isClickable = true)
  ∧ (∀ e, e ≠ target →
       (e ∈ elementsWithClickListeners
              (clickableChanged pg target isClickable m)
        ↔ e ∈ elementsWithClickListeners m))
  ∧ elementsWithScrollbars (clickableChanged pg target isClickable m)
    = elementsWithScrollbars m
  ∧ (isFrame pg target = false →
     elements (clickableChanged pg target isClickable m) !! target
     = getElementType pg (clickableChanged pg target isClickable m) target).
Proof.
  intros Hhtml Hattr. unfold clickableChanged. rewrite Hhtml.
  set (m0 := set_elementsWithClickListeners _ m).
  assert (Hattr0 : getAttribute m0 target (EVENT_ATTRIBUTE pg) = None)
    by exact Hattr.
  destruct (addOrRemoveElement_marks pg changed target m0)
    as (Hs & Hc & _).
  rewrite (consumeEventAttribute_absent pg target m0 Hattr0) in Hc.
  rewrite Hc, Hs. split_and!.
  - subst m0. cbn. destruct isClickable; split; try done; sets.
  - intros e Hne. subst m0. cbn. destruct isClickable; sets.
  - reflexivity.
  - apply addOrRemoveElement_changed.
Qed.

End Registered.


(** X14, at the [<div onclick>] of the example document. *)
Lemma clickableChanged_marks_witness :
  instanceof (interface examplePage 5) HTMLElement = true
  ∧ 5 ∈ elementsWithClickListeners
          (clickableChanged examplePage 5 true exampleManager).
Proof.
  split; [reflexivity|].
  destruct (clickableChanged_marks examplePage 5 true exampleManager
              eq_refl eq_refl) as (Hm & _).
  apply Hm. reflexivity.
Defined.

(** ** Position keys and the deduper *)

Lemma pretty_N_char_commaFree (x : N) : String (pretty_N_char x) "" ≠ ",".
Proof. unfold pretty_N_char. repeat case_match; discriminate. Qed.

Lemma pretty_N_go_commaFree (x : N) (s : string) :
  commaFree s → commaFree (pretty_N_go x s).
Proof.
  revert s. induction (N.lt_wf_0 x) as [x _ IH]. intros s Hs.
  destruct (decide (x = 0%N)) as [-> | Hx].
  - rewrite pretty_N_go_0. exact Hs.
  - rewrite pretty_N_go_step by lia. apply IH.
    + apply N.div_lt; lia.
    + split; [apply pretty_N_char_commaFree | exact Hs].
Qed.

Lemma pretty_Z_commaFree (z : Z) : commaFree (pretty z).
Proof.
  assert (HN : ∀ n : N, commaFree (pretty n)).
  { intros n. unfold pretty, pretty_N. case_decide.
    - split; [discriminate | exact I].
    - apply pretty_N_go_commaFree. exact I. }
  destruct z as [|p|p]; unfold pretty, pretty_Z.
  - split; [discriminate | exact I].
  - apply HN.
  - split; [discriminate | apply HN].
Qed.

Lemma app_comma_inj (a a' r r' : string) :
  commaFree a → commaFree a' →
  a +:+ "," +:+ r = a' +:+ "," +:+ r' → a = a' ∧ r = r'.
Proof.
  revert a'. induction a as [|c a IH]; intros [|c' a'] Ha Ha' Heq;
    cbn in Heq.
  - injection Heq as Heq. subst. auto.
  - injection Heq as Hc Heq.
    destruct Ha' as [Hc' _]. exfalso. apply Hc'. rewrite <- Hc. reflexivity.
  - injection Heq as Hc Heq.
    destruct Ha as [Hc' _]. exfalso. apply Hc'. rewrite Hc. reflexivity.
  - injection Heq as Hc Heq. destruct Ha as [_ Ha], Ha' as [_ Ha'].
    destruct (IH a' Ha Ha' Heq) as [-> ->]. subst. auto.
Qed.

(** X15. Two measurements have the same position key exactly when their
    [x] and their [y] round to the same integers and they are aligned
    alike. *)
Theorem hintPositionKey_same_pixel (a b : HintMeasurements.t) :
  hintPositionKey a = hintPositionKey b ↔
    Math_round (HintMeasurements.x a) = Math_round (HintMeasurements.x b)
    ∧ Math_round (HintMeasurements.y a) = Math_round (HintMeasurements.y b)
    ∧ HintMeasurements.align a = HintMeasurements.align b.
Proof.
  unfold hintPositionKey. split.
  - cbn [String.concat]. intros Hkey.
    apply app_comma_inj in Hkey; [|apply pretty_Z_commaFree..].
    destruct Hkey as [Hx Hkey].
    apply app_comma_inj in Hkey; [|apply pretty_Z_commaFree..].
    destruct Hkey as [Hy Halign].
    apply (inj pretty) in Hx, Hy. split_and!; [exact Hx | exact Hy |].
    destruct (HintMeasurements.align a), (HintMeasurements.align b);
      done.
  - intros (-> & -> & ->). reflexivity.
Qed.

Section DeduperAll.
Variable pg : Page.

Lemma atKey_snoc (k : string) (l : list VisibleElement) (x : VisibleElement) :
  atKey k (l ++ [x])
  = atKey k l
    ++ (if bool_decide (hintPositionKey (measurements x) = k) then [x] else []).
Proof. unfold atKey. rewrite List.filter_app. reflexivity. Qed.

Lemma elem_of_atKey (k : string) (l : list VisibleElement) (x : VisibleElement) :
  x ∈ atKey k l ↔ x ∈ l ∧ hintPositionKey (measurements x) = k.
Proof.
  unfold atKey. rewrite !list_elem_of_In, List.filter_In, bool_decide_eq_true.
  reflexivity.
Qed.

Lemma filter_nonempty {A} (f : A → bool) (l : list A) :
  (0 <? length (List.filter f l)) = true ↔ ∃ x, x ∈ l ∧ f x = true.
Proof.
  rewrite Nat.ltb_lt. split.
  - destruct (List.filter f l) as [|x l'] eqn:Hf; cbn; [lia|]. intros _.
    exists x. rewrite list_elem_of_In. apply List.filter_In. rewrite Hf.
    left. reflexivity.
  - intros (x & Hin & Hfx). apply list_elem_of_In in Hin.
    assert (H : In x (List.filter f l)) by (apply List.filter_In; auto).
    destruct (List.filter f l); [destruct H | cbn; lia].
Qed.

(** What one addition rejects. *)
Lemma Deduper_add_rejected (ve : VisibleElement) (d : Deduper) (e : Node) :
  e ∈ rejected (Deduper_add pg ve d) ↔
    e ∈ rejected d ∨ e ∈ labelsOf pg (element ve)
    ∨ ∃ group x y,
        positionMap d !! hintPositionKey (measurements ve) = Some group
        ∧ x ∈ group ++ [ve] ∧ y ∈ group ++ [ve] ∧ e = element x
        ∧ isLowQuality x = true ∧ isLowQuality y = false.
Proof.
  unfold Deduper_add.
  assert (Hlab : ∀ r : gset Node,
             e ∈ match labels pg (element ve) with
                 | Some labels => list_to_set labels ∪ r
                 | None => r
                 end ↔ e ∈ labelsOf pg (element ve) ∨ e ∈ r).
  { intros r. unfold labelsOf. destruct (labels pg (element ve)).
    - rewrite elem_of_union, elem_of_list_to_set. reflexivity.
    - rewrite elem_of_nil. tauto. }
  destruct (positionMap d !! hintPositionKey (measurements ve))
    as [group|] eqn:Hgroup; cbn [rejected].
  - destruct (_ && _) eqn:Hmixed.
    + apply andb_true_iff in Hmixed. destruct Hmixed as [Hbad Hgood].
      apply filter_nonempty in Hbad, Hgood.
      destruct Hgood as (y & Hy & Hylow). apply negb_true_iff in Hylow.
      rewrite elem_of_union, elem_of_list_to_set, Hlab, list_elem_of_fmap.
      split.
      * intros [(x & -> & Hx) | [H | H]]; [|tauto..].
        apply list_elem_of_In, List.filter_In in Hx. destruct Hx as [Hx Hxlow].
        apply list_elem_of_In in Hx.
        right. right. exists group, x, y. auto 10.
      * intros [H | [H | (g & x & y' & [= <-] & Hx & _ & -> & Hxlow & _)]];
          [tauto.. |].
        left. exists x. split; [reflexivity|].
        apply list_elem_of_In, List.filter_In. split; [|exact Hxlow].
        apply list_elem_of_In, Hx.
    + rewrite Hlab. split; [tauto|].
      intros [H | [H | (g & x & y & [= <-] & Hx & Hy & -> & Hxlow & Hylow)]];
        [tauto.. |].
      apply andb_false_iff in Hmixed. destruct Hmixed as [Hno | Hno].
      * assert (Hsome : (0 <? length (List.filter isLowQuality (group ++ [ve])))
                        = true) by (apply filter_nonempty; eauto).
        congruence.
      * assert (Hsome : (0 <? length
                           (List.filter (λ e, negb (isLowQuality e))
                              (group ++ [ve]))) = true).
        { apply filter_nonempty. exists y. rewrite Hylow. auto. }
        congruence.
  - rewrite Hlab. split; [tauto|].
    intros [H | [H | (g & x & y & [=] & _)]]; tauto.
Qed.

Lemma Deduper_add_positionMap (ve : VisibleElement) (d : Deduper) (k : string) :
  positionMap (Deduper_add pg ve d) !! k
  = if bool_decide (hintPositionKey (measurements ve) = k) then
      Some (match positionMap d !! k with
            | Some group => group ++ [ve]
            | None => [ve]
            end)
    else positionMap d !! k.
Proof.
  unfold Deduper_add. case_bool_decide as Hk.
  - subst k. destruct (positionMap d !! _); cbn; apply lookup_insert_eq.
  - destruct (positionMap d !! hintPositionKey (measurements ve)); cbn;
      apply lookup_insert_ne; exact Hk.
Qed.

Lemma dedupes_new : dedupes pg [] Deduper_new.
Proof.
  split.
  - intros k. cbn. apply lookup_empty.
  - intros e. cbn. rewrite elem_of_empty. split; [tauto|].
    intros [(x & Hx & _) | (x & y & Hx & _)]; apply elem_of_nil in Hx; tauto.
Qed.

Lemma dedupes_add (l : list VisibleElement) (ve : VisibleElement) (d : Deduper) :
  dedupes pg l d → dedupes pg (l ++ [ve]) (Deduper_add pg ve d).
Proof.
  intros [Hmap Hrej]. split.
  - intros k. rewrite Deduper_add_positionMap, atKey_snoc, Hmap.
    case_bool_decide.
    + destruct (atKey k l); reflexivity.
    + rewrite app_nil_r. reflexivity.
  - intros e. rewrite Deduper_add_rejected, Hrej, Hmap.
    assert (Hgroup : ∀ x, x ∈ atKey (hintPositionKey (measurements ve)) l ++ [ve]
                          ↔ x ∈ l ++ [ve]
                            ∧ hintPositionKey (measurements x)
                              = hintPositionKey (measurements ve)).
    { intros x. rewrite !elem_of_app, elem_of_atKey, !list_elem_of_singleton.
      split; [intros [H | ->]; tauto|].
      intros [[H | ->] Hk]; tauto. }
    split.
    + intros [[(x & Hx & Hl) | (x & y & Hx & Hy & Hrest)]
             | [Hl | (g & x & y & Hg & Hx & Hy & -> & Hxl & Hyl)]].
      * left. exists x. rewrite elem_of_app. auto.
      * right. exists x, y. rewrite !elem_of_app. auto.
      * left. exists ve. rewrite elem_of_app, list_elem_of_singleton. auto.
      * right. exists x, y.
        destruct (atKey (hintPositionKey (measurements ve)) l)
          as [|g0 gs] eqn:Hat; [discriminate|].
        injection Hg as <-.
        apply Hgroup in Hx, Hy. destruct Hx as [Hx Hkx], Hy as [Hy Hky].
        split_and!; auto. congruence.
    + intros [(x & Hx & Hl) | (x & y & Hx & Hy & -> & Hxl & Hyl & Hk)].
      * apply elem_of_app in Hx. destruct Hx as [Hx | Hx].
        -- left. left. eauto.
        -- apply list_elem_of_singleton in Hx. subst x. auto.
      * assert (Hcases : (x ∈ l ∧ y ∈ l)
                         ∨ (hintPositionKey (measurements x)
                            = hintPositionKey (measurements ve)
                            ∧ hintPositionKey (measurements y)
                              = hintPositionKey (measurements ve))).
        { pose proof Hx as Hx'. pose proof Hy as Hy'.
          apply elem_of_app in Hx', Hy'.
          rewrite !list_elem_of_singleton in Hx', Hy'.
          destruct Hx' as [Hx' | ->], Hy' as [Hy' | ->]; auto;
            right; split; congruence. }
        destruct Hcases as [[Hxl' Hyl'] | [Hkx Hky]].
        { left. right. exists x, y. auto 10. }
        right. right.
        assert (Hxg : x ∈ atKey (hintPositionKey (measurements ve)) l ++ [ve])
          by (apply Hgroup; auto).
        assert (Hyg : y ∈ atKey (hintPositionKey (measurements ve)) l ++ [ve])
          by (apply Hgroup; auto).
        destruct (atKey (hintPositionKey (measurements ve)) l)
          as [|g0 gs] eqn:Hat.
        -- exfalso. cbn in Hxg, Hyg.
           apply list_elem_of_singleton in Hxg, Hyg. congruence.
        -- exists (g0 :: gs), x, y. auto 10.
Qed.

Lemma dedupes_addAll (l l' : list VisibleElement) (d : Deduper) :
  dedupes pg l d → dedupes pg (l ++ l') (Deduper_addAll pg l' d).
Proof.
  revert l d. induction l' as [|ve l' IH]; intros l d Hd; cbn.
  - rewrite app_nil_r. exact Hd.
  - replace (l ++ ve :: l') with ((l ++ [ve]) ++ l')
      by (rewrite <- app_assoc; reflexivity).
    apply IH, dedupes_add, Hd.
Qed.

(** X16. What a deduper rejects after a list of elements was added to a
    fresh one: the labels of the elements added, and the low-quality
    elements added that share their position key with an element added
    that is not low-quality. So the order of the additions does not
    matter. *)
Theorem deduper_verdict (l : list VisibleElement) (e : Node) :
  (e ∈ rejected (Deduper_addAll pg l Deduper_new) ↔
     (∃ x, x ∈ l ∧ e ∈ labelsOf pg (element x))
     ∨ (∃ x y, x ∈ l ∧ y ∈ l ∧ e = element x
               ∧ isLowQuality x = true ∧ isLowQuality y = false
               ∧ hintPositionKey (measurements x)
                 = hintPositionKey (measurements y)))
  ∧ ∀ l', l ≡ₚ l' →
      rejected (Deduper_addAll pg l' Deduper_new)
      = rejected (Deduper_addAll pg l Deduper_new).
Proof.
  assert (H : ∀ l, dedupes pg l (Deduper_addAll pg l Deduper_new)).
  { intros l0. apply (dedupes_addAll [] l0), dedupes_new. }
  split; [apply H|].
  intros l' Hperm. apply set_eq. intros e'.
  rewrite (proj2 (H l) e'), (proj2 (H l') e').
  split.
  - intros [(x & Hx & Hl) | (x & y & Hx & Hy & Hrest)].
    + left. exists x. rewrite Hperm. auto.
    + right. exists x, y. rewrite Hperm. auto.
  - intros [(x & Hx & Hl) | (x & y & Hx & Hy & Hrest)].
    + left. exists x. rewrite <- Hperm. auto.
    + right. exists x, y. rewrite <- Hperm. auto.
Qed.

(** X17. [Deduper#add] never takes an element out of the rejected
    ones. *)
Theorem rejection_is_permanent (ve : VisibleElement) (d : Deduper) :
  rejected d ⊆ rejected (Deduper_add pg ve d).
Proof.
  intros e He. apply Deduper_add_rejected. auto.
Qed.

End DeduperAll.

(** ** A query *)

Section Query.
Variable pg : Page.

Lemma measureVisibleElements_results (types : ElementTypes)
    (viewports : list Box.t) (passedCandidates : option (list Node))
    (m : Manager) :
  measureVisibleElements pg types viewports passedCandidates m
  = let maybeResults := measured pg types viewports passedCandidates m in
    let deduper :=
      if isSelectable types then Deduper_new
      else Deduper_addAll pg (successes maybeResults) Deduper_new in
    (λ result,
       match result with
       | Some visibleElement =>
           if Deduper_rejects deduper visibleElement then None
           else Some visibleElement
       | None => None
       end) <$> maybeResults.
Proof.
  unfold measureVisibleElements, measured. cbv zeta.
  set (maybe := visibleElementOf pg types viewports m <$> _).
  assert (H : ∀ d,
             foldl
               (λ deduper result,
                  match result with
                  | Some visibleElement =>
                      if isSelectable types then deduper
                      else Deduper_add pg visibleElement deduper
                  | None => deduper
                  end) d maybe
             = if isSelectable types then d
               else Deduper_addAll pg (successes maybe) d).
  { generalize maybe. intros l. induction l as [|[ve|] l IH]; intros d; cbn.
    - destruct (isSelectable types); reflexivity.
    - rewrite IH. destruct (isSelectable types); reflexivity.
    - apply IH. }
  rewrite H. reflexivity.
Qed.

Lemma visibleElementOf_Some (types : ElementTypes) (viewports : list Box.t)
    (m : Manager) (e : Node) (ve : VisibleElement) :
  visibleElementOf pg types viewports m e = Some ve →
  element ve = e
  ∧ getMeasurements pg e (type ve) viewports = Some (measurements ve)
  ∧ hasClickListener ve = bool_decide (e ∈ elementsWithClickListeners m)
  ∧ ¬ (type ve = label ∧ interface pg e = HTMLLabelElement
       ∧ control pg e = None)
  ∧ match types with
    | Selectable => getElementTypeSelectable pg m e = Some (type ve)
    | Types types => elements m !! e = Some (type ve) ∧ type ve ∈ types
    end.
Proof.
  unfold visibleElementOf.
  destruct (match types with Selectable => _ | Types _ => _ end)
    as [ty|] eqn:Hty; [|discriminate].
  destruct (match types with Selectable => false | Types _ => _ end)
    eqn:Hin; [discriminate|].
  destruct (_ && _ && _) eqn:Hlabel; [discriminate|].
  destruct (getMeasurements pg e ty viewports) as [ms|] eqn:Hms;
    [|discriminate].
  intros [= <-]. cbn. split_and!; try done.
  - intros (-> & Hi & Hc). rewrite Hi, Hc in Hlabel. cbn in Hlabel.
    rewrite !bool_decide_eq_true_2 in Hlabel by reflexivity. discriminate.
  - destruct types as [ts|]; [|exact Hty].
    split; [exact Hty|]. apply negb_false_iff, bool_decide_eq_true in Hin.
    exact Hin.
Qed.

(** X18. For passed candidates, and in selectable mode also without
    (then the candidates are the elements of the document in document
    order), the answer of a query has one entry per candidate, in the
    order of the candidates: an entry that holds an element holds the
    candidate at that place, as [visibleElementOf] measures it. In
    selectable mode nothing is deduplicated: the answer is what was
    measured. *)
Theorem query_answers_candidate_by_candidate (types : ElementTypes)
    (viewports : list Box.t) (passedCandidates : option (list Node))
    (m : Manager) :
  let given :=
    match passedCandidates with
    | Some passed => passed
    | None => getElementsByTagName pg
    end in
  let results :=
    measureVisibleElements pg types viewports passedCandidates m in
  (passedCandidates ≠ None ∨ types = Selectable →
   length results = length given
   ∧ ∀ i ve, results !! i = Some (Some ve) →
       given !! i = Some (element ve)
       ∧ visibleElementOf pg types viewports m (element ve) = Some ve)
  ∧ (types = Selectable →
     results = visibleElementOf pg Selectable viewports m <$> given).
Proof.
  intros given results.
  assert (Hgiven : passedCandidates ≠ None ∨ types = Selectable →
                   candidates pg types passedCandidates m = given).
  { subst given. unfold candidates.
    destruct passedCandidates as [passed|]; [reflexivity|].
    intros [H | ->]; [congruence | reflexivity]. }
  subst results. rewrite measureVisibleElements_results.
  cbv zeta. unfold measured. split.
  - intros Hcase. rewrite (Hgiven Hcase). split.
    + rewrite !length_fmap. reflexivity.
    + intros i ve. rewrite !list_lookup_fmap.
      destruct (given !! i) as [e|]; [|discriminate]. cbn.
      destruct (visibleElementOf pg types viewports m e) as [ve'|] eqn:Hve;
        [|discriminate].
      destruct (Deduper_rejects _ ve'); [discriminate|].
      intros [= <-].
      destruct (visibleElementOf_Some _ _ _ _ _ Hve) as (-> & _).
      auto.
  - intros ->. rewrite (Hgiven (or_intror eq_refl)). cbn [isSelectable].
    rewrite <- list_fmap_compose. apply list_fmap_ext. intros i e _. cbn.
    destruct (visibleElementOf pg Selectable viewports m e); reflexivity.
Qed.

(** X19. An element that a query for given types returns is one of the
    candidates, is in the registry with the type it is returned with, that
    type is one of those asked for, its measurements are those of
    [getMeasurements] for that type, [hasClickListener] tells whether it
    is marked as having a click listener, and it is not a [<label>]
    without a control. *)
Theorem returned_elements_are_registered (types : list ElementType)
    (viewports : list Box.t) (passedCandidates : option (list Node))
    (m : Manager) (ve : VisibleElement) :
  Some ve ∈ measureVisibleElements pg (Types types) viewports passedCandidates m →
  element ve ∈ candidates pg (Types types) passedCandidates m
  ∧ elements m !! element ve = Some (type ve)
  ∧ type ve ∈ types
  ∧ getMeasurements pg (element ve) (type ve) viewports
    = Some (measurements ve)
  ∧ hasClickListener ve
    = bool_decide (element ve ∈ elementsWithClickListeners m)
  ∧ ¬ (type ve = label ∧ interface pg (element ve) = HTMLLabelElement
       ∧ control pg (element ve) = None).
Proof.
  intros Hin.
  rewrite measureVisibleElements_results in Hin. cbv zeta in Hin.
  unfold measured in Hin.
  apply list_elem_of_fmap in Hin. destruct Hin as (r & Hr & Hin).
  apply list_elem_of_fmap in Hin. destruct Hin as (e & -> & He).
  destruct (visibleElementOf pg (Types types) viewports m e) as [ve'|] eqn:Hve;
    [|discriminate].
  destruct (Deduper_rejects _ ve'); [discriminate|].
  injection Hr as ->.
  destruct (visibleElementOf_Some _ _ _ _ _ Hve)
    as (<- & Hms & Hcl & Hlab & Hreg & Hty).
  split_and!; assumption.
Qed.

(** X20. Which of the measured elements a query for given types returns:
    those that are not the label of a measured element and that are not,
    as a low-quality element, at the position key of a measured element
    that is not low-quality. *)
Theorem returned_iff_not_suppressed (types : list ElementType)
    (viewports : list Box.t) (passedCandidates : option (list Node))
    (m : Manager) (ve : VisibleElement) :
  let maybeResults :=
    measured pg (Types types) viewports passedCandidates m in
  Some ve ∈ measureVisibleElements pg (Types types) viewports passedCandidates m
  ↔ Some ve ∈ maybeResults
    ∧ (∀ x, Some x ∈ maybeResults → element ve ∉ labelsOf pg (element x))
    ∧ (∀ x y, Some x ∈ maybeResults → Some y ∈ maybeResults →
         element x = element ve → isLowQuality x = true →
         isLowQuality y = false →
         hintPositionKey (measurements x) ≠ hintPositionKey (measurements y)).
Proof.
  intros maybeResults. rewrite measureVisibleElements_results. cbv zeta.
  fold maybeResults. cbn [isSelectable].
  pose proof (dedupes_addAll pg [] (successes maybeResults) Deduper_new
                (dedupes_new pg)) as [_ Hrej].
  cbn [app] in Hrej.
  assert (Hsome : ∀ x, x ∈ successes maybeResults ↔ Some x ∈ maybeResults).
  { intros x. unfold successes. rewrite list_elem_of_omap. split.
    - intros (r & Hr & Hx). cbn in Hx. subst r. exact Hr.
    - intros Hx. exists (Some x). auto. }
  assert (Hin : Some ve
                ∈ (λ result,
                     match result with
                     | Some visibleElement =>
                         if Deduper_rejects
                              (Deduper_addAll pg (successes maybeResults)
                                 Deduper_new) visibleElement
                         then None else Some visibleElement
                     | None => None
                     end) <$> maybeResults
                ↔ Some ve ∈ maybeResults
                  ∧ element ve
                    ∉ rejected
                        (Deduper_addAll pg (successes maybeResults) Deduper_new)).
  { rewrite list_elem_of_fmap. unfold Deduper_rejects. split.
    - intros ([x|] & Hx & Hr); [|discriminate].
      case_bool_decide; [discriminate|]. injection Hx as ->. auto.
    - intros [Hm Hnot]. exists (Some ve).
      rewrite bool_decide_eq_false_2 by assumption. auto. }
  rewrite Hin, Hrej. split.
  - intros (Hm & Hnot). split_and!; [exact Hm | |].
    + intros x Hx Hl. apply Hnot. left. exists x. rewrite Hsome. auto.
    + intros x y Hx Hy He Hxl Hyl Hk. apply Hnot. right.
      exists x, y. rewrite !Hsome. auto 10.
  - intros (Hm & Hlab & Hlow). split; [exact Hm|].
    intros [(x & Hx & Hl) | (x & y & Hx & Hy & He & Hxl & Hyl & Hk)].
    + apply (Hlab x); [apply Hsome, Hx | exact Hl].
    + apply (Hlow x y); rewrite <- ?Hsome; auto.
Qed.

End Query.

(** X19, at the link of the example document, passed as the one
    candidate. *)
Lemma returned_elements_are_registered_witness :
  Some exampleLink
    ∈ measureVisibleElements examplePage (Types [link]) [] (Some [2])
        (manager exampleStarted)
  ∧ elements (manager exampleStarted) !! 2 = Some link.
Proof.
  assert (H : Some exampleLink
              ∈ measureVisibleElements examplePage (Types [link]) []
                  (Some [2]) (manager exampleStarted)).
  { replace (measureVisibleElements examplePage (Types [link]) [] (Some [2])
               (manager exampleStarted)) with [Some exampleLink]
      by (vm_compute; reflexivity).
    apply list_elem_of_here. }
  split; [exact H|].
  destruct (returned_elements_are_registered examplePage [link] [] (Some [2])
              (manager exampleStarted) exampleLink H) as (_ & He & _).
  exact He.
Defined.

(** ** Text and image anchors *)

Section Anchors.
Variable pg : Page.

Lemma Qlt_bool_iff (a b : Q) : Qlt_bool a b = true ↔ (a < b)%Q.
Proof.
  unfold Qlt_bool. rewrite negb_true_iff. split.
  - intros H. apply Qnot_le_lt. intros Hle. apply Qle_bool_iff in Hle.
    congruence.
  - intros H. apply not_true_is_false. intros Hle. apply Qle_bool_iff in Hle.
    apply Qlt_not_le in H. contradiction.
Qed.

Lemma Qlt_bool_false (a b : Q) : Qlt_bool a b = false ↔ (b <= a)%Q.
Proof.
  unfold Qlt_bool. rewrite negb_false_iff. apply Qle_bool_iff.
Qed.

(** X21. [getFirstImagePoint] answers for the first image in document
    order, among the images in the element and the element itself if it
    matches, that has a visible box: its point is at the image's left
    edge plus border and padding, at mid-height of the visible box,
    aligned [left] for an image at least [MIN_HEIGHT_BOX] high and [right]
    otherwise. There is no point exactly when no image has a visible
    box. *)
Theorem getFirstImagePoint_first_visible (e : Node) (viewports : list Box.t) :
  let imgs := images pg e ++ (if matchesImage pg e then [e] else []) in
  match getFirstImagePoint pg e viewports with
  | None =>
      ∀ image, image ∈ imgs →
        getVisibleBox pg (getBoundingClientRect pg image) viewports = None
  | Some (point, rect) =>
      ∃ before image after visibleBox,
        imgs = before ++ image :: after
        ∧ (∀ i, i ∈ before →
             getVisibleBox pg (getBoundingClientRect pg i) viewports = None)
        ∧ getVisibleBox pg (getBoundingClientRect pg image) viewports
          = Some visibleBox
        ∧ rect = getBoundingClientRect pg image
        ∧ Point.x point = (Box.left rect + borderAndPaddingLeft pg image)%Q
        ∧ Point.y point
          = (Box.y visibleBox + Box.height visibleBox / 2)%Q
        ∧ Point.align point
          = if Qle_bool t.MIN_HEIGHT_BOX (Box.height rect) then left else right
  end.
Proof.
  cbv zeta. unfold getFirstImagePoint.
  generalize (images pg e ++ (if matchesImage pg e then [e] else [])).
  intros imgs.
  induction imgs as [|image imgs IH]; cbn.
  - intros image Hin. apply elem_of_nil in Hin. destruct Hin.
  - destruct (getVisibleBox pg (getBoundingClientRect pg image) viewports)
      as [visibleBox|] eqn:Hbox.
    + exists [], image, imgs, visibleBox. cbn. split_and!; try done.
      intros i Hi. apply elem_of_nil in Hi. destruct Hi.
    + destruct (firstVisibleImage pg viewports imgs) as [[point rect]|].
      * destruct IH as (before & image' & after & vb & -> & Hb & Hrest).
        exists (image :: before), image', after, vb. split; [reflexivity|].
        split; [|exact Hrest].
        intros i Hi. apply elem_of_cons in Hi. destruct Hi as [-> | Hi]; auto.
      * intros i Hi. apply elem_of_cons in Hi. destruct Hi as [-> | Hi]; auto.
Qed.

Lemma reduce_choice {A} (f : A → A → A) (first : A) (others : list A) :
  (∀ a b, f a b = a ∨ f a b = b) →
  reduce f first others ∈ first :: others.
Proof.
  intros Hf. unfold reduce. revert first.
  induction others as [|x others IH]; intros first; cbn.
  - apply list_elem_of_here.
  - specialize (IH (f first x)). apply elem_of_cons in IH.
    destruct IH as [-> | IH].
    + destruct (Hf first x) as [-> | ->];
        [apply list_elem_of_here | apply list_elem_of_further, list_elem_of_here].
    + do 2 apply list_elem_of_further. exact IH.
Qed.

(** [reduce] with a choice function of a preorder returns a least
    element. *)
Lemma reduce_least {A} (le : A → A → Prop) (f : A → A → A) (first : A)
    (others : list A) :
  (∀ a, le a a) →
  (∀ a b c, le a b → le b c → le a c) →
  (∀ a b, le (f a b) a ∧ le (f a b) b) →
  ∀ x, x ∈ first :: others → le (reduce f first others) x.
Proof.
  intros Hrefl Htrans Hf. unfold reduce. revert first.
  induction others as [|y others IH]; intros first x Hin; cbn.
  - apply list_elem_of_singleton in Hin. subst x. apply Hrefl.
  - destruct (Hf first y) as [Hfirst Hy].
    apply elem_of_cons in Hin. destruct Hin as [-> | Hin].
    + eapply Htrans; [|exact Hfirst]. apply IH, list_elem_of_here.
    + apply elem_of_cons in Hin. destruct Hin as [-> | Hin].
      * eapply Htrans; [|exact Hy]. apply IH, list_elem_of_here.
      * apply IH, list_elem_of_further, Hin.
Qed.

Lemma elem_of_filter_rects (isAcceptable : Point.t → bool) (e : Node)
    (rect : Box.t) :
  rect ∈ List.filter
           (λ rect,
              Qle_bool t.MIN_SIZE_TEXT_RECT (Box.width rect)
              && Qle_bool t.MIN_SIZE_TEXT_RECT (Box.height rect)
              && isAcceptable (pointAt (getXY rect) right))
           (textRects pg e)
  ↔ rect ∈ textRects pg e ∧ acceptableRect isAcceptable rect = true.
Proof. rewrite !list_elem_of_In, List.filter_In. reflexivity. Qed.

Lemma getBestNonEmptyTextPoint_acceptable (e : Node) (elementRect : Box.t)
    (viewports : list Box.t) (isAcceptable : Point.t → bool)
    (preferTextStart : bool) (point : Point.t) :
  getBestNonEmptyTextPoint pg e elementRect viewports isAcceptable
    preferTextStart = Some point →
  isAcceptable point = true.
Proof.
  unfold getBestNonEmptyTextPoint.
  set (keep := λ rect : Box.t, _ && _ && isAcceptable _).
  destruct (List.filter keep (textRects pg e)) as [|first others] eqn:Hrects;
    [discriminate|].
  assert (Hall : ∀ rect, rect ∈ first :: others →
                   isAcceptable (pointAt (getXY rect) right) = true).
  { intros rect Hin. rewrite <- Hrects in Hin.
    apply elem_of_filter_rects in Hin. destruct Hin as [_ Hacc].
    unfold acceptableRect in Hacc. apply andb_true_iff in Hacc. tauto. }
  destruct preferTextStart.
  - intros [= <-]. apply Hall, reduce_choice. intros a b. pick.
  - set (largestRect := reduce _ first others).
    assert (Hlargest : largestRect ∈ first :: others)
      by (apply reduce_choice; intros a b; pick).
    set (sameLine := List.filter _ (first :: others)).
    set (leftMostRect := match sameLine with [] => largestRect | _ => _ end).
    assert (Hleft : leftMostRect ∈ first :: others).
    { subst leftMostRect. destruct sameLine as [|s ss] eqn:Hs;
        [exact Hlargest|].
      assert (Hin : reduce
                      (λ a b,
                         if Qlt_bool (Box.left b) (Box.left a) then b
                         else if Qeq_bool (Box.left b) (Box.left a)
                                 && Qlt_bool (Box.top b) (Box.top a)
                         then b else a) s ss ∈ sameLine).
      { rewrite Hs. apply reduce_choice. intros a b. pick. }
      subst sameLine. apply list_elem_of_In, List.filter_In in Hin.
      apply list_elem_of_In. tauto. }
    destruct (_ && Qle_bool _ _); [|intros [= <-]; apply Hall, Hleft].
    destruct (getFirstImagePoint pg e viewports) as [[ipoint rect]|];
      [|intros [= <-]; apply Hall, Hleft].
    destruct (Qlt_bool _ _ && isAcceptable ipoint) eqn:Himg;
      [|intros [= <-]; apply Hall, Hleft].
    intros [= <-]. apply andb_true_iff in Himg. tauto.
Qed.

Lemma getBestNonEmptyTextPoint_None (e : Node) (elementRect : Box.t)
    (viewports : list Box.t) (isAcceptable : Point.t → bool)
    (preferTextStart : bool) :
  getBestNonEmptyTextPoint pg e elementRect viewports isAcceptable
    preferTextStart = None →
  ∀ rect, rect ∈ textRects pg e → acceptableRect isAcceptable rect = false.
Proof.
  unfold getBestNonEmptyTextPoint.
  set (keep := λ rect : Box.t, _ && _ && isAcceptable _).
  destruct (List.filter keep (textRects pg e)) as [|first others] eqn:Hrects.
  - intros _ rect Hin. apply not_true_is_false. intros Hacc.
    assert (H : rect ∈ List.filter keep (textRects pg e))
      by (apply elem_of_filter_rects; auto).
    rewrite Hrects in H. apply elem_of_nil in H. exact H.
  - destruct preferTextStart; [discriminate|]. cbv zeta.
    repeat case_match; discriminate.
Qed.

(** X22. A point of [getBestNonEmptyTextPoint] is acceptable; and there
    is no point only when no text rect of the element is at least
    [MIN_SIZE_TEXT_RECT] wide and high with an acceptable point. *)
Theorem text_anchor_is_acceptable (e : Node) (elementRect : Box.t)
    (viewports : list Box.t) (isAcceptable : Point.t → bool)
    (preferTextStart : bool) :
  match
    getBestNonEmptyTextPoint pg e elementRect viewports isAcceptable
      preferTextStart
  with
  | None =>
      ∀ rect, rect ∈ textRects pg e → acceptableRect isAcceptable rect = false
  | Some point => isAcceptable point = true
  end.
Proof.
  destruct (getBestNonEmptyTextPoint _ _ _ _ _ _) as [point|] eqn:Hbest.
  - eapply getBestNonEmptyTextPoint_acceptable, Hbest.
  - eapply getBestNonEmptyTextPoint_None, Hbest.
Qed.
(** The choice functions of [getBestNonEmptyTextPoint] pick the lesser of
    two rects by a major and then a minor coordinate. *)
Lemma lexicographic_choice (major minor : Box.t → Q) (a b : Box.t) :
  let before x y :=
    (major x < major y)%Q ∨ ((major x == major y)%Q ∧ (minor x <= minor y)%Q) in
  let chosen :=
    if Qlt_bool (major b) (major a) then b
    else if Qeq_bool (major b) (major a) && Qlt_bool (minor b) (minor a)
    then b else a in
  before chosen a ∧ before chosen b.
Proof.
  cbv zeta.
  destruct (Qlt_bool (major b) (major a)) eqn:Hmajor.
  - apply Qlt_bool_iff in Hmajor. split; [left; exact Hmajor|].
    right. split; [reflexivity | apply Qle_refl].
  - apply Qlt_bool_false in Hmajor.
    destruct (Qeq_bool _ _ && Qlt_bool _ _) eqn:Htie.
    + apply andb_true_iff in Htie. destruct Htie as [Heq Hminor].
      apply Qeq_bool_iff in Heq. apply Qlt_bool_iff in Hminor.
      split; right; split;
        [exact Heq | apply Qlt_le_weak, Hminor | reflexivity | apply Qle_refl].
    + split; [right; split; [reflexivity | apply Qle_refl]|].
      apply andb_false_iff in Htie.
      destruct (Qlt_le_dec (major a) (major b)) as [Hlt | Hle];
        [left; exact Hlt|].
      assert (Heq : (major b == major a)%Q) by (apply Qle_antisym; assumption).
      right. split; [symmetry; exact Heq|].
      destruct Htie as [Hne | Hnl].
      * apply Qeq_bool_iff in Heq. congruence.
      * apply Qlt_bool_false in Hnl. exact Hnl.
Qed.

Lemma before_preorder (major minor : Box.t → Q) :
  let before x y :=
    (major x < major y)%Q ∨ ((major x == major y)%Q ∧ (minor x <= minor y)%Q) in
  (∀ a, before a a) ∧ (∀ a b c, before a b → before b c → before a c).
Proof.
  cbv zeta. split.
  - intros a. right. split; [reflexivity | apply Qle_refl].
  - intros a b c [H1 | [H1 H1']] [H2 | [H2 H2']].
    + left. eapply Qlt_trans; eassumption.
    + left. rewrite <- H2. exact H1.
    + left. rewrite H1. exact H2.
    + right. split; [rewrite H1; exact H2 | eapply Qle_trans; eassumption].
Qed.

Lemma first_in_reading_order (first : Box.t) (others : list Box.t) :
  let chosen :=
    reduce
      (λ a b,
         if Qlt_bool (Box.top b) (Box.top a) then b
         else if Qeq_bool (Box.top b) (Box.top a)
                 && Qlt_bool (Box.left b) (Box.left a)
         then b else a)
      first others in
  ∀ rect, rect ∈ first :: others → readsBefore chosen rect.
Proof.
  cbv zeta. destruct (before_preorder Box.top Box.left) as [Hrefl Htrans].
  apply (reduce_least readsBefore); [exact Hrefl | exact Htrans |].
  intros a b. apply (lexicographic_choice Box.top Box.left).
Qed.

(** X23. With [preferTextStart], the point of
    [getBestNonEmptyTextPoint] is at one of the kept text rects, the first
    in reading order: no kept rect is higher up, and none as high up is
    further left. *)
Theorem text_start_is_first_in_reading_order (e : Node) (elementRect : Box.t)
    (viewports : list Box.t) (isAcceptable : Point.t → bool) (point : Point.t) :
  getBestNonEmptyTextPoint pg e elementRect viewports isAcceptable true
  = Some point →
  ∃ chosen,
    chosen ∈ textRects pg e
    ∧ acceptableRect isAcceptable chosen = true
    ∧ point = pointAt (getXY chosen) right
    ∧ ∀ rect, rect ∈ textRects pg e →
        acceptableRect isAcceptable rect = true → readsBefore chosen rect.
Proof.
  unfold getBestNonEmptyTextPoint.
  set (keep := λ rect : Box.t, _ && _ && isAcceptable _).
  destruct (List.filter keep (textRects pg e)) as [|first others] eqn:Hrects;
    [discriminate|].
  intros [= <-].
  set (chosen := reduce _ first others).
  assert (Hin : chosen ∈ List.filter keep (textRects pg e)).
  { rewrite Hrects. apply reduce_choice. intros a b. pick. }
  apply elem_of_filter_rects in Hin. destruct Hin as [Hin Hacc].
  exists chosen. split_and!; try done.
  intros rect Hrect Hracc.
  apply (first_in_reading_order first others).
  rewrite <- Hrects. apply elem_of_filter_rects. auto.
Qed.


Lemma leftmost_on_the_line (first : Box.t) (others : list Box.t) :
  let chosen :=
    reduce
      (λ a b,
         if Qlt_bool (Box.left b) (Box.left a) then b
         else if Qeq_bool (Box.left b) (Box.left a)
                 && Qlt_bool (Box.top b) (Box.top a)
         then b else a)
      first others in
  ∀ rect, rect ∈ first :: others → leftOf chosen rect.
Proof.
  cbv zeta. destruct (before_preorder Box.left Box.top) as [Hrefl Htrans].
  apply (reduce_least leftOf); [exact Hrefl | exact Htrans |].
  intros a b. apply (lexicographic_choice Box.left Box.top).
Qed.

Lemma tallest_then_widest (first : Box.t) (others : list Box.t) :
  let chosen :=
    reduce
      (λ a b,
         if Qlt_bool (Box.height a) (Box.height b) then b
         else if Qeq_bool (Box.height b) (Box.height a)
                 && Qlt_bool (Box.width a) (Box.width b)
         then b else a)
      first others in
  ∀ rect, rect ∈ first :: others → outranks chosen rect.
Proof.
  cbv zeta.
  destruct (before_preorder (λ r, - Box.height r)%Q (λ r, - Box.width r)%Q)
    as [Hrefl Htrans].
  assert (Hiff : ∀ a b,
             outranks a b ↔
               ((- Box.height a < - Box.height b)%Q
                ∨ ((- Box.height a == - Box.height b)%Q
                   ∧ (- Box.width a <= - Box.width b)%Q))).
  { intros a b. unfold outranks. split.
    - intros [H | [H H']]; [left; Lqa.lra | right; split; Lqa.lra].
    - intros [H | [H H']]; [left; Lqa.lra | right; split; Lqa.lra]. }
  apply (reduce_least outranks).
  - intros a. apply Hiff, Hrefl.
  - intros a b c Hab Hbc. apply Hiff. apply (Htrans a b c); apply Hiff; auto.
  - intros a b.
    pose proof (lexicographic_choice (λ r, - Box.height r)%Q
                  (λ r, - Box.width r)%Q a b) as Hc. cbv zeta in Hc.
    assert (Heq : (if Qlt_bool (Box.height a) (Box.height b) then b
                   else if Qeq_bool (Box.height b) (Box.height a)
                           && Qlt_bool (Box.width a) (Box.width b)
                   then b else a)
                  = (if Qlt_bool (- Box.height b) (- Box.height a) then b
                     else if Qeq_bool (- Box.height b) (- Box.height a)
                             && Qlt_bool (- Box.width b) (- Box.width a)
                     then b else a)).
    { assert (H1 : Qlt_bool (Box.height a) (Box.height b)
                   = Qlt_bool (- Box.height b) (- Box.height a)).
      { apply eq_true_iff_eq. rewrite !Qlt_bool_iff. split; Lqa.lra. }
      assert (H2 : Qeq_bool (Box.height b) (Box.height a)
                   = Qeq_bool (- Box.height b) (- Box.height a)).
      { apply eq_true_iff_eq. rewrite !Qeq_bool_iff. split; Lqa.lra. }
      assert (H3 : Qlt_bool (Box.width a) (Box.width b)
                   = Qlt_bool (- Box.width b) (- Box.width a)).
      { apply eq_true_iff_eq. rewrite !Qlt_bool_iff. split; Lqa.lra. }
      rewrite H1, H2, H3. reflexivity. }
    rewrite Heq. split; apply Hiff; apply Hc.
Qed.

Lemma filter_keeps_all {A} (f : A → bool) (l : list A) :
  (length (List.filter f l) =? length l) = true ↔ ∀ x, x ∈ l → f x = true.
Proof.
  rewrite Nat.eqb_eq. induction l as [|a l IH]; cbn.
  - split; [|reflexivity]. intros _ x Hx. apply elem_of_nil in Hx. destruct Hx.
  - pose proof (List.filter_length_le f l) as Hle.
    destruct (f a) eqn:Hfa; cbn.
    + split.
      * intros Hlen x Hx. apply elem_of_cons in Hx.
        destruct Hx as [-> | Hx]; [exact Hfa|]. apply IH; [lia | exact Hx].
      * intros Hall. f_equal. apply IH. intros x Hx.
        apply Hall, list_elem_of_further, Hx.
    + split; [lia|]. intros Hall.
      rewrite (Hall a (list_elem_of_here _ _)) in Hfa. discriminate.
Qed.

(** X24. Without [preferTextStart], [getBestNonEmptyTextPoint] takes the
    tallest kept text rect (the widest among the tallest), and of the kept
    rects on its line the leftmost (the uppermost among the leftmost).
    The point is that of the first visible image exactly when every kept
    rect is on that line, the leftmost rect starts at least
    [MIN_SIZE_ICON] right of the element's left edge, and the first
    visible image has an acceptable point left of the rect; in every
    other case the point is at the leftmost rect. *)
Theorem text_anchor_on_the_tallest_line (e : Node) (elementRect : Box.t)
    (viewports : list Box.t) (isAcceptable : Point.t → bool) (point : Point.t) :
  getBestNonEmptyTextPoint pg e elementRect viewports isAcceptable false
  = Some point →
  ∃ largest chosen,
    (largest ∈ textRects pg e ∧ acceptableRect isAcceptable largest = true)
    ∧ (chosen ∈ textRects pg e ∧ acceptableRect isAcceptable chosen = true)
    ∧ (∀ rect, rect ∈ textRects pg e →
         acceptableRect isAcceptable rect = true → outranks largest rect)
    ∧ onLineOf largest chosen
    ∧ (∀ rect, rect ∈ textRects pg e →
         acceptableRect isAcceptable rect = true → onLineOf largest rect →
         leftOf chosen rect)
    ∧ let takesImage :=
        (∀ rect, rect ∈ textRects pg e →
           acceptableRect isAcceptable rect = true → onLineOf largest rect)
        ∧ (Box.left elementRect + t.MIN_SIZE_ICON <= Box.left chosen)%Q
        ∧ ∃ imagePoint imageRect,
            getFirstImagePoint pg e viewports = Some (imagePoint, imageRect)
            ∧ (Point.x imagePoint < Box.left chosen)%Q
            ∧ isAcceptable imagePoint = true in
      (takesImage →
       ∃ imageRect,
         getFirstImagePoint pg e viewports = Some (point, imageRect))
      ∧ (¬ takesImage → point = pointAt (getXY chosen) right).
Proof.
  unfold getBestNonEmptyTextPoint.
  set (keep := λ rect : Box.t, _ && _ && isAcceptable _).
  destruct (List.filter keep (textRects pg e)) as [|first others] eqn:Hrects;
    [discriminate|].
  set (largest := reduce _ first others).
  set (onLine := λ rect : Box.t, Qlt_bool _ _ && Qlt_bool _ _).
  assert (Hkeep : ∀ rect, rect ∈ first :: others ↔
                    rect ∈ textRects pg e
                    ∧ acceptableRect isAcceptable rect = true).
  { intros rect. rewrite <- Hrects. apply elem_of_filter_rects. }
  assert (HonLine : ∀ rect, onLine rect = true ↔ onLineOf largest rect).
  { intros rect. subst onLine. cbv beta.
    rewrite andb_true_iff, !Qlt_bool_iff. reflexivity. }
  assert (Hlargest : largest ∈ first :: others)
    by (apply reduce_choice; intros a b; pick).
  assert (Hself : onLine largest = true).
  { apply HonLine. apply Hkeep in Hlargest. destruct Hlargest as [_ Hacc].
    unfold acceptableRect in Hacc.
    apply andb_true_iff in Hacc. destruct Hacc as [Hacc _].
    apply andb_true_iff in Hacc. destruct Hacc as [_ Hheight].
    apply Qle_bool_iff in Hheight. unfold t.MIN_SIZE_TEXT_RECT in Hheight.
    unfold onLineOf, Box.top, Box.bottom. split; Lqa.lra. }
  assert (Hsingle : (length (List.filter onLine (first :: others))
                     =? length (first :: others)) = true
                    ↔ ∀ rect, rect ∈ textRects pg e →
                        acceptableRect isAcceptable rect = true →
                        onLineOf largest rect).
  { rewrite filter_keeps_all. split.
    - intros Hall rect Hin Hacc. apply HonLine, Hall, Hkeep. auto.
    - intros Hall rect Hin. apply Hkeep in Hin. apply HonLine, Hall; tauto. }
  destruct (List.filter onLine (first :: others)) as [|s ss] eqn:Hline.
  { exfalso.
    assert (H : largest ∈ List.filter onLine (first :: others)).
    { apply list_elem_of_In, List.filter_In. split; [|exact Hself].
      apply list_elem_of_In, Hlargest. }
    rewrite Hline in H. apply elem_of_nil in H. exact H. }
  set (chosen := reduce _ s ss).
  assert (Hchosen : chosen ∈ List.filter onLine (first :: others)).
  { rewrite Hline. apply reduce_choice. intros a b. pick. }
  apply list_elem_of_In, List.filter_In in Hchosen.
  destruct Hchosen as [Hchosen HchosenLine]. apply list_elem_of_In in Hchosen.
  intros Hpoint. exists largest, chosen.
  split; [apply Hkeep, Hlargest|]. split; [apply Hkeep, Hchosen|].
  split.
  { intros rect Hin Hacc. apply (tallest_then_widest first others).
    apply Hkeep. auto. }
  split; [apply HonLine, HchosenLine|].
  split.
  { intros rect Hin Hacc Hon. apply (leftmost_on_the_line s ss).
    rewrite <- Hline. apply list_elem_of_In, List.filter_In.
    split; [apply list_elem_of_In, Hkeep; auto | apply HonLine, Hon]. }
  cbv zeta.
  destruct (length (s :: ss) =? length (first :: others)) eqn:Hlen.
  2:{ cbn [andb] in Hpoint. injection Hpoint as <-. split.
      - intros (Hall & _). apply Hsingle in Hall. discriminate.
      - reflexivity. }
  destruct (Qle_bool (Box.left elementRect + t.MIN_SIZE_ICON)
              (Box.left chosen)) eqn:Hroom.
  2:{ cbn [andb] in Hpoint. injection Hpoint as <-. split.
      - intros (_ & Hle & _). apply Qle_bool_iff in Hle. congruence.
      - reflexivity. }
  cbn [andb] in Hpoint. apply Qle_bool_iff in Hroom.
  destruct (getFirstImagePoint pg e viewports) as [[ipoint irect]|].
  2:{ injection Hpoint as <-. split.
      - intros (_ & _ & ip & ir & [=] & _).
      - reflexivity. }
  destruct (Qlt_bool (Point.x ipoint) (Box.left chosen) && isAcceptable ipoint)
    eqn:Himg.
  - injection Hpoint as <-. split.
    + intros _. exists irect. reflexivity.
    + intros Hnot. exfalso. apply Hnot.
      apply andb_true_iff in Himg. destruct Himg as [Hx Hacc].
      apply Qlt_bool_iff in Hx.
      split; [apply Hsingle; reflexivity|]. split; [exact Hroom|].
      exists ipoint, irect. auto.
  - injection Hpoint as <-. split.
    + intros (_ & _ & ip & ir & [= <- <-] & Hx & Hacc).
      apply Qlt_bool_iff in Hx. rewrite Hx, Hacc in Himg. discriminate.
    + reflexivity.
Qed.

End Anchors.

(** X23, at the text of the link of the example document. *)
Lemma text_start_is_first_in_reading_order_witness :
  getBestNonEmptyTextPoint examplePage 2 (exampleBox 0 0 0 0) []
    (λ _, true) true
  = Some (pointAt (getXY (exampleBox 10 5 60 10)) right)
  ∧ ∃ chosen,
      chosen ∈ textRects examplePage 2
      ∧ pointAt (getXY (exampleBox 10 5 60 10)) right
        = pointAt (getXY chosen) right.
Proof.
  assert (H : getBestNonEmptyTextPoint examplePage 2 (exampleBox 0 0 0 0) []
                (λ _, true) true
              = Some (pointAt (getXY (exampleBox 10 5 60 10)) right))
    by reflexivity.
  split; [exact H|].
  destruct (text_start_is_first_in_reading_order examplePage 2
              (exampleBox 0 0 0 0) [] (λ _, true) _ H)
    as (chosen & Hin & _ & Hpoint & _).
  exists chosen. split; [exact Hin | exact Hpoint].
Defined.

(** X24, at the text of the link of the example document. *)
Lemma text_anchor_on_the_tallest_line_witness :
  getBestNonEmptyTextPoint examplePage 2 (exampleBox 0 0 0 0) []
    (λ _, true) false
  = Some (pointAt (getXY (exampleBox 10 5 60 10)) right)
  ∧ ∃ largest chosen,
      largest ∈ textRects examplePage 2 ∧ onLineOf largest chosen.
Proof.
  assert (H : getBestNonEmptyTextPoint examplePage 2 (exampleBox 0 0 0 0) []
                (λ _, true) false
              = Some (pointAt (getXY (exampleBox 10 5 60 10)) right))
    by reflexivity.
  split; [exact H|].
  destruct (text_anchor_on_the_tallest_line examplePage 2
              (exampleBox 0 0 0 0) [] (λ _, true) _ H)
    as (largest & chosen & [Hin _] & _ & _ & Hline & _).
  exists largest, chosen. split; [exact Hin | exact Hline].
Defined.

(** ** Covered points and elements of several rects *)

Section HitTesting.
Variable pg : Page.
Variable rendering : Rendering.

(** X25. What [getNonCoveredPoint] answers, case by case. Off screen, where
    there is no element at [(x, y)], it answers nothing. Where the element
    at [(x, y)] is inside the hinted element, or has a rect that does not
    cover [(x, y)], it keeps the point. Where an element outside the
    hinted one covers [(x, y)], it tries once, at one past the right edge
    of that element, rounded: when that lies beyond [x], not beyond
    [maxX], and on an element inside the hinted one, the point is moved
    there, and otherwise there is no answer. So [y] never changes and [x]
    moves right, not beyond [maxX], or not at all. *)
Theorem getNonCoveredPoint_never_strays (e : Node) (x y maxX : Q) :
  let result := getNonCoveredPoint pg rendering e x y maxX in
  (elementFromPoint rendering x y = None → result = None)
  ∧ (∀ hit, elementFromPoint rendering x y = Some hit →
       contains rendering e hit = true
       ∨ ¬ covers (getBoundingClientRect pg hit) x y →
       result = Some (x, y))
  ∧ (∀ hit, elementFromPoint rendering x y = Some hit →
       contains rendering e hit = false →
       covers (getBoundingClientRect pg hit) x y →
       let newX :=
         inject_Z
           (Math_round (Box.right (getBoundingClientRect pg hit) + 1)) in
       let movable :=
         (x < newX)%Q ∧ (newX <= maxX)%Q
         ∧ ∃ hit2, elementFromPoint rendering newX y = Some hit2
                   ∧ contains rendering e hit2 = true in
       (movable → result = Some (newX, y))
       ∧ (¬ movable → result = None))
  ∧ (∀ px py, result = Some (px, py) →
       py = y ∧ (px = x ∨ ((x < px)%Q ∧ (px <= maxX)%Q))).
Proof.
  cbv zeta. unfold getNonCoveredPoint.
  destruct (elementFromPoint rendering x y) as [hit|] eqn:Hhit.
  2:{ split_and!.
      - reflexivity.
      - intros h [=].
      - intros h [=].
      - intros px py [=]. }
  destruct (contains rendering e hit) eqn:Hcontains.
  { split_and!.
    - intros [=].
    - intros h _ _. reflexivity.
    - intros h [= <-] Hc. congruence.
    - intros px py [= <- <-]. auto. }
  set (rect := getBoundingClientRect pg hit).
  destruct (Qlt_bool x (Box.left rect) || Qle_bool (Box.right rect) x
            || Qlt_bool y (Box.top rect) || Qle_bool (Box.bottom rect) y)
    eqn:Hout.
  { assert (Hnot : ¬ covers rect x y).
    { intros (H1 & H2 & H3 & H4).
      rewrite !orb_true_iff, !Qlt_bool_iff, !Qle_bool_iff in Hout.
      subst rect. destruct Hout as [[[H | H] | H] | H]; Lqa.lra. }
    split_and!.
    - intros [=].
    - intros h _ _. reflexivity.
    - intros h [= <-] _ Hcovers. contradiction.
    - intros px py [= <- <-]. auto. }
  assert (Hcovers : covers rect x y).
  { rewrite !orb_false_iff, !Qlt_bool_false in Hout.
    destruct Hout as [[[H1 H2] H3] H4].
    unfold covers. split_and!; [exact H1 | | exact H3 |].
    - apply Qnot_le_lt. intros Hle. apply Qle_bool_iff in Hle. congruence.
    - apply Qnot_le_lt. intros Hle. apply Qle_bool_iff in Hle. congruence. }
  set (newX := inject_Z (Math_round (Box.right rect + 1))).
  assert (Hkept : ∀ h, Some hit = Some h →
            contains rendering e h = true
            ∨ ¬ covers (getBoundingClientRect pg h) x y → False).
  { intros h [= <-] [Hc | Hn]; [congruence | contradiction]. }
  destruct (Qlt_bool x newX && Qle_bool newX maxX) eqn:Hroom.
  - apply andb_true_iff in Hroom. destruct Hroom as [Hlt Hle].
    apply Qlt_bool_iff in Hlt. apply Qle_bool_iff in Hle.
    destruct (elementFromPoint rendering newX y) as [hit2|] eqn:Hhit2.
    + destruct (contains rendering e hit2) eqn:Hc2.
      * split_and!.
        -- intros [=].
        -- intros h Hh Hk. destruct (Hkept h Hh Hk).
        -- intros h [= <-] _ _. fold rect. fold newX. split; [reflexivity|].
           intros Hnot. exfalso. apply Hnot.
           split_and!; [exact Hlt | exact Hle |]. rewrite Hhit2. eauto.
        -- intros px py [= <- <-]. auto.
      * split_and!.
        -- intros [=].
        -- intros h Hh Hk. destruct (Hkept h Hh Hk).
        -- intros h [= <-] _ _. fold rect. fold newX. split; [|reflexivity].
           intros (_ & _ & h2 & Hh2 & Hc). rewrite Hhit2 in Hh2.
           injection Hh2 as <-. congruence.
        -- intros px py [=].
    + split_and!.
      * intros [=].
      * intros h Hh Hk. destruct (Hkept h Hh Hk).
      * intros h [= <-] _ _. fold rect. fold newX. split; [|reflexivity].
        intros (_ & _ & h2 & Hh2 & _). rewrite Hhit2 in Hh2. discriminate.
      * intros px py [=].
  - split_and!.
    + intros [=].
    + intros h Hh Hk. destruct (Hkept h Hh Hk).
    + intros h [= <-] _ _. fold rect. fold newX. split; [|reflexivity].
      intros (Hlt & Hle & _).
      apply Qlt_bool_iff in Hlt. apply Qle_bool_iff in Hle.
      rewrite Hlt, Hle in Hroom. discriminate.
    + intros px py [=].
Qed.

Lemma Math_min_minimum (xs : list Q) :
  xs ≠ [] →
  ∃ M, Math_min xs = Some M ∧ M ∈ xs ∧ ∀ x, x ∈ xs → (M <= x)%Q.
Proof.
  induction xs as [|x xs IH]; [congruence|]. intros _.
  destruct xs as [|y ys].
  - exists x. split; [reflexivity|]. split; [apply list_elem_of_here|].
    intros z Hz. apply list_elem_of_singleton in Hz. subst z. apply Qle_refl.
  - destruct IH as (M & HM & Hin & Hle); [congruence|].
    change (Math_min (x :: y :: ys))
      with (Some (match Math_min (y :: ys) with
                  | Some m => Qmin x m
                  | None => x
                  end)).
    rewrite HM. exists (Qmin x M). split; [reflexivity|]. split.
    + unfold Qmin, GenericMinMax.gmin.
      destruct (x ?= M)%Q; [apply list_elem_of_here..|].
      apply list_elem_of_further, Hin.
    + intros z Hz. apply elem_of_cons in Hz. destruct Hz as [-> | Hz].
      * apply Q.le_min_l.
      * eapply Qle_trans; [apply Q.le_min_r | apply Hle, Hz].
Qed.

(** X26. For an element with visible boxes, [getMultiRectPoint] gives a
    point that is within one of the boxes, or else, when there is no text
    point, the point aligned [right] at the left edge of the leftmost box
    and halfway between the top of the uppermost box and the bottom of the
    lowest one. *)
Theorem getMultiRectPoint_envelope (e : Node) (visibleBoxes : list Box.t)
    (viewports : list Box.t) :
  visibleBoxes ≠ [] →
  ∃ point,
    getMultiRectPoint pg e visibleBoxes viewports = Some point
    ∧ (existsb (isWithin point) visibleBoxes = true
       ∨ (getBestNonEmptyTextPoint pg e (getBoundingClientRect pg e) viewports
            (λ point, existsb (isWithin point) visibleBoxes) true = None
          ∧ Point.align point = right
          ∧ (∃ b, b ∈ visibleBoxes ∧ Point.x point = Box.x b)
          ∧ (∀ b, b ∈ visibleBoxes → (Point.x point <= Box.x b)%Q)
          ∧ ∃ minY maxY,
              Point.y point = ((minY + maxY) / 2)%Q
              ∧ (∃ b, b ∈ visibleBoxes ∧ minY = Box.y b)
              ∧ (∃ b, b ∈ visibleBoxes ∧ maxY = Box.bottom b)
              ∧ ∀ b, b ∈ visibleBoxes →
                  (minY <= Box.y b)%Q ∧ (Box.bottom b <= maxY)%Q)).
Proof.
  intros Hne. unfold getMultiRectPoint.
  destruct (getBestNonEmptyTextPoint _ _ _ _ _ _) as [textPoint|] eqn:Htext.
  { exists textPoint. split; [reflexivity|]. left.
    apply (getBestNonEmptyTextPoint_acceptable pg _ _ _ _ _ _ Htext). }
  assert (Hmap : ∀ f : Box.t → Q, f <$> visibleBoxes ≠ []).
  { intros f. destruct visibleBoxes; [congruence | discriminate]. }
  destruct (Math_min_minimum (Box.y <$> visibleBoxes) (Hmap _))
    as (minY & -> & HminIn & HminLe).
  destruct (Math_max_maximum (Box.bottom <$> visibleBoxes) (Hmap _))
    as (maxY & -> & HmaxIn & HmaxLe).
  destruct (Math_min_minimum (Box.x <$> visibleBoxes) (Hmap _))
    as (x & -> & HxIn & HxLe).
  eexists. split; [reflexivity|]. right. cbn.
  apply list_elem_of_fmap in HminIn, HmaxIn, HxIn.
  destruct HminIn as (b1 & -> & Hb1), HmaxIn as (b2 & -> & Hb2),
    HxIn as (b3 & -> & Hb3).
  split_and!; try done.
  - eauto.
  - intros b Hb. apply HxLe, list_elem_of_fmap. eauto.
  - exists (Box.y b1), (Box.bottom b2). split_and!; try done; eauto.
    intros b Hb. split.
    + apply HminLe, list_elem_of_fmap. eauto.
    + apply HmaxLe, list_elem_of_fmap. eauto.
Qed.

End HitTesting.

(** X26, at the box of the radio button of the example document. *)
Lemma getMultiRectPoint_envelope_witness :
  ∃ point,
    getMultiRectPoint examplePage 3 [exampleBox 100 100 20 20] []
    = Some point.
Proof.
  destruct (getMultiRectPoint_envelope examplePage 3
              [exampleBox 100 100 20 20] []) as (point & Hpoint & _).
  - discriminate.
  - exists point. exact Hpoint.
Defined.

(** ** Elements of one rect *)

Section Placement.
Variable pg : Page.

Lemma isWithin_getXY (box : Box.t) (align : Align) :
  (0 <= Box.width box)%Q → (0 < Box.height box)%Q →
  isWithin (pointAt (getXY box) align) box = true.
Proof.
  intros Hw Hh. unfold isWithin, pointAt, getXY.
  cbn [Point.x Point.y fst snd].
  rewrite !andb_true_iff, !Qle_bool_iff, Qlt_bool_iff.
  unfold t.MAX_HINT_X_PERCENTAGE_OF_WIDTH, Qdiv.
  change (/ 2)%Q with (1 # 2)%Q.
  split_and!; Lqa.lra.
Qed.

(** X27. For an element that is not scrollable and a visible box of
    positive height and of width at least 0, the point of
    [getSingleRectPoint] is within the visible box, unless it is the
    point of the first visible image and that image is higher than the
    element's rect. *)
Theorem getSingleRectPoint_placement (e : Node) (ty : ElementType)
    (rect visibleBox : Box.t) (viewports : list Box.t) :
  (0 <= Box.width visibleBox)%Q →
  (0 < Box.height visibleBox)%Q →
  ty ≠ scrollable →
  isWithin (getSingleRectPoint pg e ty rect visibleBox viewports) visibleBox
  = true
  ∨ ∃ imageRect,
      getFirstImagePoint pg e viewports
      = Some (getSingleRectPoint pg e ty rect visibleBox viewports, imageRect)
      ∧ (Box.height rect < Box.height imageRect)%Q.
Proof.
  intros Hw Hh Hty. unfold getSingleRectPoint.
  rewrite bool_decide_eq_false_2 by exact Hty.
  destruct (bool_decide (ty = textarea) || _).
  { left. apply isWithin_getXY; assumption. }
  cbv zeta.
  destruct (if instanceof (interface pg e) HTMLSelectElement
               || instanceof (interface pg e) HTMLCanvasElement
            then None
            else getBestNonEmptyTextPoint pg e rect viewports
                   (λ point, isWithin point visibleBox)
                   (bool_decide (ty = selectable)))
    as [textPoint|] eqn:Htext.
  { left. destruct (_ || _); [discriminate|].
    apply (getBestNonEmptyTextPoint_acceptable pg _ _ _
             (λ point, isWithin point visibleBox) _ _ Htext). }
  destruct (getFirstImagePoint pg e viewports) as [[point imageRect]|].
  - destruct (isWithin point visibleBox) eqn:Hin; cbn [orb].
    { left. exact Hin. }
    destruct (Qlt_bool (Box.height rect) (Box.height imageRect)) eqn:Htall.
    { right. exists imageRect. split; [reflexivity|].
      apply Qlt_bool_iff, Htall. }
    destruct (instanceof (interface pg e) HTMLInputElement && _).
    { left. apply isWithin_getXY; assumption. }
    destruct (instanceof (interface pg e) HTMLInputElement || _).
    + destruct (isWithin (getBorderAndPaddingPoint pg e rect visibleBox)
                  visibleBox) eqn:Hb.
      * left. exact Hb.
      * left. apply isWithin_getXY; assumption.
    + left. apply isWithin_getXY; assumption.
  - destruct (instanceof (interface pg e) HTMLInputElement && _).
    { left. apply isWithin_getXY; assumption. }
    destruct (instanceof (interface pg e) HTMLInputElement || _).
    + destruct (isWithin (getBorderAndPaddingPoint pg e rect visibleBox)
                  visibleBox) eqn:Hb.
      * left. exact Hb.
      * left. apply isWithin_getXY; assumption.
    + left. apply isWithin_getXY; assumption.
Qed.

End Placement.

(** X27, at the radio button of the example document. *)
Lemma getSingleRectPoint_placement_witness :
  isWithin
    (getSingleRectPoint examplePage 3 clickable (exampleBox 100 100 20 20)
       (exampleBox 100 100 20 20) [])
    (exampleBox 100 100 20 20) = true
  ∨ ∃ imageRect,
      getFirstImagePoint examplePage 3 []
      = Some
          (getSingleRectPoint examplePage 3 clickable
             (exampleBox 100 100 20 20) (exampleBox 100 100 20 20) [],
           imageRect)
      ∧ (Box.height (exampleBox 100 100 20 20) < Box.height imageRect)%Q.
Proof.
  apply (getSingleRectPoint_placement examplePage 3 clickable
           (exampleBox 100 100 20 20) (exampleBox 100 100 20 20) []).
  - discriminate.
  - reflexivity.
  - discriminate.
Defined.

(** ** Selectable elements *)

Section Selectable.
Variable pg : Page.


End Selectable.

(** * The time-sliced queue and the ceiling of the registry

    The sentences of the specification about the queue that is emptied
    one idle callback at a time, and about the registry that outgrows the
    intersection observer. They rest on the invariants of a run above. *)

(** ** Taking the queue up again *)

Ltac cursors H :=
  let go p := (let E := fresh "E" in pose proof (f_equal p H) as E; cbn in E) in
  go records; go recordIndex; go addedNodeIndex; go removedNodeIndex;
  go childIndex; go children; go removalsOnly.

Ltac alike_all :=
  repeat match goal with
  | H : alike _ _ _ |- _ =>
      let Hi := fresh "Hi" in
      let Hq := fresh "Hq" in
      destruct H as [Hi Hq]; cbn [fst snd] in Hi, Hq; cursors Hi;
      destruct Hq
  end;
  split;
    [ cbn [fst snd];
      unfold upToRecords, upToRecord, upToAdded, upToRemoved, resetChildren,
        set_recordIndex, set_addedNodeIndex, set_removedNodeIndex,
        set_children, set_childIndex;
      cbn; congruence
    | split; cbn [fst snd]; congruence ].

Section Resume.
Variable pg : Page.

Lemma getElementType_set_queue (q : Queue) (m : Manager) (e : Node) :
  getElementType pg (set_queue q m) e = getElementType pg m e.
Proof. reflexivity. Qed.

Lemma addOrRemoveElement_set_queue (mt : MutationType) (e : Node) (q : Queue)
    (m : Manager) :
  addOrRemoveElement pg mt e (set_queue q m)
  = set_queue q (addOrRemoveElement pg mt e m).
Proof.
  unfold addOrRemoveElement.
  assert (Hc : consumeEventAttribute pg e
                 (set_trace ((mt, e) :: trace (set_queue q m)) (set_queue q m))
               = set_queue q
                   (consumeEventAttribute pg e
                      (set_trace ((mt, e) :: trace m) m))).
  { unfold consumeEventAttribute, getAttribute. cbn.
    destruct (attributes m !! _) as [v|]; [|reflexivity].
    destruct (bool_decide _); [reflexivity|].
    destruct (bool_decide _); reflexivity. }
  rewrite Hc. set (m1 := consumeEventAttribute pg e _).
  destruct (isFrame pg e).
  { destruct mt; reflexivity. }
  rewrite getElementType_set_queue.
  destruct (if decide (mt = removed) then None else getElementType pg m1 e).
  - cbn. destruct (bailed m1); [reflexivity|].
    destruct (_ <? _)%Z; [|reflexivity].
    unfold bail. cbn. destruct (bailed m1); reflexivity.
  - destruct (decide (mt ≠ added)); reflexivity.
Qed.

Lemma addOrRemoveElement_queue (mt : MutationType) (e : Node) (m : Manager) :
  queue (addOrRemoveElement pg mt e m) = queue m.
Proof.
  unfold addOrRemoveElement.
  assert (Hc : queue (consumeEventAttribute pg e
                        (set_trace ((mt, e) :: trace m) m)) = queue m).
  { unfold consumeEventAttribute. repeat case_match; reflexivity. }
  set (m1 := consumeEventAttribute pg e _) in *.
  destruct (isFrame pg e).
  { destruct mt; cbn; exact Hc. }
  destruct (if decide (mt = removed) then None else getElementType pg m1 e).
  - cbn. destruct (bailed m1); [exact Hc|].
    destruct (_ <? _)%Z; [|exact Hc].
    unfold bail. cbn. destruct (bailed m1); exact Hc.
  - destruct (decide (mt ≠ added)); exact Hc.
Qed.

Lemma resumes_step {A} (same : A → A → Prop) (paused done : A → Prop)
    (again : A → Outcome A) (s s2 : A) (o : Outcome A) :
  (∀ a b c, same a b → same b c → same a c) →
  same s s2 → again s = again s2 →
  resumes same paused done again s2 o → resumes same paused done again s o.
Proof.
  intros Htrans Hs Ha. unfold resumes.
  destruct o as [s' | s' d'].
  - intros (H1 & H2 & H3). split_and!; [eauto | exact H2 | congruence].
  - intros (H1 & H2 & H3). split_and!; [eauto | exact H2 | congruence].
Qed.

Lemma alike_trans (f : RecordsItem → RecordsItem)
    (a b c : RecordsItem * Manager) :
  alike f a b → alike f b c → alike f a c.
Proof.
  unfold alike, sameQueue. intros (H1 & H2 & H3) (H4 & H5 & H6).
  split_and!; congruence.
Qed.

Lemma alike_refl (f : RecordsItem → RecordsItem) (a : RecordsItem * Manager) :
  alike f a a.
Proof. unfold alike, sameQueue. split_and!; reflexivity. Qed.

Lemma drop_cons_inv {A} (n : nat) (l : list A) (x : A) (rest : list A) :
  drop n l = x :: rest → drop (S n) l = rest ∧ n < length l.
Proof.
  intros H. split.
  - replace (S n) with (n + 1) by lia.
    rewrite <- drop_drop, H. reflexivity.
  - destruct (decide (n < length l)) as [|Hn]; [assumption|].
    rewrite drop_ge in H by lia. discriminate.
Qed.

(** *** The start index is only read by the budget checks *)

Lemma addedChildren_start (s1 s2 : nat) (rest : list Node)
    (item : RecordsItem) (m : Manager) :
  addedChildren pg infiniteDeadline s1 rest item m
  = addedChildren pg infiniteDeadline s2 rest item m.
Proof.
  revert item m. induction rest as [|child rest IH]; intros item m; cbn.
  - reflexivity.
  - rewrite !overBudget_infiniteDeadline. apply IH.
Qed.

Lemma removedChildren_start (s1 s2 : nat) (rest : list Node)
    (item : RecordsItem) (m : Manager) :
  removedChildren pg infiniteDeadline s1 rest item m
  = removedChildren pg infiniteDeadline s2 rest item m.
Proof.
  revert item m. induction rest as [|child rest IH]; intros item m; cbn.
  - reflexivity.
  - rewrite !overBudget_infiniteDeadline. apply IH.
Qed.

Lemma addedLoop_start (s1 s2 : nat) (rest : list Node)
    (item : RecordsItem) (m : Manager) :
  addedLoop pg infiniteDeadline s1 rest item m
  = addedLoop pg infiniteDeadline s2 rest item m.
Proof.
  revert item m. induction rest as [|element rest IH]; intros item m; cbn.
  - reflexivity.
  - rewrite !overBudget_infiniteDeadline.
    destruct (addedNode_completes pg element item m) as [[item' m'] ->].
    apply IH.
Qed.

Lemma removedLoop_start (s1 s2 : nat) (rest : list Node)
    (item : RecordsItem) (m : Manager) :
  removedLoop pg infiniteDeadline s1 rest item m
  = removedLoop pg infiniteDeadline s2 rest item m.
Proof.
  revert item m. induction rest as [|element rest IH]; intros item m; cbn.
  - reflexivity.
  - rewrite !overBudget_infiniteDeadline.
    destruct (removedNode_completes pg element item m) as [[item' m'] ->].
    apply IH.
Qed.

Lemma recordLoop_start (s1 s2 : nat) (rest : list Record_)
    (item : RecordsItem) (m : Manager) :
  recordLoop pg infiniteDeadline s1 rest item m
  = recordLoop pg infiniteDeadline s2 rest item m.
Proof.
  revert item m. induction rest as [|record rest IH]; intros item m; cbn.
  - reflexivity.
  - rewrite !overBudget_infiniteDeadline.
    destruct (processRecord_completes pg record item m) as [[item' m'] ->].
    apply IH.
Qed.

Lemma queueLoop_start (s1 s2 : nat) (rest : list QueueItem) (m : Manager) :
  queueLoop pg infiniteDeadline s1 rest m
  = queueLoop pg infiniteDeadline s2 rest m.
Proof.
  revert m. induction rest as [|item rest IH]; intros m; cbn.
  - reflexivity.
  - rewrite !overBudget_infiniteDeadline. destruct item as [item | |].
    + destruct (recordLoop_completes pg (recordIndex item)
                  (drop (recordIndex item) (records item)) item m)
        as [[item' m'] ->].
      apply IH.
    + apply IH.
    + apply IH.
Qed.

(** *** The walk over the children *)

Lemma addedChildren_resumes (c : list Node) (d : Deadline) (s : nat)
    (item : RecordsItem) (m : Manager) :
  resumes (alike (set_childIndex 0)) (λ _, True) (λ _, True)
    (λ a, addedChildren pg infiniteDeadline 0 (drop (childIndex a.1) c) a.1 a.2)
    (item, m)
    (addedChildren pg d s (drop (childIndex item) c) item m).
Proof.
  remember (drop (childIndex item) c) as rest eqn:Hrest.
  revert d item m Hrest.
  induction rest as [|child rest IH]; intros d item m Hrest.
  - cbn. split_and!; [apply alike_refl | exact I|].
    rewrite <- Hrest. reflexivity.
  - cbn [addedChildren].
    destruct (overBudget _ d) as [[] d'].
    + cbn. split_and!; [apply alike_refl | exact I | reflexivity].
    + symmetry in Hrest. apply drop_cons_inv in Hrest as Hrest'.
      destruct Hrest' as [Hrest' _].
      eapply resumes_step; [apply alike_trans | | | apply IH].
      * unfold alike, sameQueue. cbn.
        split_and!; [reflexivity | |];
          destruct (bool_decide _); cbn; rewrite ?addOrRemoveElement_queue;
          reflexivity.
      * cbn. rewrite Hrest. cbn. rewrite overBudget_infiniteDeadline.
        rewrite Hrest'. reflexivity.
      * cbn. rewrite Hrest'. reflexivity.
Qed.

Lemma removedChildren_resumes (c : list Node) (d : Deadline) (s : nat)
    (item : RecordsItem) (m : Manager) :
  resumes (alike (set_childIndex 0)) (λ _, True) (λ _, True)
    (λ a, removedChildren pg infiniteDeadline 0 (drop (childIndex a.1) c)
            a.1 a.2)
    (item, m)
    (removedChildren pg d s (drop (childIndex item) c) item m).
Proof.
  remember (drop (childIndex item) c) as rest eqn:Hrest.
  revert d item m Hrest.
  induction rest as [|child rest IH]; intros d item m Hrest.
  - cbn. split_and!; [apply alike_refl | exact I|].
    rewrite <- Hrest. reflexivity.
  - cbn [removedChildren].
    destruct (overBudget _ d) as [[] d'].
    + cbn. split_and!; [apply alike_refl | exact I | reflexivity].
    + symmetry in Hrest. apply drop_cons_inv in Hrest as Hrest'.
      destruct Hrest' as [Hrest' _].
      eapply resumes_step; [apply alike_trans | | | apply IH].
      * unfold alike, sameQueue. cbn.
        rewrite ?addOrRemoveElement_queue.
        split_and!; reflexivity.
      * cbn. rewrite Hrest. cbn. rewrite overBudget_infiniteDeadline.
        rewrite Hrest'. reflexivity.
      * cbn. rewrite Hrest'. reflexivity.
Qed.

Lemma walkChildren_resumes
    (walk : Deadline → nat → list Node → RecordsItem → Manager
            → Outcome (RecordsItem * Manager))
    (d : Deadline) (item : RecordsItem) (m : Manager) :
  (∀ s1 s2 rest item m,
     walk infiniteDeadline s1 rest item m
     = walk infiniteDeadline s2 rest item m) →
  (∀ c d s item m,
     resumes (alike (set_childIndex 0)) (λ _, True) (λ _, True)
       (λ a, walk infiniteDeadline 0 (drop (childIndex a.1) c) a.1 a.2)
       (item, m) (walk d s (drop (childIndex item) c) item m)) →
  resumes (alike resetChildren)
    (λ a, is_Some (children a.1)) (λ a, children a.1 = None)
    (λ a, walkChildren walk infiniteDeadline a.1 a.2)
    (item, m) (walkChildren walk d item m).
Proof.
  intros Hstart Hwalk. unfold resumes, walkChildren. cbn [fst snd].
  destruct (children item) as [c|] eqn:Hc;
    [|split_and!; [repeat split | reflexivity | reflexivity]].
  destruct (0 <? length c) eqn:Hlen;
    [|split_and!; [repeat split | reflexivity | reflexivity]].
  specialize (Hwalk c d (childIndex item) item m).
  rewrite (Hstart (childIndex item) 0).
  destruct (walk d _ _ item m) as [[item' m'] | [item' m'] d'];
    cbn [resumes fst snd] in Hwalk |- *.
  - destruct Hwalk as ((Hi & Hq) & _ & Ha). cbn [fst snd] in Hi, Hq.
    assert (Hc' : children item' = Some c).
    { apply (f_equal children) in Hi. cbn in Hi. congruence. }
    split_and!.
    + split; [|exact Hq]. cbn [fst snd]. unfold resetChildren.
      rewrite Hi. reflexivity.
    + rewrite Hc'. eexists. reflexivity.
    + rewrite Hc', Hlen, (Hstart (childIndex item') 0), Ha. reflexivity.
  - destruct Hwalk as ((Hi & Hq) & _ & Ha). cbn [fst snd] in Hi, Hq.
    split_and!.
    + split; [|exact Hq]. cbn [fst snd]. unfold resetChildren.
      cbn. apply (f_equal (set_children None)) in Hi. exact Hi.
    + reflexivity.
    + rewrite Ha. reflexivity.
Qed.

(** *** One added or removed node *)

Lemma addedNode_resumes (d : Deadline) (element : Node) (item : RecordsItem)
    (m : Manager) :
  resumes (alike resetChildren)
    (λ a, is_Some (children a.1)) (λ a, children a.1 = None)
    (λ a, addedNode pg infiniteDeadline element a.1 a.2)
    (item, m) (addedNode pg d element item m).
Proof.
  pose proof (λ d item m,
                walkChildren_resumes (addedChildren pg) d item m
                  addedChildren_start addedChildren_resumes) as Hwalk.
  assert (Hpaused : ∀ item' m',
            is_Some (children item') →
            addedNode pg infiniteDeadline element item' m'
            = walkChildren (addedChildren pg) infiniteDeadline item' m').
  { intros item' m' [c Hc]. unfold addedNode. rewrite Hc.
    rewrite bool_decide_eq_false_2 by discriminate. reflexivity. }
  unfold addedNode at 2.
  destruct (bool_decide (children item = None)) eqn:Hnone; cbn [andb].
  - destruct (instanceof (interface pg element) HTMLElement) eqn:Hel.
    + destruct (bool_decide (element ∈ addedElements (queue m))) eqn:Hin.
      * cbn [resumes fst snd]. apply bool_decide_eq_true in Hnone.
        split_and!; [apply alike_refl | exact Hnone|].
        unfold addedNode. rewrite Hnone, Hel, Hin.
        rewrite bool_decide_eq_true_2 by reflexivity. reflexivity.
      * set (item1 := set_children (Some (querySelectorAll pg element)) item).
        set (m1 := addedElements_add element
                     (addOrRemoveElement pg added element m)).
        assert (H1 : alike resetChildren (item, m) (item1, m1)).
        { unfold alike, sameQueue, m1, addedElements_add. cbn.
          rewrite addOrRemoveElement_queue. split_and!; reflexivity. }
        assert (Hagain : addedNode pg infiniteDeadline element item m
                         = walkChildren (addedChildren pg) infiniteDeadline
                             item1 m1).
        { unfold addedNode. rewrite Hnone, Hel, Hin. reflexivity. }
        destruct (exhausted d).
        -- cbn [resumes fst snd]. split_and!; [exact H1 | eexists; reflexivity|].
           rewrite Hagain. apply Hpaused. eexists; reflexivity.
        -- specialize (Hwalk (later d) item1 m1).
           destruct (walkChildren _ _ item1 m1)
             as [[item' m'] | [item' m'] d'];
             cbn [resumes fst snd] in Hwalk |- *;
             destruct Hwalk as (H2 & H3 & H4).
           ++ split_and!; [exact (alike_trans _ _ _ _ H1 H2) | exact H3|].
              rewrite Hagain, Hpaused by exact H3. exact H4.
           ++ split_and!; [exact (alike_trans _ _ _ _ H1 H2) | exact H3|].
              rewrite Hagain. exact H4.
    + specialize (Hwalk d item m).
      assert (Hagain : ∀ item' m',
                addedNode pg infiniteDeadline element item' m'
                = walkChildren (addedChildren pg) infiniteDeadline item' m').
      { intros item' m'. unfold addedNode. rewrite Hel, andb_false_r.
        reflexivity. }
      destruct (walkChildren _ _ item m) as [[item' m'] | [item' m'] d'];
        cbn [resumes fst snd] in Hwalk |- *; rewrite !Hagain; exact Hwalk.
  - specialize (Hwalk d item m).
    assert (Hagain : addedNode pg infiniteDeadline element item m
                     = walkChildren (addedChildren pg) infiniteDeadline item m).
    { unfold addedNode. rewrite Hnone. reflexivity. }
    destruct (walkChildren _ _ item m) as [[item' m'] | [item' m'] d'];
      cbn [resumes fst snd] in Hwalk |- *;
      destruct Hwalk as (H2 & H3 & H4).
    + split_and!; [exact H2 | exact H3|].
      rewrite Hagain, Hpaused by exact H3. exact H4.
    + split_and!; [exact H2 | exact H3|]. rewrite Hagain. exact H4.
Qed.

Lemma removedNode_resumes (d : Deadline) (element : Node) (item : RecordsItem)
    (m : Manager) :
  resumes (alike resetChildren)
    (λ a, is_Some (children a.1)) (λ a, children a.1 = None)
    (λ a, removedNode pg infiniteDeadline element a.1 a.2)
    (item, m) (removedNode pg d element item m).
Proof.
  pose proof (λ d item m,
                walkChildren_resumes (removedChildren pg) d item m
                  removedChildren_start removedChildren_resumes) as Hwalk.
  assert (Hpaused : ∀ item' m',
            is_Some (children item') →
            removedNode pg infiniteDeadline element item' m'
            = walkChildren (removedChildren pg) infiniteDeadline item' m').
  { intros item' m' [c Hc]. unfold removedNode. rewrite Hc.
    rewrite bool_decide_eq_false_2 by discriminate. reflexivity. }
  unfold removedNode at 2.
  destruct (bool_decide (children item = None)) eqn:Hnone; cbn [andb].
  - destruct (instanceof (interface pg element) HTMLElement) eqn:Hel.
    + set (item1 := set_children (Some (querySelectorAll pg element)) item).
      set (m1 := addedElements_delete element
                   (addOrRemoveElement pg removed element m)).
      assert (H1 : alike resetChildren (item, m) (item1, m1)).
      { unfold alike, sameQueue, m1, addedElements_delete. cbn.
        rewrite addOrRemoveElement_queue. split_and!; reflexivity. }
      assert (Hagain : removedNode pg infiniteDeadline element item m
                       = walkChildren (removedChildren pg) infiniteDeadline
                           item1 m1).
      { unfold removedNode. rewrite Hnone, Hel. reflexivity. }
      destruct (exhausted d).
      * cbn [resumes fst snd]. split_and!; [exact H1 | eexists; reflexivity|].
        rewrite Hagain. apply Hpaused. eexists; reflexivity.
      * specialize (Hwalk (later d) item1 m1).
        destruct (walkChildren _ _ item1 m1)
          as [[item' m'] | [item' m'] d'];
          cbn [resumes fst snd] in Hwalk |- *;
          destruct Hwalk as (H2 & H3 & H4).
        -- split_and!; [exact (alike_trans _ _ _ _ H1 H2) | exact H3|].
           rewrite Hagain, Hpaused by exact H3. exact H4.
        -- split_and!; [exact (alike_trans _ _ _ _ H1 H2) | exact H3|].
           rewrite Hagain. exact H4.
    + specialize (Hwalk d item m).
      assert (Hagain : ∀ item' m',
                removedNode pg infiniteDeadline element item' m'
                = walkChildren (removedChildren pg) infiniteDeadline item' m').
      { intros item' m'. unfold removedNode. rewrite Hel, andb_false_r.
        reflexivity. }
      destruct (walkChildren _ _ item m) as [[item' m'] | [item' m'] d'];
        cbn [resumes fst snd] in Hwalk |- *; rewrite !Hagain; exact Hwalk.
  - specialize (Hwalk d item m).
    assert (Hagain : removedNode pg infiniteDeadline element item m
                     = walkChildren (removedChildren pg) infiniteDeadline
                         item m).
    { unfold removedNode. rewrite Hnone. reflexivity. }
    destruct (walkChildren _ _ item m) as [[item' m'] | [item' m'] d'];
      cbn [resumes fst snd] in Hwalk |- *;
      destruct Hwalk as (H2 & H3 & H4).
    + split_and!; [exact H2 | exact H3|].
      rewrite Hagain, Hpaused by exact H3. exact H4.
    + split_and!; [exact H2 | exact H3|]. rewrite Hagain. exact H4.
Qed.

(** *** The loops over the added and the removed nodes *)

Lemma addedLoop_resumes (nodes : list Node) (d : Deadline) (s : nat)
    (item : RecordsItem) (m : Manager) :
  resumes (alike upToAdded)
    (λ _, True) (λ a, length nodes ≤ addedNodeIndex a.1)
    (λ a, addedLoop pg infiniteDeadline 0 (drop (addedNodeIndex a.1) nodes)
            a.1 a.2)
    (item, m) (addedLoop pg d s (drop (addedNodeIndex item) nodes) item m).
Proof.
  remember (drop (addedNodeIndex item) nodes) as rest eqn:Hrest.
  revert d item m Hrest.
  induction rest as [|element rest IH]; intros d item m Hrest.
  - cbn [addedLoop resumes fst snd]. split_and!; [apply alike_refl | |].
    + apply (f_equal length) in Hrest. rewrite length_drop in Hrest.
      cbn in Hrest. lia.
    + rewrite <- Hrest. reflexivity.
  - cbn [addedLoop].
    destruct (overBudget _ d) as [[] d'].
    + cbn [resumes]. split_and!; [apply alike_refl | exact I | reflexivity].
    + symmetry in Hrest. destruct (drop_cons_inv _ _ _ _ Hrest) as [Hrest' _].
      pose proof (addedNode_resumes d' element item m) as Hnode.
      destruct (addedNode pg d' element item m)
        as [[item' m'] | [item' m'] d''];
        cbn [resumes fst snd] in Hnode; destruct Hnode as (H1 & H2 & H3).
      * cbn [resumes fst snd].
        assert (Hidx : addedNodeIndex item' = addedNodeIndex item).
        { destruct H1 as [Hi _]. cursors Hi. assumption. }
        split_and!; [alike_all | exact I|].
        rewrite Hidx, Hrest. cbn [addedLoop].
        rewrite !overBudget_infiniteDeadline, H3. reflexivity.
      * assert (Hidx : addedNodeIndex item' = addedNodeIndex item).
        { destruct H1 as [Hi _]. cursors Hi. assumption. }
        eapply resumes_step; [apply alike_trans | | | apply IH].
        -- alike_all.
        -- cbn [fst snd]. rewrite Hrest. cbn [addedLoop].
           rewrite overBudget_infiniteDeadline, H3.
           cbn [set_addedNodeIndex addedNodeIndex]. rewrite Hidx, Hrest'.
           reflexivity.
        -- cbn [set_addedNodeIndex addedNodeIndex]. rewrite Hidx, Hrest'.
           reflexivity.
Qed.

Lemma removedLoop_resumes (nodes : list Node) (d : Deadline) (s : nat)
    (item : RecordsItem) (m : Manager) :
  resumes (alike upToRemoved)
    (λ _, True) (λ a, length nodes ≤ removedNodeIndex a.1)
    (λ a, removedLoop pg infiniteDeadline 0
            (drop (removedNodeIndex a.1) nodes) a.1 a.2)
    (item, m) (removedLoop pg d s (drop (removedNodeIndex item) nodes) item m).
Proof.
  remember (drop (removedNodeIndex item) nodes) as rest eqn:Hrest.
  revert d item m Hrest.
  induction rest as [|element rest IH]; intros d item m Hrest.
  - cbn [removedLoop resumes fst snd]. split_and!; [apply alike_refl | |].
    + apply (f_equal length) in Hrest. rewrite length_drop in Hrest.
      cbn in Hrest. lia.
    + rewrite <- Hrest. reflexivity.
  - cbn [removedLoop].
    destruct (overBudget _ d) as [[] d'].
    + cbn [resumes]. split_and!; [apply alike_refl | exact I | reflexivity].
    + symmetry in Hrest. destruct (drop_cons_inv _ _ _ _ Hrest) as [Hrest' _].
      pose proof (removedNode_resumes d' element item m) as Hnode.
      destruct (removedNode pg d' element item m)
        as [[item' m'] | [item' m'] d''];
        cbn [resumes fst snd] in Hnode; destruct Hnode as (H1 & H2 & H3).
      * cbn [resumes fst snd].
        assert (Hidx : removedNodeIndex item' = removedNodeIndex item).
        { destruct H1 as [Hi _]. cursors Hi. assumption. }
        split_and!; [alike_all | exact I|].
        rewrite Hidx, Hrest. cbn [removedLoop].
        rewrite !overBudget_infiniteDeadline, H3. reflexivity.
      * assert (Hidx : removedNodeIndex item' = removedNodeIndex item).
        { destruct H1 as [Hi _]. cursors Hi. assumption. }
        eapply resumes_step; [apply alike_trans | | | apply IH].
        -- alike_all.
        -- cbn [fst snd]. rewrite Hrest. cbn [removedLoop].
           rewrite overBudget_infiniteDeadline, H3.
           cbn [set_removedNodeIndex removedNodeIndex]. rewrite Hidx, Hrest'.
           reflexivity.
        -- cbn [set_removedNodeIndex removedNodeIndex]. rewrite Hidx, Hrest'.
           reflexivity.
Qed.

(** *** One record *)

Lemma processRecord_resumes (d : Deadline) (record : Record_)
    (item : RecordsItem) (m : Manager) :
  resumes (alike upToRecord) (λ _, True) (λ _, True)
    (λ a, processRecord pg infiniteDeadline record a.1 a.2)
    (item, m) (processRecord pg d record item m).
Proof.
  set (tail := λ o : Outcome (RecordsItem * Manager),
         match o with
         | Yield s => Yield s
         | Next (item, m) d =>
             let item := set_removedNodeIndex 0 (set_addedNodeIndex 0 item) in
             let m :=
               if negb (removalsOnly item)
                  && bool_decide (is_Some (attributeName record))
                  && instanceof (interface pg (target record)) HTMLElement
               then addOrRemoveElement pg changed (target record) m
               else m in
             Next (item, m) d
         end).
  assert (Hdef : ∀ d item m,
            processRecord pg d record item m
            = match
                if removalsOnly item then Next (item, m) d
                else addedLoop pg d (addedNodeIndex item)
                       (drop (addedNodeIndex item) (addedNodes record)) item m
              with
              | Yield s => Yield s
              | Next (item1, m1) d1 =>
                  tail (removedLoop pg d1 (removedNodeIndex item)
                          (drop (removedNodeIndex item1) (removedNodes record))
                          item1 m1)
              end) by reflexivity.
  assert (Honly : ∀ item m,
            removalsOnly item = true →
            processRecord pg infiniteDeadline record item m
            = tail (removedLoop pg infiniteDeadline 0
                      (drop (removedNodeIndex item) (removedNodes record))
                      item m)).
  { intros item0 m0 H. rewrite Hdef, H. apply f_equal, removedLoop_start. }
  assert (Hboth : ∀ item m item1 m1,
            removalsOnly item = false →
            addedLoop pg infiniteDeadline 0
              (drop (addedNodeIndex item) (addedNodes record)) item m
            = Next (item1, m1) infiniteDeadline →
            processRecord pg infiniteDeadline record item m
            = tail (removedLoop pg infiniteDeadline 0
                      (drop (removedNodeIndex item1) (removedNodes record))
                      item1 m1)).
  { intros item0 m0 item1 m1 H H0.
    rewrite Hdef, H, (addedLoop_start _ 0), H0.
    apply f_equal, removedLoop_start. }
  assert (Htail : ∀ item2 m2,
            ∃ item3 m3,
              (∀ d2, tail (Next (item2, m2) d2) = Next (item3, m3) d2)
              ∧ alike upToRecord (item2, m2) (item3, m3)).
  { intros item2 m2. cbn [tail]. eexists _, _. split; [reflexivity|].
    split; [reflexivity|]. cbn [fst snd].
    destruct (_ && _); [|split; reflexivity].
    unfold sameQueue. rewrite addOrRemoveElement_queue. split; reflexivity. }
  rewrite Hdef. destruct (removalsOnly item) eqn:Hro.
  - pose proof (removedLoop_resumes (removedNodes record) d
                  (removedNodeIndex item) item m) as Hrem.
    destruct (removedLoop pg d _ _ item m) as [[item' m'] | [item' m'] d'];
      cbn [resumes fst snd] in Hrem; destruct Hrem as (H1 & _ & H3).
    + cbn [tail resumes fst snd].
      assert (Hro' : removalsOnly item' = true).
      { destruct H1 as [Hi _]. cursors Hi. congruence. }
      split_and!; [alike_all | exact I|].
      rewrite !Honly, H3 by assumption. reflexivity.
    + destruct (Htail item' m') as (item3 & m3 & H5 & H4).
      rewrite H5. cbn [resumes fst snd].
      split_and!; [alike_all | exact I|].
      rewrite Honly, H3 by assumption. apply H5.
  - pose proof (addedLoop_resumes (addedNodes record) d
                  (addedNodeIndex item) item m) as Hadd.
    destruct (addedLoop pg d _ _ item m) as [[item1 m1] | [item1 m1] d1];
      cbn [resumes fst snd] in Hadd; destruct Hadd as (H1 & Hdone & H3).
    + cbn [resumes fst snd].
      assert (Hro' : removalsOnly item1 = false).
      { destruct H1 as [Hi _]. cursors Hi. congruence. }
      destruct (addedLoop_completes pg 0
                  (drop (addedNodeIndex item) (addedNodes record)) item m)
        as [[item2 m2] H2].
      split_and!; [alike_all | exact I|].
      rewrite (Hboth item1 m1 item2 m2), (Hboth item m item2 m2);
        [reflexivity | assumption | assumption | assumption | congruence].
    + pose proof (removedLoop_resumes (removedNodes record) d1
                    (removedNodeIndex item) item1 m1) as Hrem.
      destruct (removedLoop pg d1 _ _ item1 m1)
        as [[item' m'] | [item' m'] d'];
        cbn [resumes fst snd] in Hrem; destruct Hrem as (H1' & _ & H3').
      * cbn [tail resumes fst snd].
        assert (Hro' : removalsOnly item' = false).
        { destruct H1 as [Hi _], H1' as [Hi' _]. cursors Hi. cursors Hi'.
          congruence. }
        assert (Hnil : drop (addedNodeIndex item') (addedNodes record) = []).
        { destruct H1' as [Hi' _]. cursors Hi'. apply drop_ge. lia. }
        split_and!; [alike_all | exact I|].
        rewrite (Hboth item' m' item' m'), (Hboth item m item1 m1), H3';
          [reflexivity | assumption | assumption | assumption|].
        rewrite Hnil. reflexivity.
      * destruct (Htail item' m') as (item3 & m3 & H5 & H4).
        rewrite H5. cbn [resumes fst snd].
        split_and!; [alike_all | exact I|].
        rewrite (Hboth item m item1 m1), H3' by assumption. apply H5.
Qed.

(** *** The loop over the records *)

Lemma recordLoop_resumes (d : Deadline) (s : nat) (item : RecordsItem)
    (m : Manager) :
  resumes (alike upToRecords) (λ _, True) (λ _, True)
    (λ a, recordLoop pg infiniteDeadline 0
            (drop (recordIndex a.1) (records a.1)) a.1 a.2)
    (item, m)
    (recordLoop pg d s (drop (recordIndex item) (records item)) item m).
Proof.
  remember (drop (recordIndex item) (records item)) as rest eqn:Hrest.
  revert d item m Hrest.
  induction rest as [|record rest IH]; intros d item m Hrest.
  - cbn [recordLoop resumes fst snd].
    split_and!; [apply alike_refl | exact I|].
    rewrite <- Hrest. reflexivity.
  - cbn [recordLoop].
    destruct (overBudget _ d) as [[] d'].
    + cbn [resumes]. split_and!; [apply alike_refl | exact I | reflexivity].
    + symmetry in Hrest. destruct (drop_cons_inv _ _ _ _ Hrest) as [Hrest' _].
      pose proof (processRecord_resumes d' record item m) as Hrec.
      destruct (processRecord pg d' record item m)
        as [[item' m'] | [item' m'] d''];
        cbn [resumes fst snd] in Hrec; destruct Hrec as (H1 & _ & H3).
      * cbn [resumes fst snd].
        assert (Hidx : recordIndex item' = recordIndex item
                       ∧ records item' = records item).
        { destruct H1 as [Hi _]. cursors Hi. split; assumption. }
        destruct Hidx as [Hidx Hrs].
        split_and!; [alike_all | exact I|].
        rewrite Hidx, Hrs, Hrest. cbn [recordLoop].
        rewrite !overBudget_infiniteDeadline, H3. reflexivity.
      * assert (Hidx : recordIndex item' = recordIndex item
                       ∧ records item' = records item).
        { destruct H1 as [Hi _]. cursors Hi. split; assumption. }
        destruct Hidx as [Hidx Hrs].
        eapply resumes_step; [apply alike_trans | | | apply IH].
        -- alike_all.
        -- cbn [fst snd]. rewrite Hrest. cbn [recordLoop].
           rewrite overBudget_infiniteDeadline, H3.
           cbn [set_recordIndex recordIndex records].
           rewrite Hidx, Hrs, Hrest'. reflexivity.
        -- cbn [set_recordIndex recordIndex records].
           rewrite Hidx, Hrs, Hrest'. reflexivity.
Qed.

(** *** The loops do not read the items of the queue *)

Lemma addOrRemoveElement_withItems (mt : MutationType) (e : Node)
    (l : list QueueItem) (m : Manager) :
  addOrRemoveElement pg mt e (withItems l m)
  = withItems l (addOrRemoveElement pg mt e m).
Proof.
  unfold withItems.
  rewrite addOrRemoveElement_set_queue, addOrRemoveElement_queue.
  reflexivity.
Qed.

Lemma addedElements_add_withItems (e : Node) (l : list QueueItem)
    (m : Manager) :
  addedElements_add e (withItems l m) = withItems l (addedElements_add e m).
Proof. reflexivity. Qed.

Lemma addedElements_delete_withItems (e : Node) (l : list QueueItem)
    (m : Manager) :
  addedElements_delete e (withItems l m)
  = withItems l (addedElements_delete e m).
Proof. reflexivity. Qed.

Lemma addedChildren_withItems (l : list QueueItem) (d : Deadline) (s : nat)
    (rest : list Node) (item : RecordsItem) (m : Manager) :
  addedChildren pg d s rest item (withItems l m)
  = onOutcome (withItems l) (addedChildren pg d s rest item m).
Proof.
  revert d item m. induction rest as [|child rest IH]; intros d item m.
  - reflexivity.
  - cbn [addedChildren]. destruct (overBudget _ d) as [[] d']; [reflexivity|].
    change (addedElements (queue (withItems l m)))
      with (addedElements (queue m)).
    destruct (bool_decide _); [apply IH|].
    rewrite addOrRemoveElement_withItems, addedElements_add_withItems.
    apply IH.
Qed.

Lemma removedChildren_withItems (l : list QueueItem) (d : Deadline) (s : nat)
    (rest : list Node) (item : RecordsItem) (m : Manager) :
  removedChildren pg d s rest item (withItems l m)
  = onOutcome (withItems l) (removedChildren pg d s rest item m).
Proof.
  revert d item m. induction rest as [|child rest IH]; intros d item m.
  - reflexivity.
  - cbn [removedChildren].
    destruct (overBudget _ d) as [[] d']; [reflexivity|].
    rewrite addOrRemoveElement_withItems, addedElements_delete_withItems.
    apply IH.
Qed.

Lemma walkChildren_withItems
    (walk : Deadline → nat → list Node → RecordsItem → Manager
            → Outcome (RecordsItem * Manager))
    (l : list QueueItem) (d : Deadline) (item : RecordsItem) (m : Manager) :
  (∀ d s rest item m,
     walk d s rest item (withItems l m)
     = onOutcome (withItems l) (walk d s rest item m)) →
  walkChildren walk d item (withItems l m)
  = onOutcome (withItems l) (walkChildren walk d item m).
Proof.
  intros Hwalk. unfold walkChildren.
  destruct (children item) as [c|]; [|reflexivity].
  destruct (0 <? length c); [|reflexivity].
  rewrite Hwalk.
  destruct (walk d _ _ item m) as [[item' m'] | [item' m'] d']; reflexivity.
Qed.

Lemma addedNode_withItems (l : list QueueItem) (d : Deadline) (element : Node)
    (item : RecordsItem) (m : Manager) :
  addedNode pg d element item (withItems l m)
  = onOutcome (withItems l) (addedNode pg d element item m).
Proof.
  unfold addedNode.
  change (addedElements (queue (withItems l m)))
    with (addedElements (queue m)).
  rewrite addOrRemoveElement_withItems, addedElements_add_withItems.
  destruct (_ && _).
  - destruct (bool_decide _); [reflexivity|].
    destruct (exhausted d); [reflexivity|].
    apply walkChildren_withItems, addedChildren_withItems.
  - apply walkChildren_withItems, addedChildren_withItems.
Qed.

Lemma removedNode_withItems (l : list QueueItem) (d : Deadline)
    (element : Node) (item : RecordsItem) (m : Manager) :
  removedNode pg d element item (withItems l m)
  = onOutcome (withItems l) (removedNode pg d element item m).
Proof.
  unfold removedNode.
  rewrite addOrRemoveElement_withItems, addedElements_delete_withItems.
  destruct (_ && _).
  - destruct (exhausted d); [reflexivity|].
    apply walkChildren_withItems, removedChildren_withItems.
  - apply walkChildren_withItems, removedChildren_withItems.
Qed.

Lemma addedLoop_withItems (l : list QueueItem) (d : Deadline) (s : nat)
    (rest : list Node) (item : RecordsItem) (m : Manager) :
  addedLoop pg d s rest item (withItems l m)
  = onOutcome (withItems l) (addedLoop pg d s rest item m).
Proof.
  revert d item m. induction rest as [|element rest IH]; intros d item m.
  - reflexivity.
  - cbn [addedLoop]. destruct (overBudget _ d) as [[] d']; [reflexivity|].
    rewrite addedNode_withItems.
    destruct (addedNode pg d' element item m)
      as [[item' m'] | [item' m'] d'']; [reflexivity|].
    cbn [onOutcome]. apply IH.
Qed.

Lemma removedLoop_withItems (l : list QueueItem) (d : Deadline) (s : nat)
    (rest : list Node) (item : RecordsItem) (m : Manager) :
  removedLoop pg d s rest item (withItems l m)
  = onOutcome (withItems l) (removedLoop pg d s rest item m).
Proof.
  revert d item m. induction rest as [|element rest IH]; intros d item m.
  - reflexivity.
  - cbn [removedLoop]. destruct (overBudget _ d) as [[] d']; [reflexivity|].
    rewrite removedNode_withItems.
    destruct (removedNode pg d' element item m)
      as [[item' m'] | [item' m'] d'']; [reflexivity|].
    cbn [onOutcome]. apply IH.
Qed.

Lemma processRecord_withItems (l : list QueueItem) (d : Deadline)
    (record : Record_) (item : RecordsItem) (m : Manager) :
  processRecord pg d record item (withItems l m)
  = onOutcome (withItems l) (processRecord pg d record item m).
Proof.
  unfold processRecord.
  assert (H : (if removalsOnly item then Next (item, withItems l m) d
               else addedLoop pg d (addedNodeIndex item)
                      (drop (addedNodeIndex item) (addedNodes record))
                      item (withItems l m))
              = onOutcome (withItems l)
                  (if removalsOnly item then Next (item, m) d
                   else addedLoop pg d (addedNodeIndex item)
                          (drop (addedNodeIndex item) (addedNodes record))
                          item m)).
  { destruct (removalsOnly item); [reflexivity | apply addedLoop_withItems]. }
  rewrite H. clear H.
  destruct (if removalsOnly item then _ else _)
    as [[item1 m1] | [item1 m1] d1]; [reflexivity|].
  cbn [onOutcome]. rewrite removedLoop_withItems.
  destruct (removedLoop pg d1 _ _ item1 m1)
    as [[item2 m2] | [item2 m2] d2]; [reflexivity|].
  cbn [onOutcome]. rewrite addOrRemoveElement_withItems.
  destruct (_ && _); reflexivity.
Qed.

Lemma recordLoop_withItems (l : list QueueItem) (d : Deadline) (s : nat)
    (rest : list Record_) (item : RecordsItem) (m : Manager) :
  recordLoop pg d s rest item (withItems l m)
  = onOutcome (withItems l) (recordLoop pg d s rest item m).
Proof.
  revert d item m. induction rest as [|record rest IH]; intros d item m.
  - reflexivity.
  - cbn [recordLoop]. destruct (overBudget _ d) as [[] d']; [reflexivity|].
    rewrite processRecord_withItems.
    destruct (processRecord pg d' record item m)
      as [[item' m'] | [item' m'] d'']; [reflexivity|].
    cbn [onOutcome]. apply IH.
Qed.

(** *** The loop over the items *)

Lemma drop_insert_here {A} (l : list A) (i : nat) (x : A) :
  i < length l → drop i (<[i:=x]> l) = x :: drop (S i) l.
Proof.
  revert i. induction l as [|a l IH]; intros [|i] H; cbn in *; try lia.
  - reflexivity.
  - apply IH. lia.
Qed.

Lemma clickableChanged_queue (target : Node) (b : bool) (m : Manager) :
  queue (clickableChanged pg target b m) = queue m.
Proof.
  unfold clickableChanged. destruct (instanceof _ _); [|reflexivity].
  rewrite addOrRemoveElement_queue. reflexivity.
Qed.

Lemma overflowChanged_queue (target : Node) (m : Manager) :
  queue (overflowChanged pg target m) = queue m.
Proof.
  unfold overflowChanged.
  repeat case_match; rewrite ?addOrRemoveElement_queue; reflexivity.
Qed.

Lemma queueLoop_resumes (d : Deadline) (s : nat) (m : Manager) :
  resumes (λ _ _, True) (λ m', items (queue m') ≠ []) (λ _, True)
    (λ m, queueLoop pg infiniteDeadline 0
            (drop (index (queue m)) (items (queue m))) m)
    m (queueLoop pg d s (drop (index (queue m)) (items (queue m))) m).
Proof.
  remember (drop (index (queue m)) (items (queue m))) as rest eqn:Hrest.
  revert d m Hrest.
  induction rest as [|qi rest IH]; intros d m Hrest.
  - cbn [queueLoop resumes]. split_and!; [exact I | exact I|].
    rewrite <- Hrest. reflexivity.
  - cbn [queueLoop]. symmetry in Hrest.
    destruct (drop_cons_inv _ _ _ _ Hrest) as [Hrest' Hlt].
    destruct (overBudget _ d) as [[] d'].
    + cbn [resumes]. split_and!; [exact I | | reflexivity].
      intros H. rewrite H in Hlt. cbn in Hlt. lia.
    + destruct qi as [item | target b | target].
      * pose proof (recordLoop_resumes d' (recordIndex item) item m) as Hrec.
        destruct (recordLoop pg d' _ _ item m)
          as [[item' m'] | [item' m'] d''];
          cbn [resumes fst snd] in Hrec; destruct Hrec as (H1 & _ & H3);
          destruct H1 as [_ [Hitems Hindex]]; cbn [fst snd] in Hitems, Hindex.
        -- cbn [resumes]. split_and!; [exact I | |].
           { cbn. intros H. apply (f_equal length) in H.
             rewrite length_insert, Hitems in H. cbn in H. lia. }
           destruct (recordLoop_completes pg 0
                       (drop (recordIndex item) (records item)) item m)
             as [[itemF mF] HF].
           pose proof (recordLoop_resumes infiniteDeadline 0 item m) as HF'.
           rewrite HF in HF'. cbn [resumes fst snd] in HF'.
           destruct HF' as ([_ [HitemsF HindexF]] & _ & _).
           cbn [fst snd] in HitemsF, HindexF.
           rewrite Hrest. cbn [queueLoop].
           rewrite overBudget_infiniteDeadline, (recordLoop_start _ 0), HF.
           change (index (queue (storeItem item' m')))
             with (index (queue m')).
           change (items (queue (storeItem item' m')))
             with (<[index (queue m') := Records item']> (items (queue m'))).
           rewrite Hindex, Hitems, drop_insert_here, Hrest' by exact Hlt.
           cbn [queueLoop]. rewrite overBudget_infiniteDeadline.
           change (storeItem item' m')
             with (withItems
                     (<[index (queue m') := Records item']> (items (queue m')))
                     m').
           rewrite recordLoop_withItems, (recordLoop_start _ 0), H3, HF.
           cbn [onOutcome]. f_equal.
           unfold nextItem, storeItem, withItems, set_queue, set_items,
             set_index.
           cbn. rewrite Hindex, Hitems, HindexF, HitemsF.
           rewrite list_insert_insert_eq. reflexivity.
        -- eapply resumes_step; [auto | exact I | | apply IH].
           ++ rewrite Hrest. cbn [queueLoop].
              rewrite overBudget_infiniteDeadline, (recordLoop_start _ 0), H3.
              change (index (queue (nextItem (storeItem item' m'))))
                with (S (index (queue m'))).
              change (items (queue (nextItem (storeItem item' m'))))
                with (<[index (queue m') := Records item']>
                        (items (queue m'))).
              rewrite drop_insert_lt, Hindex, Hitems, Hrest' by lia.
              reflexivity.
           ++ change (index (queue (nextItem (storeItem item' m'))))
                with (S (index (queue m'))).
              change (items (queue (nextItem (storeItem item' m'))))
                with (<[index (queue m') := Records item']>
                        (items (queue m'))).
              rewrite drop_insert_lt, Hindex, Hitems, Hrest' by lia.
              reflexivity.
      * assert (Hq : drop (index (queue (nextItem
                                           (clickableChanged pg target b m))))
                       (items (queue (nextItem
                                        (clickableChanged pg target b m))))
                     = rest).
        { unfold nextItem. cbn. rewrite clickableChanged_queue. exact Hrest'. }
        eapply resumes_step; [auto | exact I | | apply IH].
        -- rewrite Hq, Hrest. cbn [queueLoop].
           rewrite overBudget_infiniteDeadline. reflexivity.
        -- symmetry. exact Hq.
      * assert (Hq : drop (index (queue (nextItem
                                           (overflowChanged pg target m))))
                       (items (queue (nextItem
                                        (overflowChanged pg target m))))
                     = rest).
        { unfold nextItem. cbn. rewrite overflowChanged_queue. exact Hrest'. }
        eapply resumes_step; [auto | exact I | | apply IH].
        -- rewrite Hq, Hrest. cbn [queueLoop].
           rewrite overBudget_infiniteDeadline. reflexivity.
        -- symmetry. exact Hq.
Qed.

(** *** [flushQueue] *)

Lemma flushQueue_manager (d : Deadline) (em1 em2 : ElementManager) :
  manager em1 = manager em2 →
  manager (flushQueue pg d em1) = manager (flushQueue pg d em2).
Proof.
  intros H. unfold flushQueue. rewrite H.
  destruct (queueLoop _ _ _ _ _) as [m' | m' d']; [|reflexivity].
  unfold requestIdleCallback. cbn.
  destruct (idleCallbackId em1), (idleCallbackId em2); reflexivity.
Qed.

Lemma flushQueue_resumes (d : Deadline) (em : ElementManager) :
  manager (flushQueue pg infiniteDeadline (flushQueue pg d em))
  = manager (flushQueue pg infiniteDeadline em).
Proof.
  pose proof (queueLoop_resumes d (index (queue (manager em))) (manager em))
    as H.
  unfold flushQueue at 2.
  destruct (queueLoop pg d _ _ (manager em)) as [m' | m' d'];
    cbn [resumes] in H; destruct H as (_ & _ & H).
  - rewrite (flushQueue_manager _ _
               {| manager := m'; idleCallbackId := idleCallbackId em |}).
    2:{ unfold requestIdleCallback. cbn. destruct (idleCallbackId em);
          reflexivity. }
    unfold flushQueue. cbn [manager].
    rewrite (queueLoop_start _ 0), H, <- (queueLoop_start (index (queue (manager em)))).
    destruct (queueLoop _ _ _ _ _) as [m'' | m'' d'']; [|reflexivity].
    unfold requestIdleCallback. cbn. destruct (idleCallbackId em); reflexivity.
  - unfold flushQueue at 2. rewrite (queueLoop_start _ 0), H.
    reflexivity.
Qed.

Lemma onIdle_completed (d : Deadline) (em : ElementManager) :
  idleCallbackId (onIdle pg d em) = None →
  manager (onIdle pg d em) = manager (flushQueue pg infiniteDeadline em).
Proof.
  unfold onIdle, flushQueue. cbn [manager idleCallbackId].
  pose proof (queueLoop_resumes d (index (queue (manager em))) (manager em))
    as H.
  destruct (queueLoop pg d _ _ (manager em)) as [m' | m' d'];
    cbn [resumes] in H; destruct H as (_ & _ & H).
  - discriminate.
  - intros _. rewrite (queueLoop_start _ 0), H. reflexivity.
Qed.

Lemma idleSlices_idle (n : nat) (deadlines : nat → Deadline)
    (em : ElementManager) :
  idleCallbackId em = None → idleSlices pg n deadlines em = em.
Proof. intros H. destruct n; cbn; [|rewrite H]; reflexivity. Qed.

(** C1. Whatever the deadlines of the idle callbacks are, and however many
    of them have run, what is left in the queue is what the one call with
    the infinite deadline would have done: that call, made after the
    slices, ends in the manager it ends in when made at once. So once the
    slices have drained the queue, which is when no idle callback is
    pending any more, the manager is the one of the single unbounded
    call, field by field: the registry, the added elements of the queue,
    the marks, the observed sets and the trace of the
    [addOrRemoveElement] calls, none of which was made twice. *)
Theorem time_slice_invariance (n : nat) (deadlines : nat → Deadline)
    (em : ElementManager) :
  let unsliced := flushQueue pg infiniteDeadline em in
  let sliced := idleSlices pg n deadlines em in
  manager (flushQueue pg infiniteDeadline sliced) = manager unsliced
  ∧ (idleCallbackId em ≠ None → idleCallbackId sliced = None →
     manager sliced = manager unsliced
     ∧ trace (manager sliced) = trace (manager unsliced)
     ∧ queue (manager sliced) = makeEmptyQueue).
Proof.
  cbv zeta.
  assert (H1 : ∀ n deadlines em,
            manager (flushQueue pg infiniteDeadline
                       (idleSlices pg n deadlines em))
            = manager (flushQueue pg infiniteDeadline em)).
  { clear. intros n. induction n as [|n IH]; intros deadlines em; cbn.
    - reflexivity.
    - destruct (idleCallbackId em); [|reflexivity].
      rewrite IH. unfold onIdle. rewrite flushQueue_resumes.
      apply flushQueue_manager. reflexivity. }
  split; [apply H1|].
  assert (H2 : ∀ n deadlines em,
            idleCallbackId em ≠ None →
            idleCallbackId (idleSlices pg n deadlines em) = None →
            manager (idleSlices pg n deadlines em)
            = manager (flushQueue pg infiniteDeadline em)).
  { clear - H1. intros n. induction n as [|n IH]; intros deadlines em; cbn.
    - congruence.
    - destruct (idleCallbackId em) eqn:Hid; [|congruence]. intros _ Hdone.
      destruct (idleCallbackId (onIdle pg (deadlines 0) em)) eqn:Hid'.
      + rewrite IH by (assumption || congruence).
        unfold onIdle. rewrite flushQueue_resumes.
        apply flushQueue_manager. reflexivity.
      + rewrite idleSlices_idle by exact Hid'.
        apply onIdle_completed, Hid'. }
  intros Hid Hdone. rewrite (H2 n deadlines em Hid Hdone).
  split_and!; [reflexivity | reflexivity|].
  unfold flushQueue.
  destruct (queueLoop_completes pg (index (queue (manager em)))
              (drop (index (queue (manager em)))
                 (items (queue (manager em)))) (manager em)) as [m' ->].
  reflexivity.
Qed.

End Resume.

Lemma time_slice_invariance_witness :
  let unsliced := flushQueue examplePage infiniteDeadline exampleQueued in
  let sliced :=
    idleSlices examplePage 8 (λ _, exampleExpired) exampleQueued in
  idleCallbackId exampleQueued ≠ None
  ∧ idleCallbackId
      (idleSlices examplePage 7 (λ _, exampleExpired) exampleQueued) ≠ None
  ∧ idleCallbackId sliced = None
  ∧ manager sliced = manager unsliced
  ∧ elements (manager sliced) !! 2 = Some link.
Proof.
  cbv zeta.
  assert (H0 : idleCallbackId exampleQueued ≠ None)
    by (vm_compute; discriminate).
  assert (H1 : idleCallbackId
                 (idleSlices examplePage 8 (λ _, exampleExpired) exampleQueued)
               = None) by (vm_compute; reflexivity).
  pose proof (time_slice_invariance examplePage 8 (λ _, exampleExpired)
                exampleQueued) as H.
  cbv zeta in H. destruct H as [_ H]. destruct (H H0 H1) as (H2 & _ & _).
  split; [exact H0|].
  split; [vm_compute; discriminate|].
  split; [exact H1|].
  split; [exact H2|].
  vm_compute. reflexivity.
Defined.

(** ** The work left in the queue *)

Section Progress.
Variable pg : Page.

Lemma overBudget_over (advanced : bool) (d d' : Deadline) :
  overBudget advanced d = (true, d') → advanced = true.
Proof. destruct advanced; cbn; [reflexivity | discriminate]. Qed.

Lemma headWork_positive (item : RecordsItem) (element : Node) :
  1 ≤ headWork pg item element.
Proof. unfold headWork, nodeWork. destruct (children item); lia. Qed.

Lemma nodesWork_fresh (item : RecordsItem) (nodes : list Node) :
  children item = None →
  nodesWork pg item nodes = sum_list (nodeWork pg <$> nodes).
Proof.
  intros H. destruct nodes as [|element nodes]; [reflexivity|].
  cbn. unfold headWork. rewrite H. reflexivity.
Qed.

Lemma nodesWork_cursors (item item' : RecordsItem) (nodes : list Node) :
  children item' = children item → childIndex item' = childIndex item →
  nodesWork pg item' nodes = nodesWork pg item nodes.
Proof.
  intros H1 H2. destruct nodes as [|element nodes]; [reflexivity|].
  cbn. unfold headWork. rewrite H1, H2. reflexivity.
Qed.

(** *** The walk over the children *)

Lemma addedChildren_advances (c : list Node) (d : Deadline) (s : nat)
    (item : RecordsItem) (m : Manager) :
  lands (λ a, s < childIndex a.1 ∧ childIndex a.1 < length c) (λ _, True)
    (addedChildren pg d s (drop (childIndex item) c) item m).
Proof.
  remember (drop (childIndex item) c) as rest eqn:Hrest.
  revert d item m Hrest.
  induction rest as [|child rest IH]; intros d item m Hrest; [exact I|].
  cbn [addedChildren]. symmetry in Hrest.
  destruct (drop_cons_inv _ _ _ _ Hrest) as [Hrest' Hlt].
  destruct (overBudget _ d) as [[] d'] eqn:Hover.
  - apply overBudget_over, Nat.ltb_lt in Hover. cbn. lia.
  - apply IH. cbn. symmetry. exact Hrest'.
Qed.

Lemma removedChildren_advances (c : list Node) (d : Deadline) (s : nat)
    (item : RecordsItem) (m : Manager) :
  lands (λ a, s < childIndex a.1 ∧ childIndex a.1 < length c) (λ _, True)
    (removedChildren pg d s (drop (childIndex item) c) item m).
Proof.
  remember (drop (childIndex item) c) as rest eqn:Hrest.
  revert d item m Hrest.
  induction rest as [|child rest IH]; intros d item m Hrest; [exact I|].
  cbn [removedChildren]. symmetry in Hrest.
  destruct (drop_cons_inv _ _ _ _ Hrest) as [Hrest' Hlt].
  destruct (overBudget _ d) as [[] d'] eqn:Hover.
  - apply overBudget_over, Nat.ltb_lt in Hover. cbn. lia.
  - apply IH. cbn. symmetry. exact Hrest'.
Qed.

Lemma walkChildren_advances
    (walk : Deadline → nat → list Node → RecordsItem → Manager
            → Outcome (RecordsItem * Manager))
    (d : Deadline) (item : RecordsItem) (m : Manager) (element : Node) :
  (∀ c d s item m,
     resumes (alike (set_childIndex 0)) (λ _, True) (λ _, True)
       (λ a, walk infiniteDeadline 0 (drop (childIndex a.1) c) a.1 a.2)
       (item, m) (walk d s (drop (childIndex item) c) item m)) →
  (∀ c d s item m,
     lands (λ a, s < childIndex a.1 ∧ childIndex a.1 < length c) (λ _, True)
       (walk d s (drop (childIndex item) c) item m)) →
  lands (λ a, headWork pg a.1 element + 1 ≤ headWork pg item element)
    (λ _, True) (walkChildren walk d item m).
Proof.
  intros Hres Hadv. unfold walkChildren.
  destruct (children item) as [c|] eqn:Hc; [|exact I].
  destruct (0 <? length c); [|exact I].
  specialize (Hres c d (childIndex item) item m).
  specialize (Hadv c d (childIndex item) item m).
  destruct (walk d _ _ item m) as [[item' m'] | [item' m'] d']; [|exact I].
  cbn [lands resumes fst snd] in *.
  destruct Hres as ([Hi _] & _). cbn [fst snd] in Hi.
  apply (f_equal children) in Hi. cbn in Hi.
  unfold headWork. rewrite Hi, Hc. lia.
Qed.

Lemma lands_impl {A} (P P' Q Q' : A → Prop) (o : Outcome A) :
  (∀ a, P a → P' a) → (∀ a, Q a → Q' a) → lands P Q o → lands P' Q' o.
Proof. intros H1 H2. destruct o; cbn; auto. Qed.

(** *** One added or removed node *)

Lemma addedNode_advances (d : Deadline) (element : Node) (item : RecordsItem)
    (m : Manager) :
  lands (λ a, headWork pg a.1 element + 1 ≤ headWork pg item element)
    (λ _, True) (addedNode pg d element item m).
Proof.
  pose proof (λ d item m,
                walkChildren_advances (addedChildren pg) d item m element
                  (addedChildren_resumes pg) addedChildren_advances) as Hwalk.
  unfold addedNode.
  destruct (bool_decide (children item = None)) eqn:Hnone; cbn [andb];
    [|apply Hwalk].
  destruct (instanceof _ _); [|apply Hwalk].
  destruct (bool_decide (element ∈ _)); [exact I|].
  apply bool_decide_eq_true in Hnone.
  set (item1 := set_children (Some (querySelectorAll pg element)) item).
  assert (H1 : headWork pg item1 element + 1 ≤ headWork pg item element).
  { unfold headWork, nodeWork. rewrite Hnone. cbn. lia. }
  destruct (exhausted d); [exact H1|].
  eapply lands_impl; [| |apply Hwalk]; cbn beta; intros; [lia | exact I].
Qed.

Lemma removedNode_advances (d : Deadline) (element : Node)
    (item : RecordsItem) (m : Manager) :
  lands (λ a, headWork pg a.1 element + 1 ≤ headWork pg item element)
    (λ _, True) (removedNode pg d element item m).
Proof.
  pose proof (λ d item m,
                walkChildren_advances (removedChildren pg) d item m element
                  (removedChildren_resumes pg) removedChildren_advances)
    as Hwalk.
  unfold removedNode.
  destruct (bool_decide (children item = None)) eqn:Hnone; cbn [andb];
    [|apply Hwalk].
  destruct (instanceof _ _); [|apply Hwalk].
  apply bool_decide_eq_true in Hnone.
  set (item1 := set_children (Some (querySelectorAll pg element)) item).
  assert (H1 : headWork pg item1 element + 1 ≤ headWork pg item element).
  { unfold headWork, nodeWork. rewrite Hnone. cbn. lia. }
  destruct (exhausted d); [exact H1|].
  eapply lands_impl; [| |apply Hwalk]; cbn beta; intros; [lia | exact I].
Qed.

(** *** The loops over the added and the removed nodes *)

Lemma addedLoop_advances (nodes after : list Node) (d : Deadline) (s : nat)
    (item : RecordsItem) (m : Manager) :
  lands
    (λ a, nodesWork pg a.1 (drop (addedNodeIndex a.1) nodes ++ after)
          + (if s <? addedNodeIndex item then 0 else 1)
          ≤ nodesWork pg item (drop (addedNodeIndex item) nodes ++ after))
    (λ a, nodesWork pg a.1 after
          ≤ nodesWork pg item (drop (addedNodeIndex item) nodes ++ after))
    (addedLoop pg d s (drop (addedNodeIndex item) nodes) item m).
Proof.
  remember (drop (addedNodeIndex item) nodes) as rest eqn:Hrest.
  revert d item m Hrest.
  induction rest as [|element rest IH]; intros d item m Hrest.
  - cbn. lia.
  - cbn [addedLoop]. symmetry in Hrest.
    destruct (drop_cons_inv _ _ _ _ Hrest) as [Hrest' _].
    destruct (overBudget _ d) as [[] d'] eqn:Hover.
    + apply overBudget_over in Hover. cbn [lands fst snd].
      rewrite Hover, Hrest. lia.
    + pose proof (addedNode_resumes pg d' element item m) as Hres.
      pose proof (addedNode_advances d' element item m) as Hadv.
      destruct (addedNode pg d' element item m)
        as [[item' m'] | [item' m'] d''];
        cbn [lands resumes fst snd] in Hres, Hadv;
        destruct Hres as ([Hi _] & Hch & _); cbn [fst snd] in Hi;
        pose proof (f_equal addedNodeIndex Hi) as Hidx; cbn in Hidx.
      * cbn [lands fst snd]. rewrite Hidx, Hrest. cbn [app nodesWork].
        destruct (s <? _); lia.
      * set (item2 := set_addedNodeIndex (S (addedNodeIndex item')) item').
        assert (Hrest2 : rest = drop (addedNodeIndex item2) nodes).
        { cbn. rewrite Hidx. symmetry. exact Hrest'. }
        assert (Hwork : nodesWork pg item2 (rest ++ after) + 1
                        ≤ nodesWork pg item ((element :: rest) ++ after)).
        { rewrite nodesWork_fresh by exact Hch. cbn [app nodesWork].
          pose proof (headWork_positive item element). lia. }
        specialize (IH d'' item2 m' Hrest2).
        eapply lands_impl; [| |exact IH]; cbn beta; intros a Ha.
        -- destruct (s <? addedNodeIndex item2), (s <? addedNodeIndex item);
             lia.
        -- lia.
Qed.

Lemma removedLoop_advances (nodes after : list Node) (d : Deadline) (s : nat)
    (item : RecordsItem) (m : Manager) :
  lands
    (λ a, nodesWork pg a.1 (drop (removedNodeIndex a.1) nodes ++ after)
          + (if s <? removedNodeIndex item then 0 else 1)
          ≤ nodesWork pg item (drop (removedNodeIndex item) nodes ++ after))
    (λ a, nodesWork pg a.1 after
          ≤ nodesWork pg item (drop (removedNodeIndex item) nodes ++ after))
    (removedLoop pg d s (drop (removedNodeIndex item) nodes) item m).
Proof.
  remember (drop (removedNodeIndex item) nodes) as rest eqn:Hrest.
  revert d item m Hrest.
  induction rest as [|element rest IH]; intros d item m Hrest.
  - cbn. lia.
  - cbn [removedLoop]. symmetry in Hrest.
    destruct (drop_cons_inv _ _ _ _ Hrest) as [Hrest' _].
    destruct (overBudget _ d) as [[] d'] eqn:Hover.
    + apply overBudget_over in Hover. cbn [lands fst snd].
      rewrite Hover, Hrest. lia.
    + pose proof (removedNode_resumes pg d' element item m) as Hres.
      pose proof (removedNode_advances d' element item m) as Hadv.
      destruct (removedNode pg d' element item m)
        as [[item' m'] | [item' m'] d''];
        cbn [lands resumes fst snd] in Hres, Hadv;
        destruct Hres as ([Hi _] & Hch & _); cbn [fst snd] in Hi;
        pose proof (f_equal removedNodeIndex Hi) as Hidx; cbn in Hidx.
      * cbn [lands fst snd]. rewrite Hidx, Hrest. cbn [app nodesWork].
        destruct (s <? _); lia.
      * set (item2 := set_removedNodeIndex (S (removedNodeIndex item')) item').
        assert (Hrest2 : rest = drop (removedNodeIndex item2) nodes).
        { cbn. rewrite Hidx. symmetry. exact Hrest'. }
        assert (Hwork : nodesWork pg item2 (rest ++ after) + 1
                        ≤ nodesWork pg item ((element :: rest) ++ after)).
        { rewrite nodesWork_fresh by exact Hch. cbn [app nodesWork].
          pose proof (headWork_positive item element). lia. }
        specialize (IH d'' item2 m' Hrest2).
        eapply lands_impl; [| |exact IH]; cbn beta; intros a Ha.
        -- destruct (s <? removedNodeIndex item2),
             (s <? removedNodeIndex item); lia.
        -- lia.
Qed.

(** *** One record *)

Lemma processRecord_advances (record : Record_) (after : list Node)
    (d : Deadline) (item : RecordsItem) (m : Manager) :
  lands
    (λ a, nodesWork pg a.1 (nodesNow record a.1 ++ after) + 1
          ≤ nodesWork pg item (nodesNow record item ++ after))
    (λ a, nodesWork pg a.1 after
          ≤ nodesWork pg item (nodesNow record item ++ after)
          ∧ addedNodeIndex a.1 = 0 ∧ removedNodeIndex a.1 = 0)
    (processRecord pg d record item m).
Proof.
  unfold processRecord, nodesNow.
  destruct (removalsOnly item) eqn:Hro.
  - pose proof (removedLoop_resumes pg (removedNodes record) d
                  (removedNodeIndex item) item m) as Hres.
    pose proof (removedLoop_advances (removedNodes record) after d
                  (removedNodeIndex item) item m) as Hadv.
    rewrite Nat.ltb_irrefl in Hadv.
    destruct (removedLoop pg d _ _ item m) as [[item' m'] | [item' m'] d'];
      cbn [lands resumes fst snd] in Hres, Hadv |- *;
      destruct Hres as ([Hi _] & _); cbn [fst snd] in Hi.
    + pose proof (f_equal removalsOnly Hi) as Hro'. cbn in Hro'.
      rewrite Hro', Hro. exact Hadv.
    + split_and!; [|reflexivity|reflexivity].
      erewrite nodesWork_cursors; [exact Hadv | reflexivity | reflexivity].
  - pose proof (addedLoop_resumes pg (addedNodes record) d
                  (addedNodeIndex item) item m) as Hres.
    pose proof (addedLoop_advances (addedNodes record)
                  (drop (removedNodeIndex item) (removedNodes record) ++ after)
                  d (addedNodeIndex item) item m) as Hadv.
    rewrite Nat.ltb_irrefl in Hadv.
    destruct (addedLoop pg d _ _ item m) as [[item1 m1] | [item1 m1] d1];
      cbn [lands resumes fst snd] in Hres, Hadv |- *;
      destruct Hres as ([Hi _] & Hdone & _); cbn [fst snd] in Hi;
      pose proof (f_equal removalsOnly Hi) as Hro1;
      pose proof (f_equal removedNodeIndex Hi) as Hidx1;
      cbn in Hro1, Hidx1.
    + rewrite Hro1, Hro, Hidx1, <- !app_assoc. exact Hadv.
    + pose proof (removedLoop_resumes pg (removedNodes record) d1
                    (removedNodeIndex item) item1 m1) as Hres'.
      pose proof (removedLoop_advances (removedNodes record) after d1
                    (removedNodeIndex item) item1 m1) as Hadv'.
      replace (removedNodeIndex item <? removedNodeIndex item1) with false
        in Hadv' by (rewrite Hidx1, Nat.ltb_irrefl; reflexivity).
      rewrite <- !app_assoc.
      destruct (removedLoop pg d1 _ _ item1 m1)
        as [[item' m'] | [item' m'] d'];
        cbn [lands resumes fst snd] in Hres', Hadv' |- *;
        destruct Hres' as ([Hi' _] & _); cbn [fst snd] in Hi';
        rewrite Hidx1 in Hadv'.
      * pose proof (f_equal removalsOnly Hi') as Hro'.
        pose proof (f_equal addedNodeIndex Hi') as Hidx'.
        cbn in Hro', Hidx'.
        rewrite Hro', Hro1, Hro, drop_ge by lia. cbn [app].
        etransitivity; [exact Hadv' | exact Hadv].
      * split_and!; [|reflexivity|reflexivity].
        rewrite (nodesWork_cursors item' _ after) by reflexivity.
        etransitivity; [exact Hadv' | exact Hadv].
Qed.

(** *** The loop over the records *)

Lemma nodesLeft_next (item : RecordsItem) (rest : list Record_) :
  drop (recordIndex item) (records item) = rest →
  addedNodeIndex item = 0 → removedNodeIndex item = 0 →
  nodesLeft item = concat (nodesOf (removalsOnly item) <$> rest).
Proof.
  intros H Ha Hr. unfold nodesLeft, nodesNow. rewrite H, Ha, Hr.
  destruct rest as [|record rest]; reflexivity.
Qed.

Lemma recordLoop_advances (d : Deadline) (s : nat) (item : RecordsItem)
    (m : Manager) :
  lands
    (λ a, recordsWork pg a.1 + (if s <? recordIndex item then 0 else 1)
          ≤ recordsWork pg item)
    (λ _, True)
    (recordLoop pg d s (drop (recordIndex item) (records item)) item m).
Proof.
  remember (drop (recordIndex item) (records item)) as rest eqn:Hrest.
  revert d item m Hrest.
  induction rest as [|record rest IH]; intros d item m Hrest; [exact I|].
  cbn [recordLoop]. symmetry in Hrest.
  destruct (drop_cons_inv _ _ _ _ Hrest) as [Hrest' _].
  destruct (overBudget _ d) as [[] d'] eqn:Hover.
  - apply overBudget_over in Hover. cbn [lands fst snd].
    rewrite Hover. lia.
  - pose proof (processRecord_resumes pg d' record item m) as Hres.
    pose proof (processRecord_advances record
                  (concat (nodesOf (removalsOnly item) <$> rest))
                  d' item m) as Hadv.
    assert (Hwork : recordsWork pg item
                    = S (length rest)
                      + nodesWork pg item
                          (nodesNow record item
                           ++ concat (nodesOf (removalsOnly item) <$> rest))).
    { unfold recordsWork, nodesLeft. rewrite Hrest. reflexivity. }
    destruct (processRecord pg d' record item m)
      as [[item' m'] | [item' m'] d''];
      cbn [lands resumes fst snd] in Hres, Hadv;
      destruct Hres as ([Hi _] & _); cbn [fst snd] in Hi;
      pose proof (f_equal removalsOnly Hi) as Hro;
      pose proof (f_equal recordIndex Hi) as Hidx;
      pose proof (f_equal records Hi) as Hrs;
      cbn in Hro, Hidx, Hrs.
    + cbn [lands fst snd]. rewrite Hwork.
      unfold recordsWork, nodesLeft. rewrite Hidx, Hrs, Hrest, Hro.
      cbn [length]. destruct (s <? _); lia.
    + destruct Hadv as (Hadv & Ha & Hr).
      set (item2 := set_recordIndex (S (recordIndex item')) item').
      assert (Hrest2 : drop (recordIndex item2) (records item2) = rest).
      { cbn. rewrite Hidx, Hrs. exact Hrest'. }
      assert (Hwork2 : recordsWork pg item2 + 1 ≤ recordsWork pg item).
      { rewrite Hwork. unfold recordsWork.
        rewrite (nodesLeft_next item2 rest Hrest2 Ha Hr), Hrest2.
        cbn [removalsOnly item2 set_recordIndex]. rewrite Hro.
        rewrite (nodesWork_cursors item' item2) by reflexivity. lia. }
      symmetry in Hrest2. specialize (IH d'' item2 m' Hrest2).
      eapply lands_impl; [| |exact IH]; cbn beta; intros a Ha'; [|exact I].
      destruct (s <? recordIndex item2), (s <? recordIndex item); lia.
Qed.

(** *** The loop over the items *)

Lemma queueLoop_advances (d : Deadline) (s : nat) (m : Manager) :
  lands
    (λ m', remainingWork pg m' + (if s <? index (queue m) then 0 else 1)
           ≤ remainingWork pg m)
    (λ _, True)
    (queueLoop pg d s (drop (index (queue m)) (items (queue m))) m).
Proof.
  remember (drop (index (queue m)) (items (queue m))) as rest eqn:Hrest.
  revert d m Hrest.
  induction rest as [|qi rest IH]; intros d m Hrest; [exact I|].
  cbn [queueLoop]. symmetry in Hrest.
  destruct (drop_cons_inv _ _ _ _ Hrest) as [Hrest' Hlt].
  assert (Hwork : remainingWork pg m
                  = itemWork pg qi + sum_list (itemWork pg <$> rest)).
  { unfold remainingWork. rewrite Hrest. reflexivity. }
  destruct (overBudget _ d) as [[] d'] eqn:Hover.
  - apply overBudget_over in Hover. cbn [lands]. rewrite Hover. lia.
  - assert (Hnext : ∀ m2,
              drop (index (queue m2)) (items (queue m2)) = rest →
              lands
                (λ m', remainingWork pg m'
                       + (if s <? index (queue m) then 0 else 1)
                       ≤ remainingWork pg m)
                (λ _, True) (queueLoop pg d' s rest m2)).
    { intros m2 Hrest2.
      assert (Hwork2 : remainingWork pg m2 + 1 ≤ remainingWork pg m).
      { rewrite Hwork. unfold remainingWork. rewrite Hrest2.
        destruct qi; cbn; lia. }
      symmetry in Hrest2. specialize (IH d' m2 Hrest2).
      eapply lands_impl; [| |exact IH]; cbn beta; intros a Ha; [|exact I].
      destruct (s <? index (queue m2)), (s <? index (queue m)); lia. }
    destruct qi as [item | target b | target].
    + pose proof (recordLoop_resumes pg d' (recordIndex item) item m) as Hres.
      pose proof (recordLoop_advances d' (recordIndex item) item m) as Hadv.
      rewrite Nat.ltb_irrefl in Hadv.
      destruct (recordLoop pg d' _ _ item m)
        as [[item' m'] | [item' m'] d''];
        cbn [lands resumes fst snd] in Hres, Hadv;
        destruct Hres as ([_ [Hitems Hindex]] & _);
        cbn [fst snd] in Hitems, Hindex.
      * cbn [lands]. rewrite Hwork. unfold remainingWork.
        change (index (queue (storeItem item' m')))
          with (index (queue m')).
        change (items (queue (storeItem item' m')))
          with (<[index (queue m') := Records item']> (items (queue m'))).
        rewrite Hindex, Hitems, drop_insert_here, Hrest' by exact Hlt.
        change (sum_list (itemWork pg <$> Records item' :: rest))
          with (itemWork pg (Records item')
                + sum_list (itemWork pg <$> rest)).
        cbn [itemWork]. destruct (s <? _); lia.
      * clear Hnext.
        assert (Hrest2 : drop (index (queue (nextItem (storeItem item' m'))))
                           (items (queue (nextItem (storeItem item' m'))))
                         = rest).
        { change (index (queue (nextItem (storeItem item' m'))))
            with (S (index (queue m'))).
          change (items (queue (nextItem (storeItem item' m'))))
            with (<[index (queue m') := Records item']> (items (queue m'))).
          rewrite drop_insert_lt, Hindex, Hitems by lia. exact Hrest'. }
        assert (Hwork2 : remainingWork pg (nextItem (storeItem item' m')) + 1
                         ≤ remainingWork pg m).
        { rewrite Hwork. unfold remainingWork. rewrite Hrest2. cbn. lia. }
        symmetry in Hrest2.
        specialize (IH d'' (nextItem (storeItem item' m')) Hrest2).
        eapply lands_impl; [| |exact IH]; cbn beta; intros a Ha; [|exact I].
        destruct (s <? index (queue (nextItem (storeItem item' m')))),
          (s <? index (queue m)); lia.
    + apply Hnext. unfold nextItem. cbn.
      rewrite clickableChanged_queue. exact Hrest'.
    + apply Hnext. unfold nextItem. cbn.
      rewrite overflowChanged_queue. exact Hrest'.
Qed.

(** *** [flushQueue] and the idle callbacks *)

Lemma itemWork_positive (item : QueueItem) : 1 ≤ itemWork pg item.
Proof. destruct item; cbn; lia. Qed.

Lemma remainingWork_zero (m : Manager) :
  remainingWork pg m = 0 ↔ length (items (queue m)) ≤ index (queue m).
Proof.
  unfold remainingWork. split.
  - intros H.
    destruct (drop (index (queue m)) (items (queue m))) as [|item rest] eqn:Hd.
    + apply (f_equal length) in Hd. rewrite length_drop in Hd. cbn in Hd. lia.
    + pose proof (itemWork_positive item).
      change (sum_list (itemWork pg <$> item :: rest))
        with (itemWork pg item + sum_list (itemWork pg <$> rest)) in H.
      lia.
  - intros H. rewrite drop_ge by exact H. reflexivity.
Qed.

Lemma flushQueue_advances (d : Deadline) (em : ElementManager) :
  (queue (manager (flushQueue pg d em)) = makeEmptyQueue
   ∧ idleCallbackId (flushQueue pg d em) = idleCallbackId em)
  ∨ (remainingWork pg (manager (flushQueue pg d em)) + 1
     ≤ remainingWork pg (manager em)
     ∧ idleCallbackId (flushQueue pg d em) ≠ None).
Proof.
  unfold flushQueue.
  pose proof (queueLoop_advances d (index (queue (manager em))) (manager em))
    as H.
  rewrite Nat.ltb_irrefl in H.
  destruct (queueLoop pg d _ _ (manager em)) as [m' | m' d']; cbn [lands] in H.
  - right. unfold requestIdleCallback. cbn [manager idleCallbackId].
    destruct (idleCallbackId em); cbn; split; (exact H || discriminate).
  - left. split; reflexivity.
Qed.

Lemma idleSlices_drain (n : nat) (deadlines : nat → Deadline)
    (em : ElementManager) :
  idleCallbackId em ≠ None → remainingWork pg (manager em) < n →
  idleCallbackId (idleSlices pg n deadlines em) = None
  ∧ queue (manager (idleSlices pg n deadlines em)) = makeEmptyQueue.
Proof.
  revert deadlines em.
  induction n as [|n IH]; intros deadlines em Hid Hwork; [lia|].
  cbn [idleSlices]. destruct (idleCallbackId em) eqn:Hid'; [|congruence].
  destruct (flushQueue_advances (deadlines 0)
              {| manager := manager em; idleCallbackId := None |})
    as [[Hq Hnone] | [Hless Hsome]].
  - rewrite idleSlices_idle by exact Hnone. split; [exact Hnone | exact Hq].
  - apply IH; [exact Hsome|]. unfold onIdle. cbn [manager] in Hless. lia.
Qed.

(** C10. The work left in the queue is none exactly when the queue has no
    item left to go through. Whatever the deadline is, also one that has
    run out before the call, a call of [flushQueue] with work left ends
    with less work left: it has taken at least one step before it yields.
    So the idle callbacks, whatever their deadlines, have drained the
    queue after at most one call more than there is work left. *)
Theorem flushQueue_makes_progress (deadlines : nat → Deadline)
    (em : ElementManager) :
  let m := manager em in
  (remainingWork pg m = 0 ↔ length (items (queue m)) ≤ index (queue m))
  ∧ (∀ deadline,
       0 < remainingWork pg m →
       remainingWork pg (manager (flushQueue pg deadline em))
       < remainingWork pg m)
  ∧ (let drained :=
       idleSlices pg (S (remainingWork pg m)) deadlines
         {| manager := m; idleCallbackId := Some idleCallback |} in
     idleCallbackId drained = None
     ∧ queue (manager drained) = makeEmptyQueue).
Proof.
  cbv zeta. split; [|split].
  - apply remainingWork_zero.
  - intros deadline Hwork.
    destruct (flushQueue_advances deadline em) as [[Hq _] | [Hless _]];
      [|lia].
    unfold remainingWork at 1. rewrite Hq. cbn. exact Hwork.
  - apply idleSlices_drain; cbn; [discriminate | lia].
Qed.

End Progress.

Lemma flushQueue_makes_progress_witness :
  let m := manager exampleQueued in
  let m' := manager (flushQueue examplePage exampleExpired exampleQueued) in
  exhausted exampleExpired = true
  ∧ remainingWork examplePage m = 11
  ∧ remainingWork examplePage m' = 10
  ∧ trace m' = [(added, 1)]
  ∧ queue
      (manager
         (idleSlices examplePage 12 (λ _, exampleExpired)
            {| manager := m; idleCallbackId := Some idleCallback |}))
    = makeEmptyQueue.
Proof.
  cbv zeta.
  pose proof (flushQueue_makes_progress examplePage (λ _, exampleExpired)
                exampleQueued) as H.
  cbv zeta in H. destruct H as (_ & _ & _ & H).
  assert (H11 : remainingWork examplePage (manager exampleQueued) = 11)
    by (vm_compute; reflexivity).
  rewrite H11 in H.
  split; [reflexivity|].
  split; [exact H11|].
  split; [vm_compute; reflexivity|].
  split; [vm_compute; reflexivity|].
  exact H.
Defined.

(** ** Elements that were removed *)

Section Unregistered.
Variable pg : Page.
Variable probe : Node.

Lemma latestCall_cons (e e' : Node) (mt : MutationType)
    (tr : list (MutationType * Node)) :
  latestCall e ((mt, e') :: tr)
  = if bool_decide (e' = e) then Some mt else latestCall e tr.
Proof. unfold latestCall. cbn. destruct (bool_decide _); reflexivity. Qed.

Lemma unregistered_fields (m m' : Manager) :
  trace m' = trace m → elements m' = elements m →
  addedElements (queue m') ⊆ addedElements (queue m) →
  unregistered pg m → unregistered pg m'.
Proof.
  intros Ht He Ha [H1 H2]. split.
  - intros e Hl. rewrite Ht in Hl. destruct (H1 e Hl) as [H3 H4].
    rewrite He. split; [exact H3|]. intros Hin. apply H4, Ha, Hin.
  - intros e Hf. rewrite He. apply H2, Hf.
Qed.

Lemma addOrRemoveElement_registry (mt : MutationType) (e : Node)
    (m : Manager) :
  let m' := addOrRemoveElement pg mt e m in
  (∀ e', e' ≠ e → elements m' !! e' = elements m !! e')
  ∧ (isFrame pg e = true → elements m' = elements m)
  ∧ (isFrame pg e = false → mt = removed → elements m' !! e = None).
Proof.
  cbv zeta. unfold addOrRemoveElement.
  destruct (consumeEventAttribute_fields pg e
              (set_trace ((mt, e) :: trace m) m))
    as (_ & He & _).
  set (m1 := consumeEventAttribute pg e _) in *. cbn in He. clearbody m1.
  destruct (isFrame pg e) eqn:Hframe.
  { destruct mt; cbn; rewrite He; split_and!; intros; (reflexivity || discriminate). }
  destruct mt; cbn.
  - rewrite decide_False by discriminate.
    destruct (getElementType pg m1 e) as [ty|]; cbn.
    + split_and!; [|discriminate|discriminate].
      intros e' Hne. unfold bail. repeat case_match; cbn;
        rewrite lookup_insert_ne by congruence; rewrite He; reflexivity.
    + rewrite decide_False by (intros H; apply H; reflexivity).
      split_and!; [|discriminate|discriminate].
      intros e' _. rewrite He. reflexivity.
  - rewrite decide_True by reflexivity. rewrite decide_True by discriminate.
    cbn. split_and!; [|discriminate|].
    + intros e' Hne. rewrite lookup_delete_ne by congruence.
      rewrite He. reflexivity.
    + intros _ _. apply lookup_delete_eq.
  - rewrite decide_False by discriminate.
    destruct (getElementType pg m1 e) as [ty|]; cbn.
    + split_and!; [|discriminate|discriminate].
      intros e' Hne. unfold bail. repeat case_match; cbn;
        rewrite lookup_insert_ne by congruence; rewrite He; reflexivity.
    + rewrite decide_True by discriminate. cbn.
      split_and!; [|discriminate|discriminate].
      intros e' Hne. rewrite lookup_delete_ne by congruence.
      rewrite He. reflexivity.
Qed.

Lemma unregistered_frames (mt : MutationType) (e : Node) (m : Manager) :
  (∀ e', isFrame pg e' = true → elements m !! e' = None) →
  ∀ e', isFrame pg e' = true →
        elements (addOrRemoveElement pg mt e m) !! e' = None.
Proof.
  intros H e' Hf.
  destruct (addOrRemoveElement_registry mt e m) as (H1 & H2 & _).
  destruct (decide (e' = e)) as [->|Hne].
  - rewrite H2 by exact Hf. apply H, Hf.
  - rewrite H1 by exact Hne. apply H, Hf.
Qed.

Lemma unregistered_added (e : Node) (m : Manager) :
  unregistered pg m →
  unregistered pg (addedElements_add e (addOrRemoveElement pg added e m)).
Proof.
  intros [H1 H2]. split; [|apply (unregistered_frames added e m H2)].
  intros e0. unfold addedElements_add.
  cbn [trace elements queue set_queue addedElements set_addedElements].
  destruct (addOrRemoveElement_marks pg added e m)
    as (_ & _ & _ & Hq & _ & Htr).
  rewrite Htr, latestCall_cons, Hq.
  destruct (bool_decide (e = e0)) eqn:He; [discriminate|].
  apply bool_decide_eq_false in He. intros Hl.
  destruct (H1 e0 Hl) as [H3 H4].
  destruct (addOrRemoveElement_registry added e m) as (H5 & _).
  rewrite H5 by congruence. split; [exact H3|].
  set_unfold. intuition congruence.
Qed.

Lemma unregistered_removed (e : Node) (m : Manager) :
  unregistered pg m →
  unregistered pg (addedElements_delete e (addOrRemoveElement pg removed e m)).
Proof.
  intros [H1 H2]. split; [|apply (unregistered_frames removed e m H2)].
  intros e0. unfold addedElements_delete.
  cbn [trace elements queue set_queue addedElements set_addedElements].
  destruct (addOrRemoveElement_marks pg removed e m)
    as (_ & _ & _ & Hq & _ & Htr).
  rewrite Htr, latestCall_cons, Hq.
  destruct (addOrRemoveElement_registry removed e m) as (H5 & H6 & H7).
  destruct (bool_decide (e = e0)) eqn:He.
  - apply bool_decide_eq_true in He. subst e0. intros _. split.
    + destruct (isFrame pg e) eqn:Hf.
      * rewrite H6 by reflexivity. apply H2, Hf.
      * apply H7; reflexivity.
    + set_unfold. intuition congruence.
  - apply bool_decide_eq_false in He. intros Hl.
    destruct (H1 e0 Hl) as [H3 H4].
    rewrite H5 by congruence. split; [exact H3|].
    set_unfold. intuition congruence.
Qed.

Lemma unregistered_changed (e : Node) (m : Manager) :
  unregistered pg m → unregistered pg (addOrRemoveElement pg changed e m).
Proof.
  intros [H1 H2]. split; [|apply (unregistered_frames changed e m H2)].
  intros e0.
  destruct (addOrRemoveElement_marks pg changed e m)
    as (_ & _ & _ & Hq & _ & Htr).
  rewrite Htr, latestCall_cons, Hq.
  destruct (bool_decide (e = e0)) eqn:He; [discriminate|].
  apply bool_decide_eq_false in He. intros Hl.
  destruct (H1 e0 Hl) as [H3 H4].
  destruct (addOrRemoveElement_registry changed e m) as (H5 & _).
  rewrite H5 by congruence. split; [exact H3 | exact H4].
Qed.

Lemma unregistered_clickableChanged (target : Node) (b : bool) (m : Manager) :
  unregistered pg m → unregistered pg (clickableChanged pg target b m).
Proof.
  intros H. unfold clickableChanged. destruct (instanceof _ _); [|exact H].
  apply unregistered_changed.
  revert H. apply unregistered_fields; reflexivity.
Qed.

Lemma unregistered_overflowChanged (target : Node) (m : Manager) :
  unregistered pg m → unregistered pg (overflowChanged pg target m).
Proof.
  intros H. unfold overflowChanged.
  repeat case_match; try exact H; apply unregistered_changed;
    revert H; apply unregistered_fields; reflexivity.
Qed.

Lemma addedChildren_unregistered (d : Deadline) (start : nat)
    (rest : list Node) (item : RecordsItem) (m : Manager) :
  unregistered pg m →
  ends (ofManager (unregistered pg)) (addedChildren pg d start rest item m).
Proof.
  revert d item m. induction rest as [|child rest IH]; intros d item m Hm; cbn.
  - exact Hm.
  - destruct (overBudget _ d) as [[] d']; [exact Hm|].
    apply IH. destruct (bool_decide _); [exact Hm|].
    apply unregistered_added, Hm.
Qed.

Lemma removedChildren_unregistered (d : Deadline) (start : nat)
    (rest : list Node) (item : RecordsItem) (m : Manager) :
  unregistered pg m →
  ends (ofManager (unregistered pg)) (removedChildren pg d start rest item m).
Proof.
  revert d item m. induction rest as [|child rest IH]; intros d item m Hm; cbn.
  - exact Hm.
  - destruct (overBudget _ d) as [[] d']; [exact Hm|].
    apply IH, unregistered_removed, Hm.
Qed.

Lemma addedNode_unregistered (d : Deadline) (element : Node)
    (item : RecordsItem) (m : Manager) :
  unregistered pg m →
  ends (ofManager (unregistered pg)) (addedNode pg d element item m).
Proof.
  intros Hm. unfold addedNode.
  destruct (_ && _).
  - destruct (bool_decide _); [exact Hm|].
    pose proof (unregistered_added element m Hm) as Hm'.
    destruct (exhausted d); [exact Hm'|].
    apply walkChildren_invariant;
      [apply addedChildren_unregistered | exact Hm'].
  - apply walkChildren_invariant; [apply addedChildren_unregistered | exact Hm].
Qed.

Lemma removedNode_unregistered (d : Deadline) (element : Node)
    (item : RecordsItem) (m : Manager) :
  unregistered pg m →
  ends (ofManager (unregistered pg)) (removedNode pg d element item m).
Proof.
  intros Hm. unfold removedNode.
  destruct (_ && _).
  - pose proof (unregistered_removed element m Hm) as Hm'.
    destruct (exhausted d); [exact Hm'|].
    apply walkChildren_invariant;
      [apply removedChildren_unregistered | exact Hm'].
  - apply walkChildren_invariant;
      [apply removedChildren_unregistered | exact Hm].
Qed.

Lemma addedLoop_unregistered (d : Deadline) (start : nat) (rest : list Node)
    (item : RecordsItem) (m : Manager) :
  unregistered pg m →
  ends (ofManager (unregistered pg)) (addedLoop pg d start rest item m).
Proof.
  revert d item m. induction rest as [|element rest IH]; intros d item m Hm; cbn.
  - exact Hm.
  - destruct (overBudget _ d) as [[] d']; [exact Hm|].
    pose proof (addedNode_unregistered d' element item m Hm) as H.
    destruct (addedNode pg d' element item m) as [[item' m'] | [item' m'] d''];
      [exact H | apply IH, H].
Qed.

Lemma removedLoop_unregistered (d : Deadline) (start : nat) (rest : list Node)
    (item : RecordsItem) (m : Manager) :
  unregistered pg m →
  ends (ofManager (unregistered pg)) (removedLoop pg d start rest item m).
Proof.
  revert d item m. induction rest as [|element rest IH]; intros d item m Hm; cbn.
  - exact Hm.
  - destruct (overBudget _ d) as [[] d']; [exact Hm|].
    pose proof (removedNode_unregistered d' element item m Hm) as H.
    destruct (removedNode pg d' element item m)
      as [[item' m'] | [item' m'] d'']; [exact H | apply IH, H].
Qed.

Lemma processRecord_unregistered (d : Deadline) (record : Record_)
    (item : RecordsItem) (m : Manager) :
  unregistered pg m →
  ends (ofManager (unregistered pg)) (processRecord pg d record item m).
Proof.
  intros Hm. unfold processRecord.
  assert (H : ends (ofManager (unregistered pg))
                (if removalsOnly item then Next (item, m) d
                 else addedLoop pg d (addedNodeIndex item)
                        (drop (addedNodeIndex item) (addedNodes record))
                        item m)).
  { destruct (removalsOnly item);
      [exact Hm | apply addedLoop_unregistered, Hm]. }
  destruct (if removalsOnly item then _ else _)
    as [[item1 m1] | [item1 m1] d1]; [exact H|].
  pose proof (removedLoop_unregistered d1 (removedNodeIndex item)
                (drop (removedNodeIndex item1) (removedNodes record))
                item1 m1 H) as H'.
  destruct (removedLoop _ _ _ _ _ _) as [[item2 m2] | [item2 m2] d2];
    [exact H'|].
  cbn. destruct (_ && _); [apply unregistered_changed, H' | exact H'].
Qed.

Lemma recordLoop_unregistered (d : Deadline) (start : nat)
    (rest : list Record_) (item : RecordsItem) (m : Manager) :
  unregistered pg m →
  ends (ofManager (unregistered pg)) (recordLoop pg d start rest item m).
Proof.
  revert d item m. induction rest as [|record rest IH]; intros d item m Hm; cbn.
  - exact Hm.
  - destruct (overBudget _ d) as [[] d']; [exact Hm|].
    pose proof (processRecord_unregistered d' record item m Hm) as H.
    destruct (processRecord pg d' record item m)
      as [[item' m'] | [item' m'] d'']; [exact H | apply IH, H].
Qed.

Lemma queueLoop_unregistered (d : Deadline) (start : nat)
    (rest : list QueueItem) (m : Manager) :
  unregistered pg m → ends (unregistered pg) (queueLoop pg d start rest m).
Proof.
  revert d m. induction rest as [|item rest IH]; intros d m Hm; cbn.
  - exact Hm.
  - destruct (overBudget _ d) as [[] d']; [exact Hm|].
    destruct item as [item | target b | target].
    + pose proof (recordLoop_unregistered d' (recordIndex item)
                    (drop (recordIndex item) (records item)) item m Hm) as H.
      destruct (recordLoop _ _ _ _ _ _) as [[item' m'] | [item' m'] d''].
      * revert H. apply unregistered_fields; reflexivity.
      * apply IH. revert H. apply unregistered_fields; reflexivity.
    + apply IH.
      pose proof (unregistered_clickableChanged target b m Hm) as H.
      revert H. apply unregistered_fields; reflexivity.
    + apply IH.
      pose proof (unregistered_overflowChanged target m Hm) as H.
      revert H. apply unregistered_fields; reflexivity.
Qed.

Lemma flushQueue_unregistered (d : Deadline) (em : ElementManager) :
  unregistered pg (manager em) → unregistered pg (manager (flushQueue pg d em)).
Proof.
  intros Hm. unfold flushQueue.
  pose proof (queueLoop_unregistered d (index (queue (manager em)))
                (drop (index (queue (manager em)))
                   (items (queue (manager em)))) (manager em) Hm) as H.
  destruct (queueLoop _ _ _ _ _) as [m' | m' d'].
  - unfold requestIdleCallback. destruct (idleCallbackId em); exact H.
  - revert H. apply unregistered_fields; try reflexivity.
    cbn. apply empty_subseteq.
Qed.

Lemma queueItem_unregistered (item : QueueItem) (em : ElementManager) :
  unregistered pg (manager em) →
  unregistered pg (manager (queueItem item em)).
Proof.
  intros Hm. unfold queueItem, requestIdleCallback. cbn.
  destruct (idleCallbackId em); cbn; revert Hm;
    apply unregistered_fields; reflexivity.
Qed.

Lemma handle_unregistered (event : Event) (em : ElementManager) :
  unregistered pg (manager em) →
  unregistered pg (manager (handle pg probe event em)).
Proof.
  intros Hm.
  destruct event
    as [probing rs | rs | target | target | target | entries | entries
        | deadline | types viewports passedCandidates | ];
    cbn [handle].
  - unfold onMutation.
    destruct (if probing then _ else _) as [probed []]; [|exact Hm].
    pose proof (queueItem_unregistered
                  (Records
                     {| records := rs; recordIndex := 0;
                        addedNodeIndex := 0; removedNodeIndex := 0;
                        childIndex := 0; children := None;
                        removalsOnly := false |}) em Hm) as H.
    revert H. apply unregistered_fields; reflexivity.
  - pose proof (queueItem_unregistered
                  (Records
                     {| records := rs; recordIndex := 0;
                        addedNodeIndex := 0; removedNodeIndex := 0;
                        childIndex := 0; children := None;
                        removalsOnly := true |}) em Hm) as H.
    revert H. apply unregistered_fields; reflexivity.
  - apply queueItem_unregistered, Hm.
  - apply queueItem_unregistered, Hm.
  - apply queueItem_unregistered, Hm.
  - revert Hm. apply unregistered_fields; reflexivity.
  - revert Hm. apply unregistered_fields; reflexivity.
  - destruct (idleCallbackId em); [|exact Hm].
    apply flushQueue_unregistered, Hm.
  - change ((getVisibleElements pg types viewports passedCandidates em).1)
      with (if 0 <? length (items (queue (manager em)))
            then flushQueue pg infiniteDeadline em else em).
    destruct (0 <? _); [apply flushQueue_unregistered, Hm | exact Hm].
  - destruct Hm as [H1 H2]. split.
    + intros e _. cbn. split; [apply lookup_empty | apply not_elem_of_empty].
    + intros e _. cbn. apply lookup_empty.
Qed.

(** C3, as the code has it. Whatever happens to a manager from its
    creation on, an element whose latest [addOrRemoveElement] call was a
    removal has no entry in the registry and is not among the added
    elements of the queue; this holds whenever the manager is at rest,
    between two idle callbacks as well as once the queue is drained. *)
Theorem removed_element_is_forgotten (events : list Event)
    (attrs : gmap (Node * string) string) (e : Node) :
  let m := manager (run pg probe events (newElementManager attrs)) in
  latestCall e (trace m) = Some removed →
  elements m !! e = None ∧ e ∉ addedElements (queue m).
Proof.
  cbv zeta.
  assert (H : ∀ events em,
            unregistered pg (manager em) →
            unregistered pg (manager (run pg probe events em))).
  { clear. unfold run. intros events.
    induction events as [|event events IH]; intros em Hm; cbn.
    - exact Hm.
    - apply IH, handle_unregistered, Hm. }
  intros Hl. apply (H events (newElementManager attrs)); [|exact Hl].
  split.
  - intros e' Hl'. cbn in Hl'. discriminate.
  - intros e' _. apply lookup_empty.
Qed.

End Unregistered.

Lemma removed_element_is_forgotten_witness :
  let m := exampleDrained [exampleInserted; exampleTakenOut] in
  trace m = [(removed, 6); (added, 6)]
  ∧ elements m !! 6 = None
  ∧ 6 ∉ addedElements (queue m).
Proof.
  cbv zeta.
  assert (Ht : trace (exampleDrained [exampleInserted; exampleTakenOut])
               = [(removed, 6); (added, 6)]) by (vm_compute; reflexivity).
  split; [exact Ht|].
  apply (removed_element_is_forgotten examplePage exampleProbe
           [Mutation false [exampleInserted; exampleTakenOut];
            Idle infiniteDeadline] exampleAttributes 6).
  change (latestCall 6
            (trace (exampleDrained [exampleInserted; exampleTakenOut]))
          = Some removed).
  rewrite Ht. reflexivity.
Defined.

Lemma element_added_again_is_registered :
  (let m := exampleDrained [exampleInserted; exampleTakenOut; exampleInserted] in
   trace m = [(added, 6); (removed, 6); (added, 6)]
   ∧ queue m = makeEmptyQueue
   ∧ elements m !! 6 = Some clickable)
  ∧ (let m := exampleDrained [exampleInserted; exampleTakenOut; exampleRestyled] in
     trace m = [(changed, 6); (removed, 6); (added, 6)]
     ∧ queue m = makeEmptyQueue
     ∧ elements m !! 6 = Some clickable).
Proof. vm_compute. repeat split; reflexivity. Qed.

(** ** The ceiling of the registry *)

Section Bail.
Variable pg : Page.
Variable probe : Node.





End Bail.





